(** * bundlerwit: bundle dispatch engine (buy.ts) and volume trading
      scheduler (volumeBot.ts), embedded in Rocq.

    The development follows the TypeScript sources:
    - [Module Buy] embeds the dispatch code: [splitLargeBundles],
      [completeBundleSigning], [sendBundle],
      [getPartiallyPreparedTransactions] and the three execution modes.
      Remote services and the cryptographic library are oracles gathered in
      the record [Env]; asynchronous code is written in a state-and-exception
      monad whose state is the trace of outward effects.
    - [Module RateLimit] embeds the rate limiter [checkRateLimit] of
      buy.ts with its clock.
    - [Module Retry] embeds [VolumeBot.executeWithRetry].
    - [Module Volume] embeds the scheduler object, the JavaScript timer
      table it arms, and the object store holding its statistics record.
    - [Module VolumeApi] embeds the backend client (volumeBotApi.ts) and
      [Module SessionBot] the session-based scheduler built on it.
    - [Module Scenarios] holds concrete collaborators and inputs.
    - [Module BuyFacts], [Module RateLimitFacts], [Module RetryFacts],
      [Module VolumeFacts] and [Module SessionFacts] hold the properties. *)

From Stdlib Require Import ZArith QArith Qround Lqa Ascii String DecimalString List Lia Bool
  Arith.
From stdpp Require Import base option list gmap strings.
From Equations Require Import Equations.

Open Scope string_scope.

(** ** Values shared by both modules *)

(** A thrown JavaScript [Error]; only [error.message] is ever inspected. *)
Record Error := mkError { message : option string }.

(** How a call completes: it returns a value or throws. *)
Inductive Outcome (A : Type) :=
| Ok (a : A)
| Throw (e : Error).
Arguments Ok {A} a.
Arguments Throw {A} e.

(** [new Error(msg)] *)
Definition newError (msg : string) : Error := mkError (Some msg).

(** JavaScript truthiness of a string: only the empty string is falsy. *)
Definition truthy (s : string) : bool :=
  match s with EmptyString => false | String _ _ => true end.

(** [x || d] on an optional string. *)
Definition strOr (x : option string) (d : string) : string :=
  match x with
  | Some s => if truthy s then s else d
  | None => d
  end.

(** [x || d] on an optional number: [undefined] and [0] are falsy. *)
Definition numOr (x : option Z) (d : Z) : Z :=
  match x with
  | Some n => if Z.eqb n 0 then d else n
  | None => d
  end.

Module Buy.

(** *** Data model *)

(** A transaction blob, base58 or base64 text. *)
Definition Tx := string.

(** [interface BuyBundle { transactions: string[] }].  The runtime checks
    [!bundle.transactions || !Array.isArray(bundle.transactions)] show that
    the field may be absent or not an array: that is [None]. *)
Record BuyBundle := mkBundle { transactions : option (list Tx) }.

Definition MAX_BUNDLES_PER_SECOND : nat := 10.
Definition MAX_TRANSACTIONS_PER_BUNDLE : nat := 5.

(** [{ transactions: txs }] *)
Definition bundleOf (txs : list Tx) : BuyBundle := mkBundle (Some txs).

(** [bundle.transactions] read where the code takes it to be an array. *)
Definition txsOf (b : BuyBundle) : list Tx := default [] (transactions b).

(** [Array.prototype.slice(i, j)] for [0 <= i <= j]. *)
Definition slice {A} (l : list A) (i j : nat) : list A := take (j - i) (drop i l).

(** *** splitLargeBundles *)

(** The inner loop
    [for (let i = 0; i < txs.length; i += MAX) result.push({transactions: txs.slice(i, i + MAX)})]
    started at index [i]. *)
Equations? chunkLoop (txs : list Tx) (i : nat) (acc : list BuyBundle)
  : list BuyBundle by wf (length txs - i) lt :=
  chunkLoop txs i acc with decide (i < length txs) => {
    | left _ :=
        chunkLoop txs (i + MAX_TRANSACTIONS_PER_BUNDLE)
          (acc ++ [bundleOf (slice txs i (i + MAX_TRANSACTIONS_PER_BUNDLE))]);
    | right _ := acc }.
Proof. unfold MAX_TRANSACTIONS_PER_BUNDLE. lia. Qed.

(** One iteration of [for (const bundle of bundles)] on the accumulator
    [result]. *)
Definition splitStep (acc : list BuyBundle) (bundle : BuyBundle) : list BuyBundle :=
  match transactions bundle with
  | None => acc
  | Some txs =>
      if decide (length txs <= MAX_TRANSACTIONS_PER_BUNDLE)
      then acc ++ [bundle]
      else chunkLoop txs 0 acc
  end.

Definition splitLargeBundles (bundles : list BuyBundle) : list BuyBundle :=
  foldl splitStep [] bundles.

(** *** Collaborators *)

Record WalletBuy := mkWallet { address : string; privateKey : string }.

(** [Keypair] of @solana/web3.js, with keys in base58 text. *)
Record Keypair := mkKeypair { publicKey : string; secretKey : string }.

#[global] Instance Keypair_eq_dec : EqDecision Keypair.
Proof. solve_decision. Defined.

(** A deserialized [VersionedTransaction]: the account list the signer
    inspects, and the rest of the message. *)
Record Transaction := mkTransaction {
  staticAccountKeys : list string;
  payload : string }.

(** [interface BuyConfig].  Amounts are carried as integers (the dispatch
    code only forwards them to the builder service). *)
Record BuyConfig := mkBuyConfig {
  tokenAddress : string;
  protocol : string;
  solAmount : Z;
  amounts : option (list Z);
  slippageBps : option Z;
  jitoTipLamports : option Z;
  bundleMode : option string;
  batchDelay : option Z;
  singleDelay : option Z }.

(** [interface BundleResult] *)
Record BundleResult := mkBundleResult {
  jsonrpc : string;
  id : Z;
  rpc_result : option string;
  rpc_error : option (Z * string) }.

(** [interface BuyResult]; [result] is [undefined] on the early returns. *)
Record BuyResult := mkBuyResult {
  success : bool;
  result : option (list (option BundleResult));
  error : option string }.

(** One element of [data.bundles]: a plain array or an object. *)
Inductive JBundle :=
| JArray (txs : list Tx)
| JObject (b : BuyBundle).

(** The JSON body answered by [POST /api/tokens/buy]. *)
Inductive BuyData :=
| DataArray (txs : list Tx)
| DataObject (d_success : bool) (d_error : option string)
    (d_bundles : option (list JBundle))
    (d_transactions : option (list Tx))
    (d_data_transactions : option (list Tx)).

Record BuyResponse := mkBuyResponse {
  ok : bool;
  status : nat;
  json : Outcome BuyData }.

(** The JSON body answered by [POST /api/transactions/send]:
    [{success, result?, error?, details?}]. *)
Record SendData := mkSendData {
  s_success : bool;
  s_result : option BundleResult;
  s_error : option string;
  s_details : option string }.

(** What the engine does to its collaborators, recorded as it happens. *)
Inductive Event :=
| EvPrepare (walletAddresses : list string)   (* getPartiallyPreparedTransactions(...) is called *)
| EvBlockhash                                 (* createDeveloperBuyFeeTransaction(...) is called *)
| EvRateLimit                                 (* checkRateLimit() is called *)
| EvSend (txs : list Tx)                      (* sendBundle(txs) is called *)
| EvDelay (ms : Z).                           (* await new Promise(r => setTimeout(r, ms)) *)

(** The remote services and the library calls the engine relies on.  A
    network answer may depend on everything issued so far, hence the
    [list Event] argument (most recent event first). *)
Record Env := mkEnv {
  tradingServerUrl : option string;
  fetchBuy : list Event -> list string -> BuyConfig -> Outcome BuyResponse;
  fetchSend : list Event -> list Tx -> Outcome (Outcome SendData);
  keypairFromSecretKey : string -> Outcome Keypair;
  deserialize : Tx -> Outcome Transaction;
  signAndSerialize : Transaction -> list Keypair -> Outcome Tx;
  buildFeeTransaction : list Event -> Keypair -> Outcome Tx }.

(** *** The effect monad *)

(** [trace] is kept most recent first; [results] is the array
    [let results: BundleResult[] = []] of the running mode. *)
Record World := mkWorld {
  trace : list Event;
  results : list (option BundleResult) }.

Definition M (A : Type) : Type := World -> Outcome A * World.

Definition ret {A} (a : A) : M A := fun w => (Ok a, w).

Definition throw {A} (e : Error) : M A := fun w => (Throw e, w).

Definition bind {A B} (m : M A) (k : A -> M B) : M B :=
  fun w =>
    match m w with
    | (Ok a, w') => k a w'
    | (Throw e, w') => (Throw e, w')
    end.

(** [try { m } catch (error) { h error }] *)
Definition tryCatch {A} (m : M A) (h : Error -> M A) : M A :=
  fun w =>
    match m w with
    | (Ok a, w') => (Ok a, w')
    | (Throw e, w') => h e w'
    end.

Definition lift {A} (o : Outcome A) : M A := fun w => (o, w).

Definition emit (e : Event) : M unit :=
  fun w => (Ok tt, mkWorld (e :: trace w) (results w)).

Definition getTrace : M (list Event) := fun w => (Ok (trace w), w).

Declare Scope buy_scope.
Delimit Scope buy_scope with buy.
Notation "'let*' x ':=' m 'in' k" := (bind m (fun x => k))
  (at level 10, x pattern, m at level 100, k at level 200) : buy_scope.
Notation "m ';;' k" := (bind m (fun _ => k))
  (at level 100, k at level 200, right associativity) : buy_scope.
Open Scope buy_scope.

(** [await Promise.all(ms)] where every promise was already started: all
    of them run, and the first rejection (in array order) is the one
    rethrown. *)
Fixpoint promiseAll {A} (ms : list (M A)) : M (list A) :=
  match ms with
  | [] => ret []
  | m :: rest => fun w =>
      match m w with
      | (r, w1) =>
          match promiseAll rest w1 with
          | (rs, w2) =>
              (match r, rs with
               | Throw e, _ => Throw e
               | Ok _, Throw e => Throw e
               | Ok a, Ok l => Ok (a :: l)
               end, w2)
          end
      end
  end.

(** *** Dispatch code *)

Definition batchSize : nat := 5.

(** Batch mode's
    [for (let i = 0; i < wallets.length; i += batchSize) batches.push(wallets.slice(i, i + batchSize))]
    started at index [i]. *)
Equations? batchLoop (wallets : list WalletBuy) (i : nat) (batches : list (list WalletBuy))
  : list (list WalletBuy) by wf (length wallets - i) lt :=
  batchLoop wallets i batches with decide (i < length wallets) => {
    | left _ :=
        batchLoop wallets (i + batchSize) (batches ++ [slice wallets i (i + batchSize)]);
    | right _ := batches }.
Proof. unfold batchSize. lia. Qed.

(** What one staggered submission of all-in-one mode resolves to:
    [{ success: true, result }] or [{ success: false, error }]. *)
Inductive Settled :=
| SentOk (r : option BundleResult)
| SentFailed (e : Error).

Section Dispatch.

Variable env : Env.

(** [s.replace(/\/+$/, '')] *)
Fixpoint stripTrailingSlashes (s : string) : string :=
  match s with
  | EmptyString => EmptyString
  | String c rest =>
      match stripTrailingSlashes rest with
      | EmptyString => if Ascii.eqb c "/"%char then EmptyString else String c EmptyString
      | r => String c r
      end
  end.

(** [(window as any).tradingServerUrl?.replace(/\/+$/, '') || ''] *)
Definition baseUrl : string :=
  match tradingServerUrl env with
  | Some u => stripTrailingSlashes u
  | None => EmptyString
  end.

Definition urlNotConfigured : Error :=
  newError "Trading server URL not configured. Please check your server connection.".

(** Decimal rendering of a number inside a template literal. *)
Definition showNat (n : nat) : string := NilZero.string_of_uint (Nat.to_uint n).

(** [await new Promise(resolve => setTimeout(resolve, ms))] *)
Definition delay (ms : Z) : M unit := emit (EvDelay ms).

(** [checkRateLimit()]: recorded as a call; the limiter's clock arithmetic
    plays no part in what is sent. *)
Definition checkRateLimit : M unit := emit EvRateLimit.

(** [results.push(r)] *)
Definition pushResult (r : option BundleResult) : M unit :=
  fun w => (Ok tt, mkWorld (trace w) (results w ++ [r])).

(** [let results: BundleResult[] = []] *)
Definition resetResults : M unit :=
  fun w => (Ok tt, mkWorld (trace w) []).

Definition getResults : M (list (option BundleResult)) :=
  fun w => (Ok (results w), w).

(** [createDeveloperBuyFeeTransaction]: everything sits in one [try] whose
    [catch] returns [null]. *)
Definition createDeveloperBuyFeeTransaction (payerKeypair : Keypair) : M (option Tx) :=
  tryCatch
    (emit EvBlockhash;;
     let* h := getTrace in
     let* tx := lift (buildFeeTransaction env h payerKeypair) in
     ret (Some tx))
    (fun _ => ret None).

(** [sendBundle]: the JSON body is read and [data.result] returned; neither
    [response.ok] nor [data.success] is looked at. *)
Definition sendBundle (encodedBundle : list Tx) : M (option BundleResult) :=
  emit (EvSend encodedBundle);;
  if truthy baseUrl then
    let* h := getTrace in
    let* response := lift (fetchSend env h encodedBundle) in
    let* data := lift response in
    ret (s_result data)
  else throw urlNotConfigured.

(** The normalisation of one entry of [data.bundles]. *)
Definition wrapBundle (b : JBundle) : BuyBundle :=
  match b with
  | JArray txs => bundleOf txs
  | JObject o => o
  end.

(** [getPartiallyPreparedTransactions] (the request body is the oracle's
    business). *)
Definition getPartiallyPreparedTransactions
    (walletAddresses : list string) (config : BuyConfig) : M (list BuyBundle) :=
  emit (EvPrepare walletAddresses);;
  if truthy baseUrl then
    let* h := getTrace in
    let* response := lift (fetchBuy env h walletAddresses config) in
    if ok response then
      let* data := lift (json response) in
      match data with
      | DataArray _ =>
          (* [data.success] is undefined on an array *)
          throw (newError "Failed to get partially prepared transactions")
      | DataObject d_success d_error d_bundles d_transactions d_data_transactions =>
          if d_success then
            match d_bundles, d_transactions, d_data_transactions with
            | Some bs, _, _ => ret (map wrapBundle bs)
            | None, Some txs, _ => ret [bundleOf txs]
            | None, None, Some txs => ret [bundleOf txs]
            | None, None, None => throw (newError "No transactions returned from backend")
            end
          else throw (newError (strOr d_error "Failed to get partially prepared transactions"))
      end
    else throw (newError ("HTTP error! Status: " ++ showNat (status response)))
  else throw urlNotConfigured.

(** The loop over [transaction.message.staticAccountKeys] collecting the
    signers: the first keypair with that public key, unless already there. *)
Fixpoint requiredSigners (keys : list string) (walletKeypairs signers : list Keypair)
  : list Keypair :=
  match keys with
  | [] => signers
  | pubkeyStr :: rest =>
      match find (fun kp => String.eqb (publicKey kp) pubkeyStr) walletKeypairs with
      | Some matchingKeypair =>
          if decide (matchingKeypair ∈ signers)
          then requiredSigners rest walletKeypairs signers
          else requiredSigners rest walletKeypairs (signers ++ [matchingKeypair])
      | None => requiredSigners rest walletKeypairs signers
      end
  end.

(** The callback of [bundle.transactions.map(...)]. *)
Definition signTransaction (walletKeypairs : list Keypair) (txBase58 : Tx) : Outcome Tx :=
  match deserialize env txBase58 with
  | Ok transaction =>
      signAndSerialize env transaction
        (requiredSigners (staticAccountKeys transaction) walletKeypairs [])
  | Throw e => Throw e
  end.

(** [array.map(f)] with a callback that may throw. *)
Fixpoint mapOutcome {A B} (f : A -> Outcome B) (l : list A) : Outcome (list B) :=
  match l with
  | [] => Ok []
  | x :: rest =>
      match f x with
      | Ok y =>
          match mapOutcome f rest with
          | Ok ys => Ok (y :: ys)
          | Throw e => Throw e
          end
      | Throw e => Throw e
      end
  end.

Definition feeProtocol (protocol : string) : bool :=
  String.eqb protocol "pumpfun" || String.eqb protocol "bonk".

(** [completeBundleSigning], with the fee builder as a parameter so that
    the [try]/[catch] around its call is exercised. *)
Definition completeBundleSigningWith (createFee : Keypair -> M (option Tx))
    (bundle : BuyBundle) (walletKeypairs : list Keypair) (protocol : string)
  : M BuyBundle :=
  match transactions bundle with
  | None => ret (bundleOf [])
  | Some txs =>
      let* signedTransactions := lift (mapOutcome (signTransaction walletKeypairs) txs) in
      match walletKeypairs with
      | payer :: _ =>
          if feeProtocol protocol then
            tryCatch
              (let* feeTransaction := createFee payer in
               match feeTransaction with
               | Some fee =>
                   if truthy fee
                   then ret (bundleOf (fee :: signedTransactions))
                   else ret (bundleOf signedTransactions)
               | None => ret (bundleOf signedTransactions)
               end)
              (fun _ => ret (bundleOf signedTransactions))
          else ret (bundleOf signedTransactions)
      | [] => ret (bundleOf signedTransactions)
      end
  end.

Definition completeBundleSigning := completeBundleSigningWith createDeveloperBuyFeeTransaction.

(** The body of both sending loops:
    [if (bundle.transactions.length > 0) { await checkRateLimit(); results.push(await sendBundle(...)) }] *)
Definition sendSigned (bundle : BuyBundle) : M unit :=
  if (0 <? length (txsOf bundle))%nat then
    checkRateLimit;;
    let* r := sendBundle (txsOf bundle) in
    pushResult r
  else ret tt.

Fixpoint sendEach (signedBundles : list BuyBundle) : M unit :=
  match signedBundles with
  | [] => ret tt
  | bundle :: rest => sendSigned bundle;; sendEach rest
  end.

(** Single mode, [for (const bundle of partiallyPreparedBundles)]: sign,
    then send, one bundle after the other. *)
Fixpoint signAndSendEach (bundles : list BuyBundle) (walletKeypair : Keypair)
    (protocol : string) : M unit :=
  match bundles with
  | [] => ret tt
  | bundle :: rest =>
      let* signedBundle := completeBundleSigning bundle [walletKeypair] protocol in
      sendSigned signedBundle;;
      signAndSendEach rest walletKeypair protocol
  end.

(** The counters [successfulWallets]/[failedWallets] (and their batch and
    all-in-one namesakes). *)
Record Tally := mkTally { succeeded : nat; failed : nat }.

Definition oneMoreSuccess (t : Tally) : Tally := mkTally (S (succeeded t)) (failed t).
Definition oneMoreFailure (t : Tally) : Tally := mkTally (succeeded t) (S (failed t)).

(** The [try] block of single mode for wallet number [i] of [n]; [false] is
    the [continue] taken when no bundle came back. *)
Definition singleWalletTry (config : BuyConfig) (wallet : WalletBuy) (i n : nat) : M bool :=
  let* partiallyPreparedBundles :=
    getPartiallyPreparedTransactions [address wallet] config in
  if (length partiallyPreparedBundles =? 0)%nat then ret false
  else
    let* walletKeypair := lift (keypairFromSecretKey env (privateKey wallet)) in
    signAndSendEach partiallyPreparedBundles walletKeypair (protocol config);;
    (* successfulWallets++ happens here; the delay cannot throw *)
    (if (S i <? n)%nat then delay (numOr (singleDelay config) 200) else ret tt);;
    ret true.

(** One iteration of a mode's [for] loop around its [try] block. *)
Definition countUnit (tryBlock : M bool) (t : Tally) : M Tally :=
  tryCatch
    (let* completed := tryBlock in
     ret (if completed then oneMoreSuccess t else oneMoreFailure t))
    (fun _ => ret (oneMoreFailure t)).

(** The [for (let i = ...; i < n; i++) { try { ... } catch { ... } }] loop
    that single and batch mode share, over the units still to process. *)
Fixpoint countLoop {U} (tryBlock : U -> nat -> nat -> M bool) (units : list U) (i n : nat)
    (t : Tally) : M Tally :=
  match units with
  | [] => ret t
  | u :: rest =>
      let* t' := countUnit (tryBlock u i n) t in
      countLoop tryBlock rest (S i) n t'
  end.

(** The summary returned by each mode. *)
Definition summary (unit : string) (t : Tally) (rs : list (option BundleResult)) : BuyResult :=
  mkBuyResult (0 <? succeeded t)%nat (Some rs)
    (if (0 <? failed t)%nat
     then Some (showNat (failed t) ++ " " ++ unit ++ " failed, "
                ++ showNat (succeeded t) ++ " succeeded")
     else None).

Definition executeBuySingleMode (wallets : list WalletBuy) (config : BuyConfig) : M BuyResult :=
  resetResults;;
  let* t := countLoop (singleWalletTry config) wallets 0 (length wallets) (mkTally 0 0) in
  let* rs := getResults in
  ret (summary "wallets" t rs).

(** The [try] block of batch mode for batch number [i] of [n]. *)
Definition batchTry (config : BuyConfig) (batch : list WalletBuy) (i n : nat) : M bool :=
  let walletAddresses := map address batch in
  let* partiallyPreparedBundles :=
    getPartiallyPreparedTransactions walletAddresses config in
  if (length partiallyPreparedBundles =? 0)%nat then ret false
  else
    let* walletKeypairs :=
      lift (mapOutcome (fun wallet => keypairFromSecretKey env (privateKey wallet)) batch) in
    let splitBundles := splitLargeBundles partiallyPreparedBundles in
    let* signedBundles :=
      promiseAll (map (fun bundle =>
        completeBundleSigning bundle walletKeypairs (protocol config)) splitBundles) in
    sendEach signedBundles;;
    (* successfulBatches++ happens here; the delay cannot throw *)
    (if (S i <? n)%nat then delay (numOr (batchDelay config) 1000) else ret tt);;
    ret true.

Definition executeBuyBatchMode (wallets : list WalletBuy) (config : BuyConfig) : M BuyResult :=
  resetResults;;
  let batches := batchLoop wallets 0 [] in
  let* t := countLoop (batchTry config) batches 0 (length batches) (mkTally 0 0) in
  let* rs := getResults in
  ret (summary "batches" t rs).

(** All-in-one mode's [validSignedBundles.map(async (bundle, index) => ...)]
    followed by [Promise.allSettled]: submission [index] waits [index * 100]
    milliseconds, so the submissions are issued in array order; no
    [checkRateLimit] is called on this path. *)
Fixpoint sendStaggered (bundles : list BuyBundle) (index : nat) : M (list Settled) :=
  match bundles with
  | [] => ret []
  | bundle :: rest =>
      delay (Z.of_nat index * 100);;
      let* s := tryCatch
                  (let* r := sendBundle (txsOf bundle) in ret (SentOk r))
                  (fun e => ret (SentFailed e)) in
      let* ss := sendStaggered rest (S index) in
      ret (s :: ss)
  end.

(** The callback of [bundleResults.forEach]. *)
Definition tallySettled (acc : list (option BundleResult) * Tally) (s : Settled)
  : list (option BundleResult) * Tally :=
  match s with
  | SentOk (Some r) => ((fst acc ++ [Some r])%list, oneMoreSuccess (snd acc))
  | SentOk None => (fst acc, oneMoreSuccess (snd acc))
  | SentFailed _ => (fst acc, oneMoreFailure (snd acc))
  end.

Definition executeBuyAllInOneMode (wallets : list WalletBuy) (config : BuyConfig)
  : M BuyResult :=
  let walletAddresses := map address wallets in
  let* partiallyPreparedBundles :=
    getPartiallyPreparedTransactions walletAddresses config in
  if (length partiallyPreparedBundles =? 0)%nat
  then ret (mkBuyResult false None (Some "No transactions generated."))
  else
    let* walletKeypairs :=
      lift (mapOutcome (fun wallet => keypairFromSecretKey env (privateKey wallet)) wallets) in
    let splitBundles := splitLargeBundles partiallyPreparedBundles in
    let* signedBundles :=
      promiseAll (map (fun bundle =>
        completeBundleSigning bundle walletKeypairs (protocol config)) splitBundles) in
    let validSignedBundles :=
      filter (fun bundle => 0 < length (txsOf bundle)) signedBundles in
    if (length validSignedBundles =? 0)%nat
    then ret (mkBuyResult false None (Some "Failed to sign any transactions"))
    else
      let* bundleResults := sendStaggered validSignedBundles 0 in
      let '(rs, t) := foldl tallySettled ([], mkTally 0 0) bundleResults in
      ret (summary "bundles" t rs).

(** [executeBuy]: the mode switch inside the outer [try]/[catch]. *)
Definition executeBuy (wallets : list WalletBuy) (config : BuyConfig) : M BuyResult :=
  tryCatch
    (let mode := strOr (bundleMode config) "batch" in
     if String.eqb mode "single" then executeBuySingleMode wallets config
     else if String.eqb mode "batch" then executeBuyBatchMode wallets config
     else if String.eqb mode "all-in-one" then executeBuyAllInOneMode wallets config
     else throw (newError ("Invalid bundle mode: " ++ mode
                           ++ ". Must be 'single', 'batch', or 'all-in-one'")))
    (fun e => ret (mkBuyResult false None (message e))).

End Dispatch.

(** The world a dispatch call starts from. *)
Definition freshWorld : World := mkWorld [] [].

(** The events of a world in the order they were issued. *)
Definition history (w : World) : list Event := rev (trace w).

Definition observe {X} (f : Event -> option X) (w : World) : list X :=
  omap f (history w).

Definition isSend (e : Event) : option (list Tx) :=
  match e with EvSend txs => Some txs | _ => None end.
Definition isPrepare (e : Event) : option (list string) :=
  match e with EvPrepare a => Some a | _ => None end.
Definition isDelay (e : Event) : option Z :=
  match e with EvDelay ms => Some ms | _ => None end.

(** The bundles handed to [sendBundle], oldest first. *)
Definition sentBundles : World -> list (list Tx) := observe isSend.

(** The address lists handed to the preparation client, oldest first. *)
Definition prepareCalls : World -> list (list string) := observe isPrepare.

(** The deliberate waits, oldest first. *)
Definition delays : World -> list Z := observe isDelay.

(** Whether a [try] block ran to its end, rather than being left by
    [continue] or by an exception. *)
Definition ranToEnd (r : Outcome bool) : bool :=
  match r with
  | Ok true => true
  | _ => false
  end.

(** For each unit of a [countLoop], in order, whether its [try] block ran
    to its end, the units being processed one after the other. *)
Fixpoint unitOutcomes {U} (tryBlock : U -> nat -> nat -> M bool) (units : list U)
    (i n : nat) (w : World) : list bool :=
  match units with
  | [] => []
  | u :: rest =>
      ranToEnd (fst (tryBlock u i n w))
      :: unitOutcomes tryBlock rest (S i) n (snd (tryBlock u i n w))
  end.

(** How many entries of [l] are [v]. *)
Fixpoint count (v : bool) (l : list bool) : nat :=
  match l with
  | [] => 0
  | b :: rest => (if Bool.eqb b v then 1 else 0) + count v rest
  end.

Definition isRateLimit (e : Event) : option unit :=
  match e with EvRateLimit => Some tt | _ => None end.

(** The calls of [checkRateLimit], oldest first. *)
Definition rateLimitCalls : World -> list unit := observe isRateLimit.

(** The rate limiter and the relay client seen together: [true] for a call
    of [checkRateLimit], [false] for a call of [sendBundle]. *)
Definition gateView (e : Event) : option bool :=
  match e with
  | EvRateLimit => Some true
  | EvSend _ => Some false
  | _ => None
  end.

(** [k] times: one rate-limiter call, then one relay call. *)
Fixpoint gatedSends (k : nat) : list bool :=
  match k with
  | 0 => []
  | S k' => true :: false :: gatedSends k'
  end.

(** Whether a staggered submission resolved to [{ success: true, ... }]. *)
Definition isSentOk (s : Settled) : bool :=
  match s with
  | SentOk _ => true
  | SentFailed _ => false
  end.

(** The relay result a submission contributes to [results], if any. *)
Definition definedResult (s : Settled) : option (option BundleResult) :=
  match s with
  | SentOk (Some r) => Some (Some r)
  | _ => None
  end.

(** *** validateBuyInputs and createBuyConfig *)

(** [{ valid: boolean; error?: string }] *)
Record Validation := mkValidation { valid : bool; verror : option string }.

Definition invalid (msg : string) : Validation := mkValidation false (Some msg).

Definition supportedProtocols : list string :=
  ["pumpfun"; "moonshot"; "launchpad"; "raydium"; "pumpswap"; "auto"; "boopfun"; "auto"].

(** [array.includes(s)] on strings. *)
Definition includesStr (l : list string) (s : string) : bool :=
  existsb (String.eqb s) l.

(** An entry of the [wallets] array: the identity of the object in that slot
    and its fields.  [wallets.indexOf(wallet)] compares identities. *)
Definition WalletSlot : Type := nat * WalletBuy.

Fixpoint indexOf (wallets : list WalletSlot) (ref : nat) : option nat :=
  match wallets with
  | [] => None
  | (r, _) :: rest =>
      if (r =? ref)%nat then Some 0 else S <$> indexOf rest ref
  end.

(** The [for (const amount of config.amounts)] loop: the first amount that
    is not positive stops it. *)
Definition allPositive (amounts : list Z) : bool := forallb (fun a => (0 <? a)%Z) amounts.

(** The [for (const wallet of wallets)] loop over the wallets still to
    check; [None] when it runs to its end. *)
Fixpoint checkWallets (wallets rest : list WalletSlot) (config : BuyConfig)
    (walletBalances : gmap string Z) : option string :=
  match rest with
  | [] => None
  | (ref, wallet) :: rest' =>
      if negb (truthy (address wallet)) || negb (truthy (privateKey wallet))
      then Some "Invalid wallet data"
      else
        let balance := default 0%Z (walletBalances !! address wallet) in
        let tooLow :=
          match amounts config with
          | Some custom =>
              match indexOf wallets ref ≫= (fun i => custom !! i) with
              | Some requiredAmount => (balance <? requiredAmount)%Z
              | None => false     (* a comparison with [undefined] is false *)
              end
          | None => (balance <? solAmount config)%Z
          end in
        if tooLow
        then Some ("Wallet " ++ String.substring 0 6 (address wallet)
                   ++ "... has insufficient balance")
        else checkWallets wallets rest' config walletBalances
  end.

(** The checks on [config.amounts]. *)
Definition checkAmounts (wallets : list WalletSlot) (config : BuyConfig) : option string :=
  match amounts config with
  | Some custom =>
      if negb (length custom =? length wallets)%nat
      then Some "Custom amounts array length must match wallets array length"
      else if negb (allPositive custom)
      then Some "All custom amounts must be positive numbers"
      else None
  | None => None
  end.

(** [validateBuyInputs] (the numbers of a [BuyConfig] being integers, the
    [isNaN] tests are false and left out). *)
Definition validateBuyInputs (wallets : list WalletSlot) (config : BuyConfig)
    (walletBalances : gmap string Z) : Validation :=
  if negb (truthy (tokenAddress config)) then invalid "Invalid token address"
  else if negb (truthy (protocol config)) then invalid "Protocol is required"
  else if negb (includesStr supportedProtocols (protocol config)) then
    invalid ("Unsupported protocol: " ++ protocol config ++ ". Supported protocols: "
             ++ String.concat ", " supportedProtocols)
  else if (solAmount config <=? 0)%Z then invalid "Invalid SOL amount"
  else
    match checkAmounts wallets config with
    | Some msg => invalid msg
    | None =>
        if match slippageBps config with
           | Some sl => (sl <? 0)%Z
           | None => false
           end
        then invalid "Invalid slippage value"
        else if (length wallets =? 0)%nat then invalid "No wallets provided"
        else
          match checkWallets wallets wallets config walletBalances with
          | Some msg => invalid msg
          | None => mkValidation true None
          end
    end.

(** The amount wallet number [k] has to afford, for distinct wallet
    objects: its own custom amount, or [solAmount]. *)
Definition requiredAmount (config : BuyConfig) (k : nat) : option Z :=
  match amounts config with
  | Some custom => custom !! k
  | None => Some (solAmount config)
  end.

(** The argument of [createBuyConfig]. *)
Record BuyConfigInput := mkBuyConfigInput {
  i_tokenAddress : string;
  i_protocol : option string;
  i_solAmount : Z;
  i_amounts : option (list Z);
  i_slippageBps : option Z;
  i_jitoTipLamports : option Z;
  i_bundleMode : option string;
  i_batchDelay : option Z;
  i_singleDelay : option Z }.

Definition createBuyConfig (config : BuyConfigInput) : BuyConfig :=
  mkBuyConfig (i_tokenAddress config)
    (strOr (i_protocol config) "auto")
    (i_solAmount config)
    (i_amounts config)
    (i_slippageBps config)
    (i_jitoTipLamports config)
    (Some (strOr (i_bundleMode config) "batch"))
    (i_batchDelay config)
    (i_singleDelay config).

(** A [BuyConfig] passed where the argument of [createBuyConfig] is
    expected. *)
Definition asInput (config : BuyConfig) : BuyConfigInput :=
  mkBuyConfigInput (tokenAddress config) (Some (protocol config)) (solAmount config)
    (amounts config) (slippageBps config) (jitoTipLamports config) (bundleMode config)
    (batchDelay config) (singleDelay config).

(** The message of [executeBuy]'s [default:] case. *)
Definition invalidModeMessage (mode : string) : string :=
  "Invalid bundle mode: " ++ mode ++ ". Must be 'single', 'batch', or 'all-in-one'".

End Buy.

(** ** The rate limiter of buy.ts *)

Module RateLimit.

Definition MAX_BUNDLES_PER_SECOND : nat := 10.

(** The module-level object [rateLimitState]; times are in milliseconds. *)
Record RateLimitState := mkRateLimitState {
  count : nat;
  lastReset : Z;
  maxBundlesPerSecond : nat }.

(** [rateLimitState] as the module creates it, [loadTime] being the value
    of [Date.now()] at that moment. *)
Definition initialState (loadTime : Z) : RateLimitState :=
  mkRateLimitState 0 loadTime MAX_BUNDLES_PER_SECOND.

(** One call of [checkRateLimit()] that no other call overlaps.  [now] is
    the value of [Date.now()] at entry and [resumed] its value once the
    awaited timer has fired (read only by a call that waits).  The first
    component is the delay handed to [setTimeout], if the call waits. *)
Definition checkRateLimit (now resumed : Z) (s : RateLimitState)
  : option Z * RateLimitState :=
  let s1 := if (1000 <=? now - lastReset s)%Z
            then mkRateLimitState 0 now (maxBundlesPerSecond s)
            else s in
  if (maxBundlesPerSecond s1 <=? count s1)%nat then
    let waitTime := (1000 - (now - lastReset s1))%Z in
    (Some waitTime, mkRateLimitState 1 resumed (maxBundlesPerSecond s1))
  else
    (None, mkRateLimitState (S (count s1)) (lastReset s1) (maxBundlesPerSecond s1)).

(** Successive calls, each given by its two clock readings; the delays
    waited are listed in call order. *)
Fixpoint checkRateLimits (clock : list (Z * Z)) (s : RateLimitState)
  : list (option Z) * RateLimitState :=
  match clock with
  | [] => ([], s)
  | (now, resumed) :: rest =>
      let '(w, s1) := checkRateLimit now resumed s in
      let '(ws, s2) := checkRateLimits rest s1 in
      (w :: ws, s2)
  end.

End RateLimit.

Module Retry.

(** [hay.includes(needle)] *)
Fixpoint includes (needle hay : string) : bool :=
  String.prefix needle hay ||
  match hay with
  | EmptyString => false
  | String _ rest => includes needle rest
  end.

(** [error.message?.includes('fetch') || ... || error.message?.includes('timeout')] *)
Definition isNetworkError (error : Error) : bool :=
  match message error with
  | Some m =>
      includes "fetch" m || includes "network" m
      || includes "ECONNREFUSED" m || includes "timeout" m
  | None => false
  end.

(** [Math.min(1000 * Math.pow(2, attempt - 1), 5000)] *)
Definition backoff (attempt : nat) : Z :=
  Z.min (1000 * 2 ^ (Z.of_nat attempt - 1)) 5000.

(** How [executeWithRetry] completes; [lastError] is [undefined] ([None])
    when the loop body never ran. *)
Inductive Completion (T : Type) :=
| Returned (value : T)
| Thrown (lastError : option Error).
Arguments Returned {T} value.
Arguments Thrown {T} lastError.

(** The [for (let attempt = 1; attempt <= maxRetries; attempt++)] loop,
    entered at [attempt].  [operation k] is how the [k]-th call of
    [operation()] completes; [waits] are the backoff delays slept so far,
    oldest first. *)
Equations? retryLoop {T} (operation : nat -> Outcome T) (maxRetries attempt : nat)
    (lastError : option Error) (waits : list Z)
  : Completion T * list Z by wf (S maxRetries - attempt) lt :=
  retryLoop operation maxRetries attempt lastError waits
    with decide (attempt <= maxRetries) => {
    | right _ := (Thrown lastError, waits);
    | left _ with operation attempt => {
        | Ok r := (Returned r, waits);
        | Throw error with (attempt =? maxRetries)%nat || negb (isNetworkError error) => {
            | true := (Thrown (Some error), waits);
            | false :=
                retryLoop operation maxRetries (S attempt) (Some error)
                  (waits ++ [backoff attempt]) } } }.
Proof. lia. Qed.

Definition executeWithRetry {T} (operation : nat -> Outcome T) (maxRetries : nat)
  : Completion T * list Z :=
  retryLoop operation maxRetries 1 None [].

(** The default of the parameter [maxRetries: number = 3]. *)
Definition defaultMaxRetries : nat := 3.

End Retry.

Module Volume.

(** *** Data model (types/volume.ts) *)

(** [interface VolumeConfig].  The two amount bounds are numbers of SOL of
    any value (the form reads them with [parseFloat]); intervals are whole
    seconds and [duration] whole minutes (read with [parseInt]). *)
Record VolumeConfig := mkConfig {
  tokenAddress : string;
  wallets : list string;
  minAmount : Q;
  maxAmount : Q;
  intervalMin : option Z;
  intervalMax : option Z;
  interval : Z;
  duration : Z;
  slippage : option Z;
  sellPercent : option Z;
  protocol : option string }.

(** The six counters of the object [VolumeBot.stats] is initialised to;
    [totalVolume] is counted in ten-thousandths of a SOL, the grain of the
    amounts [generateRandomAmount] returns (the code adds these amounts as
    doubles, the count adds them exactly). *)
Record VolumeStats := mkStats {
  totalTrades : nat;
  totalVolume : Z;
  successfulTrades : nat;
  failedTrades : nat;
  totalBuys : nat;
  totalSells : nat }.

Definition zeroStats : VolumeStats := mkStats 0 0 0 0 0 0.

Inductive TradeType := buy | sell.

(** *** The JavaScript runtime the scheduler lives in *)

(** The callbacks [startTradingLoop] hands to [setTimeout]/[setInterval]. *)
Inductive Callback :=
| CbSmartTrade   (* executeSmartTrade *)
| CbRearm        (* the arrow function given to the first setInterval *)
| CbStop.        (* () => { this.stop() } *)

Record Timer := mkTimer {
  callback : Callback;
  timeout : Z;          (* milliseconds *)
  repeats : bool }.     (* setInterval rather than setTimeout *)

(** A trade suspended at one of its [await]s. *)
Inductive Suspended :=
| AwaitWallet (direction : TradeType) (selected : bool)
    (* at [await this.selectSingleRandomWallet()]; [false] when it resolves to null *)
| AwaitDispatch (direction : TradeType) (amount : Z).
    (* at [await this.executeWithRetry(...)] *)

(** The fields of [class VolumeBot]; [stats] is a reference into the
    object store. *)
Record VolumeBot := mkBot {
  config : option VolumeConfig;
  stats : nat;
  intervalId : option nat;
  isRunning : bool;
  lastUsedWalletIndex : Z;
  lastTradeType : option TradeType }.

Record State := mkState {
  bot : VolumeBot;
  store : gmap nat VolumeStats;     (* objects holding statistics *)
  timers : gmap nat Timer;          (* timers armed and not yet cleared *)
  nextTimer : nat;                  (* the next timer id handed out *)
  inflight : list Suspended;        (* trades waiting on a promise *)
  tradingServerUrl : option string  (* window.tradingServerUrl *) }.

(** [new VolumeBot()] in a fresh runtime; timer ids start at 1. *)
Definition initial (url : option string) : State :=
  mkState (mkBot None 0 None false (-1) None) {[ 0 := zeroStats ]} ∅ 1 [] url.

Definition withBot (f : VolumeBot -> VolumeBot) (s : State) : State :=
  mkState (f (bot s)) (store s) (timers s) (nextTimer s) (inflight s) (tradingServerUrl s).

Definition withStore (f : gmap nat VolumeStats -> gmap nat VolumeStats) (s : State) : State :=
  mkState (bot s) (f (store s)) (timers s) (nextTimer s) (inflight s) (tradingServerUrl s).

(** [setTimeout(cb, ms)] / [setInterval(cb, ms)]: arms a timer and returns
    its id. *)
Definition arm (cb : Callback) (ms : Z) (rep : bool) (s : State) : nat * State :=
  (nextTimer s,
   mkState (bot s) (store s) (<[nextTimer s := mkTimer cb ms rep]> (timers s))
     (S (nextTimer s)) (inflight s) (tradingServerUrl s)).

Definition setTimeout (cb : Callback) (ms : Z) (s : State) : State := snd (arm cb ms false s).

Definition setInterval (cb : Callback) (ms : Z) (s : State) : nat * State := arm cb ms true s.

(** [clearInterval(id)] *)
Definition clearInterval (id : nat) (s : State) : State :=
  mkState (bot s) (store s) (delete id (timers s)) (nextTimer s) (inflight s)
    (tradingServerUrl s).

(** Truthiness of [this.intervalId]: [null] and [0] are falsy. *)
Definition truthyId (i : option nat) : option nat :=
  match i with
  | Some 0 => None
  | Some id => Some id
  | None => None
  end.

Definition setIntervalId (i : option nat) : State -> State :=
  withBot (fun b => mkBot (config b) (stats b) i (isRunning b)
                      (lastUsedWalletIndex b) (lastTradeType b)).

(** [this.stats.f++] and friends: an in-place update of the statistics
    object. *)
Definition updateStats (f : VolumeStats -> VolumeStats) (s : State) : State :=
  withStore (alter f (stats (bot s))) s.

Definition incTotalTrades (v : VolumeStats) : VolumeStats :=
  mkStats (S (totalTrades v)) (totalVolume v) (successfulTrades v) (failedTrades v)
    (totalBuys v) (totalSells v).
Definition incSuccessful (v : VolumeStats) : VolumeStats :=
  mkStats (totalTrades v) (totalVolume v) (S (successfulTrades v)) (failedTrades v)
    (totalBuys v) (totalSells v).
Definition incFailed (v : VolumeStats) : VolumeStats :=
  mkStats (totalTrades v) (totalVolume v) (successfulTrades v) (S (failedTrades v))
    (totalBuys v) (totalSells v).
Definition incBuys (v : VolumeStats) : VolumeStats :=
  mkStats (totalTrades v) (totalVolume v) (successfulTrades v) (failedTrades v)
    (S (totalBuys v)) (totalSells v).
Definition incSells (v : VolumeStats) : VolumeStats :=
  mkStats (totalTrades v) (totalVolume v) (successfulTrades v) (failedTrades v)
    (totalBuys v) (S (totalSells v)).
Definition addVolume (a : Z) (v : VolumeStats) : VolumeStats :=
  mkStats (totalTrades v) (totalVolume v + a) (successfulTrades v) (failedTrades v)
    (totalBuys v) (totalSells v).

(** *** The public methods *)

(** [getRandomInterval()].  The floating-point product
    [Math.random() * (max - min + 1)] is computed by the runtime: [drawn] is
    the value it gave, a double and so a rational, of which [Math.floor] is
    the exact floor. *)
Definition getRandomInterval (drawn : Q) (s : State) : Z :=
  match config (bot s) with
  | None => 5000
  | Some c =>
      match intervalMin c, intervalMax c with
      | Some lo, Some hi =>
          if negb (lo =? 0)%Z && negb (hi =? 0)%Z then
            let min := (lo * 1000)%Z in
            let max := (hi * 1000)%Z in
            (Qfloor drawn + min)%Z
          else (interval c * 1000)%Z
      | _, _ => (interval c * 1000)%Z
      end
  end.

(** [startTradingLoop()]; [u] is what [getRandomInterval] is given. *)
Definition startTradingLoop (u : Q) (s : State) : State :=
  match config (bot s) with
  | None => s
  | Some c =>
      let s1 := setTimeout CbSmartTrade 500 s in
      let userInterval := getRandomInterval u s1 in
      let '(id, s2) := setInterval CbRearm userInterval s1 in
      let s3 := setIntervalId (Some id) s2 in
      if (0 <? duration c)%Z
      then setTimeout CbStop (duration c * 60 * 1000) s3
      else s3
  end.

(** [start(config)] *)
Definition start (cfg : VolumeConfig) (u : Q) (s : State) : Outcome unit * State :=
  if isRunning (bot s) then (Throw (newError "Volume bot is already running"), s)
  else if negb (truthy (default EmptyString (tradingServerUrl s))) then
    (Throw (newError
       "Trading server URL not configured. Please check your server connection in settings."),
     s)
  else
    let s1 := withBot (fun b => mkBot (Some cfg) (stats b) (intervalId b) true
                                  (lastUsedWalletIndex b) (lastTradeType b)) s in
    (Ok tt, startTradingLoop u s1).

(** [stop()] *)
Definition stop (s : State) : State :=
  let s1 := match truthyId (intervalId (bot s)) with
            | Some id => setIntervalId None (clearInterval id s)
            | None => s
            end in
  withBot (fun b => mkBot None (stats b) (intervalId b) false
                      (lastUsedWalletIndex b) (lastTradeType b)) s1.

(** [getStats()]: [{ ...this.stats }] allocates a new object holding the
    same six counters and returns a reference to it. *)
Definition getStats (s : State) : option (nat * State) :=
  match store s !! stats (bot s) with
  | Some v =>
      let l := fresh (dom (store s)) in
      Some (l, withStore (insert l v) s)
  | None => None
  end.

(** [isActive()] *)
Definition isActive (s : State) : bool := isRunning (bot s).

(** A caller holding the reference [l] assigns to a field of that object. *)
Definition mutate (l : nat) (f : VolumeStats -> VolumeStats) (s : State) : State :=
  withStore (alter f l) s.

(** *** The trading loop *)

Definition setLastUsedWalletIndex (i : Z) : State -> State :=
  withBot (fun b => mkBot (config b) (stats b) (intervalId b) (isRunning b)
                      i (lastTradeType b)).

Definition setLastTradeType (d : TradeType) : State -> State :=
  withBot (fun b => mkBot (config b) (stats b) (intervalId b) (isRunning b)
                      (lastUsedWalletIndex b) (Some d)).

Definition suspend (t : Suspended) (s : State) : State :=
  mkState (bot s) (store s) (timers s) (nextTimer s) (inflight s ++ [t])
    (tradingServerUrl s).

Definition unsuspend (k : nat) (s : State) : State :=
  mkState (bot s) (store s) (timers s) (nextTimer s) (delete k (inflight s))
    (tradingServerUrl s).

(** The [do { walletIndex = Math.floor(Math.random() * n) } while (...)]
    loop over the successive values of [Math.random()]; [None] when the
    given draws are used up before the loop ends. *)
Fixpoint drawWalletIndex (draws : list Q) (n : nat) (last : Z) : option Z :=
  match draws with
  | [] => None
  | u :: rest =>
      let walletIndex := Qfloor (u * inject_Z (Z.of_nat n)) in
      if (walletIndex =? last)%Z && (1 <? n)%nat
      then drawWalletIndex rest n last
      else Some walletIndex
  end.

(** [selectSingleRandomWallet()] up to its first [await]; the boolean tells
    whether the promise will resolve to a wallet rather than [null]. *)
Definition selectSingleRandomWallet (draws : list Q) (s : State) : option (bool * State) :=
  match config (bot s) with
  | None => Some (false, s)
  | Some c =>
      let n := length (wallets c) in
      if (n =? 0)%nat then Some (false, s)
      else
        match (if (n =? 1)%nat then Some 0%Z
               else drawWalletIndex draws n (lastUsedWalletIndex (bot s))) with
        | Some walletIndex => Some (true, setLastUsedWalletIndex walletIndex s)
        | None => None
        end
  end.

(** [executeSmartTrade()] up to the first [await] of the trade it starts;
    [uDir] is the value of [Math.random()] in [Math.random() > 0.4].  The
    trade methods catch everything themselves, so the outer [catch] of
    [executeSmartTrade] is never entered. *)
Definition executeSmartTrade (uDir : Q) (draws : list Q) (s : State) : option State :=
  match isRunning (bot s), config (bot s) with
  | true, Some _ =>
      let shouldBuy :=
        match lastTradeType (bot s) with
        | Some buy => negb (Qle_bool uDir (4 # 10))
        | _ => true
        end in
      let direction := if shouldBuy then buy else sell in
      match selectSingleRandomWallet draws s with
      | Some (selected, s1) => Some (suspend (AwaitWallet direction selected) s1)
      | None => None
      end
  | _, _ => Some s
  end.

(** A pending timer fires.  A [setTimeout] timer is gone once it fired. *)
Definition fire (id : nat) (uInterval uDir : Q) (draws : list Q) (s : State) : option State :=
  match timers s !! id with
  | None => None
  | Some t =>
      let s0 := if repeats t then s else clearInterval id s in
      match callback t with
      | CbSmartTrade => executeSmartTrade uDir draws s0
      | CbRearm =>
          let nextInterval := getRandomInterval uInterval s0 in
          match executeSmartTrade uDir draws s0 with
          | Some s1 =>
              match truthyId (intervalId (bot s1)) with
              | Some i =>
                  let '(j, s2) := setInterval CbSmartTrade nextInterval (clearInterval i s1) in
                  Some (setIntervalId (Some j) s2)
              | None => Some s1
              end
          | None => None
          end
      | CbStop => Some (stop s0)
      end
  end.

(** [generateRandomAmount()].  The floating-point expression
    [amount * 10000], with [amount = Math.random() * (max - min) + min] and
    the bounds [this.config.minAmount || 0.01] and
    [this.config.maxAmount || 0.1], is computed by the runtime: [scaled] is
    the value it gave, a double and so a rational.  [Math.round(x)] is the
    exact [floor(x + 1/2)].  The amount returned, [Math.round(scaled) / 10000],
    is given by its number [Math.round(scaled)] of ten-thousandths of a SOL;
    0.01 SOL is 100 of them. *)
Definition generateRandomAmount (scaled : Q) (s : State) : Z :=
  match config (bot s) with
  | None => 100
  | Some c => Qfloor (scaled + (1 # 2))
  end.

(** What an awaited promise of a suspended trade settles to. *)
Inductive Settlement :=
| WalletReady (u : Q)
    (* the wallet promise resolved; [u] is the value the runtime gives to the
       floating-point expression the trade evaluates next: [amount * 10000]
       in a buy, [Math.random() * 40] in a sell *)
| DispatchDone (r : Outcome bool).
    (* [executeWithRetry] resolved with [result.success], or rejected *)

(** The [catch] blocks of [executeBuyTrade]/[executeSellTrade]. *)
Definition countFailure (s : State) : State :=
  updateStats incTotalTrades (updateStats incFailed s).

(** The rest of a trade after one of its [await]s. *)
Definition resume (k : nat) (o : Settlement) (s : State) : option State :=
  match inflight s !! k, o with
  | Some (AwaitWallet direction selected), WalletReady u =>
      let s0 := unsuspend k s in
      if negb selected then Some (setLastTradeType direction s0)
      else
        match config (bot s0) with
        | None =>
            (* reading [this.config.tokenAddress] throws; caught and counted *)
            Some (setLastTradeType direction (countFailure s0))
        | Some c =>
            let amount :=
              match direction with
              | buy => generateRandomAmount u s0
              | sell => numOr (sellPercent c) (Qfloor u + 10)
              end in
            Some (suspend (AwaitDispatch direction amount) s0)
        end
  | Some (AwaitDispatch direction amount), DispatchDone r =>
      let s0 := unsuspend k s in
      let s1 :=
        match r with
        | Ok true =>
            let s' := updateStats incSuccessful s0 in
            let s'' := match direction with
                       | buy => updateStats incBuys (updateStats (addVolume amount) s')
                       | sell => updateStats incSells s'
                       end in
            updateStats incTotalTrades s''
        | Ok false => updateStats incTotalTrades (updateStats incFailed s0)
        | Throw _ => countFailure s0
        end in
      Some (setLastTradeType direction s1)
  | _, _ => None
  end.

(** *** The scheduler as a transition system *)

Inductive Action :=
| ActStart (cfg : VolumeConfig) (u : Q)
| ActStop
| ActGetStats
| ActFire (id : nat) (uInterval uDir : Q) (draws : list Q)
| ActResume (k : nat) (o : Settlement).

Definition step (a : Action) (s : State) : option State :=
  match a with
  | ActStart cfg u => Some (snd (start cfg u s))
  | ActStop => Some (stop s)
  | ActGetStats => snd <$> getStats s
  | ActFire id uInterval uDir draws => fire id uInterval uDir draws s
  | ActResume k o => resume k o s
  end.

Fixpoint run (actions : list Action) (s : State) : option State :=
  match actions with
  | [] => Some s
  | a :: rest =>
      match step a s with
      | Some s' => run rest s'
      | None => None
      end
  end.

Inductive reachable (url : option string) : State -> Prop :=
| reachable_initial : reachable url (initial url)
| reachable_step s a s' : reachable url s -> step a s = Some s' -> reachable url s'.

(** The statistics record the scheduler holds. *)
Definition currentStats (s : State) : option VolumeStats := store s !! stats (bot s).

(** The session states of the scheduler. *)
Definition Idle (s : State) : Prop := isRunning (bot s) = false.
Definition Running (s : State) : Prop := isRunning (bot s) = true.

(** *** The wallet helpers exported beside the scheduler *)

(** [interface VolumeWalletBalance] *)
Record WalletBalance := mkBalance {
  wallet : string;
  solBalance : Z;
  publicKey : string }.

(** [validateVolumeBotWallets(wallets)].  [fromSecretKey wallet] is how
    [Keypair.fromSecretKey(bs58.default.decode(wallet))] (with the two
    dynamic imports before it) completes, giving the public key as text. *)
Definition validateVolumeBotWallets (fromSecretKey : string -> Outcome string)
    (wallets : list string) : list string * list string :=
  foldl (fun '(valid, invalid) wallet =>
           match fromSecretKey wallet with
           | Ok _ => ((valid ++ [wallet])%list, invalid)
           | Throw _ => (valid, (invalid ++ [wallet])%list)
           end)
        ([], []) wallets.

(** [getVolumeBotWalletBalances(wallets)] *)
Definition getVolumeBotWalletBalances (fromSecretKey : string -> Outcome string)
    (wallets : list string) : list WalletBalance :=
  foldl (fun balances wallet =>
           match fromSecretKey wallet with
           | Ok key => (balances ++ [mkBalance ((String.substring 0 8 wallet ++ "...")%string) 0 key])%list
           | Throw _ =>
               (balances ++ [mkBalance ((String.substring 0 8 wallet ++ "...")%string) 0 "Invalid"])%list
           end)
        [] wallets.

End Volume.

(** ** The backend client (volumeBotApi.ts) *)

Module VolumeApi.

(** [VolumeConfig] and [VolumeStats] as the session-based scheduler
    exports them; amounts and times are whole numbers here. *)
Record VolumeConfig := mkConfig {
  tokenAddress : string;
  wallets : list string;
  minAmount : Z;
  maxAmount : Z;
  intervalMin : Z;
  intervalMax : Z;
  duration : Z;
  slippage : Z }.

Record VolumeStats := mkStats {
  totalVolume : Z;
  totalTrades : nat;
  successfulTrades : nat;
  failedTrades : nat;
  startTime : Z;
  isRunning : bool }.

(** What [await fetch(...)] resolved to: [response.ok], [response.status]
    and how [response.json()] settles. *)
Record Response (D : Type) := mkResponse {
  ok : bool;
  status : nat;
  json : Outcome D }.
Arguments mkResponse {D} ok status json.
Arguments ok {D} r.
Arguments status {D} r.
Arguments json {D} r.

(** The response bodies, with the fields the client reads. *)
Record VolumeStartResponse := mkStartResponse {
  start_success : bool;
  start_sessionId : option string;
  start_error : option string }.

Record VolumeStopResponse := mkStopResponse {
  stop_success : bool;
  stop_stats : option VolumeStats;
  stop_error : option string }.

Record VolumeStatusResponse := mkStatusResponse {
  status_success : bool;
  status_stats : option VolumeStats;
  status_isRunning : option bool;
  status_error : option string }.

Record VolumeTradeRequest := mkTradeRequest {
  trade_sessionId : string;
  walletPrivateKey : string;
  trade_tokenAddress : string;
  amount : Z;
  isBuy : bool;
  trade_slippage : Z }.

Record VolumeTradeResponse := mkTradeResponse {
  trade_success : bool;
  transactionId : option string;
  volume : option Z;
  trade_error : option string }.

Record ValidateData := mkValidateData {
  validate_success : bool;
  validate_error : option string;
  data_validWallets : option (list string);
  data_invalidWallets : option (list string) }.

Record WalletBalance := mkBalance {
  wallet : string;
  solBalance : Q;
  publicKey : string }.

Record BalancesData := mkBalancesData {
  balances_success : bool;
  balances_error : option string;
  data_balances : option (list WalletBalance) }.

(** The server as the client sees it: [window.tradingServerUrl] and, for
    each endpoint, what [fetch] gives for a URL and a request body. *)
Record Backend := mkBackend {
  tradingServerUrl : option string;
  fetchStart : string -> VolumeConfig -> Outcome (Response VolumeStartResponse);
  fetchStop : string -> string -> Outcome (Response VolumeStopResponse);
  fetchStatus : string -> Outcome (Response VolumeStatusResponse);
  fetchTrade : string -> VolumeTradeRequest -> Outcome (Response VolumeTradeResponse);
  fetchValidate : string -> list string -> Outcome (Response ValidateData);
  fetchBalances : string -> list string -> Outcome (Response BalancesData) }.

(** [getBaseUrl()] *)
Definition getBaseUrl (b : Backend) : string :=
  match tradingServerUrl b with
  | Some u => Buy.stripTrailingSlashes u
  | None => EmptyString
  end.

(** The statements all six functions run on what [fetch] gave: the test of
    [response.ok], [await response.json()] and the test of [data.success].
    The [catch] of the four session functions rethrows what it caught. *)
Definition checked {D} (success : D -> bool) (error : D -> option string)
    (failure : string) (fetched : Outcome (Response D)) : Outcome D :=
  match fetched with
  | Throw e => Throw e
  | Ok response =>
      if negb (ok response)
      then Throw (newError ("HTTP error! Status: " ++ Buy.showNat (status response)))
      else
        match json response with
        | Throw e => Throw e
        | Ok data =>
            if negb (success data) then Throw (newError (strOr (error data) failure))
            else Ok data
        end
  end.

Definition startVolumeBotSession (b : Backend) (config : VolumeConfig)
  : Outcome VolumeStartResponse :=
  checked start_success start_error "Failed to start volume bot session"
    (fetchStart b (getBaseUrl b ++ "/api/volume/start") config).

Definition stopVolumeBotSession (b : Backend) (sessionId : string)
  : Outcome VolumeStopResponse :=
  checked stop_success stop_error "Failed to stop volume bot session"
    (fetchStop b (getBaseUrl b ++ "/api/volume/stop") sessionId).

Definition getVolumeBotSessionStatus (b : Backend) (sessionId : string)
  : Outcome VolumeStatusResponse :=
  checked status_success status_error "Failed to get volume bot session status"
    (fetchStatus b (getBaseUrl b ++ "/api/volume/status/" ++ sessionId)).

Definition executeVolumeTrade (b : Backend) (request : VolumeTradeRequest)
  : Outcome VolumeTradeResponse :=
  checked trade_success trade_error "Failed to execute volume trade"
    (fetchTrade b (getBaseUrl b ++ "/api/volume/trade") request).

(** [error instanceof Error ? error.message : 'Unknown error']; a thrown
    value that carries no message is not an [Error]. *)
Definition messageOf (e : Error) : string := default "Unknown error" (message e).

Record ValidatedWallets := mkValidated {
  success : bool;
  validWallets : list string;
  invalidWallets : list string;
  error : option string }.

Definition validateVolumeBotWallets (b : Backend) (wallets : list string)
  : ValidatedWallets :=
  match checked validate_success validate_error "Failed to validate wallets"
          (fetchValidate b (getBaseUrl b ++ "/api/volume/validate-wallets") wallets) with
  | Ok data =>
      mkValidated true (default [] (data_validWallets data))
        (default [] (data_invalidWallets data)) None
  | Throw e => mkValidated false [] wallets (Some (messageOf e))
  end.

Record Balances := mkBalances {
  balances_ok : bool;
  balances : list WalletBalance;
  balances_message : option string }.

Definition getVolumeBotWalletBalances (b : Backend) (wallets : list string) : Balances :=
  match checked balances_success balances_error "Failed to get wallet balances"
          (fetchBalances b (getBaseUrl b ++ "/api/volume/wallet-balances") wallets) with
  | Ok data => mkBalances true (default [] (data_balances data)) None
  | Throw e => mkBalances false [] (Some (messageOf e))
  end.

End VolumeApi.

(** ** The session-based scheduler built on the backend client *)

Module SessionBot.
Import VolumeApi.

(** [toast.success(...)] and [toast.error(...)] *)
Inductive Toast :=
| ToastSuccess (msg : string)
| ToastError (msg : string).

(** The fields of the class, the interval timers of the runtime that are
    armed (ids start at 1) and the toasts shown so far, oldest first. *)
Record VolumeBot := mkBot {
  config : option VolumeConfig;
  stats : VolumeStats;
  sessionId : option string;
  statusCheckInterval : option nat;
  intervals : gset nat;
  nextInterval : nat;
  toasts : list Toast }.

Definition initial : VolumeBot :=
  mkBot None (mkStats 0 0 0 0 0 false) None None ∅ 1 [].

(** Truthiness of [this.sessionId]: [null] and the empty string are falsy. *)
Definition hasSession (s : VolumeBot) : bool :=
  truthy (default EmptyString (sessionId s)).

Definition setStats (v : VolumeStats) (s : VolumeBot) : VolumeBot :=
  mkBot (config s) v (sessionId s) (statusCheckInterval s) (intervals s) (nextInterval s)
    (toasts s).

Definition setSessionId (i : option string) (s : VolumeBot) : VolumeBot :=
  mkBot (config s) (stats s) i (statusCheckInterval s) (intervals s) (nextInterval s)
    (toasts s).

Definition toast (t : Toast) (s : VolumeBot) : VolumeBot :=
  mkBot (config s) (stats s) (sessionId s) (statusCheckInterval s) (intervals s)
    (nextInterval s) (toasts s ++ [t])%list.

(** [{ ...v, isRunning: r }], also the assignment [this.stats.isRunning = r] *)
Definition withRunning (r : bool) (v : VolumeStats) : VolumeStats :=
  mkStats (totalVolume v) (totalTrades v) (successfulTrades v) (failedTrades v)
    (startTime v) r.

(** [if (this.statusCheckInterval) { clearInterval(...); this.statusCheckInterval = null }] *)
Definition clearStatusChecking (s : VolumeBot) : VolumeBot :=
  match Volume.truthyId (statusCheckInterval s) with
  | Some id =>
      mkBot (config s) (stats s) (sessionId s) None (intervals s ∖ {[ id ]})
        (nextInterval s) (toasts s)
  | None => s
  end.

(** [startStatusChecking()] *)
Definition startStatusChecking (s : VolumeBot) : VolumeBot :=
  if negb (hasSession s) then s
  else
    mkBot (config s) (stats s) (sessionId s) (Some (nextInterval s))
      ({[ nextInterval s ]} ∪ intervals s) (S (nextInterval s)) (toasts s).

(** *** The methods, cut where they wait for the backend

    [start], [stop] and the status callback each issue one request and
    [await] its answer; other calls and callbacks of the object may run
    before the answer arrives.  Each method is therefore given in two
    parts: what it does up to its [await], and what it does once the
    request has settled. *)

(** A method suspended at its [await], with the argument of its request. *)
Inductive Pending :=
| AwaitStart (cfg : VolumeConfig)   (* start, at startVolumeBotSession(config) *)
| AwaitStop (session : string)      (* stop, at stopVolumeBotSession(this.sessionId) *)
| AwaitStatus (session : string).   (* the callback, at getVolumeBotSessionStatus(...) *)

(** [start(config)] up to its [await]. *)
Definition startCall (cfg : VolumeConfig) (s : VolumeBot) : Outcome Pending :=
  if isRunning (stats s) then Throw (newError "Volume bot is already running")
  else Ok (AwaitStart cfg).

(** The rest of [start] once [startVolumeBotSession] has settled; [now] is
    the value of [Date.now()] then. *)
Definition startSettled (settled : Outcome VolumeStartResponse) (now : Z)
    (cfg : VolumeConfig) (s : VolumeBot) : Outcome unit * VolumeBot :=
  match settled with
  | Throw e => (Throw e, s)
  | Ok response =>
      if negb (start_success response)
         || negb (truthy (default EmptyString (start_sessionId response)))
      then (Throw (newError (strOr (start_error response)
                               "Failed to start volume bot session")), s)
      else
        let s1 := mkBot (Some cfg) (mkStats 0 0 0 0 now true) (start_sessionId response)
                    (statusCheckInterval s) (intervals s) (nextInterval s) (toasts s) in
        (Ok tt, startStatusChecking (toast (ToastSuccess "Volume bot started successfully") s1))
  end.

(** [stop()] up to its [await]; [None] when it returns at once. *)
Definition stopCall (s : VolumeBot) : option Pending :=
  if negb (isRunning (stats s)) || negb (hasSession s) then None
  else Some (AwaitStop (default EmptyString (sessionId s))).

(** The rest of [stop] once [stopVolumeBotSession] has settled. *)
Definition stopSettled (settled : Outcome VolumeStopResponse) (s : VolumeBot) : VolumeBot :=
  match settled with
  | Ok response =>
      let s1 :=
        match (if stop_success response then stop_stats response else None) with
        | Some v => setStats (withRunning false v) s
        | None => setStats (withRunning false (stats s)) s
        end in
      setSessionId None (toast (ToastSuccess "Volume bot stopped") (clearStatusChecking s1))
  | Throw _ =>
      let s1 := setSessionId None (setStats (withRunning false (stats s)) s) in
      toast (ToastError "Error stopping volume bot") (clearStatusChecking s1)
  end.

(** The callback [startStatusChecking] hands to [setInterval], up to its
    [await]: without session it clears the timer and returns. *)
Definition statusCall (s : VolumeBot) : VolumeBot + Pending :=
  if negb (hasSession s) then inl (clearStatusChecking s)
  else inr (AwaitStatus (default EmptyString (sessionId s))).

(** The rest of the callback once [getVolumeBotSessionStatus] has settled. *)
Definition statusSettled (settled : Outcome VolumeStatusResponse) (s : VolumeBot)
  : VolumeBot :=
  match settled with
  | Ok response =>
      match (if status_success response then status_stats response else None) with
      | Some v =>
          if negb (default false (status_isRunning response))
          then clearStatusChecking (setSessionId None (setStats (withRunning false v) s))
          else setStats v s
      | None => s
      end
  | Throw _ => s
  end.

(** [start(config)] as one call: nothing else runs between the call and
    the settlement of its request, which the backend [b] answers. *)
Definition start (b : Backend) (now : Z) (cfg : VolumeConfig) (s : VolumeBot)
  : Outcome unit * VolumeBot :=
  match startCall cfg s with
  | Throw e => (Throw e, s)
  | Ok _ => startSettled (startVolumeBotSession b cfg) now cfg s
  end.

(** [stop()] as one call, in the same sense. *)
Definition stop (b : Backend) (s : VolumeBot) : VolumeBot :=
  match stopCall s with
  | None => s
  | Some _ => stopSettled (stopVolumeBotSession b (default EmptyString (sessionId s))) s
  end.

(** [getStats()] returns a copy of the record. *)
Definition getStats (s : VolumeBot) : VolumeStats := stats s.

(** The local checks of a wallet: [keypairOf wallet] is how
    [Keypair.fromSecretKey(new Uint8Array(JSON.parse(wallet)))] completes,
    giving the public key as text, and [getBalance key] how
    [connection.getBalance(keypair.publicKey)] does, in lamports. *)
Record Chain := mkChain {
  keypairOf : string -> Outcome string;
  getBalance : string -> Outcome Z }.

(** Whether the [try] block of [validateWalletsLocally] pushes the wallet to
    [valid]. *)
Definition funded (c : Chain) (wallet : string) : bool :=
  match keypairOf c wallet with
  | Ok key =>
      match getBalance c key with
      | Ok balance => (0 <? balance)%Z
      | Throw _ => false
      end
  | Throw _ => false
  end.

(** [validateWalletsLocally(wallets)] *)
Definition validateWalletsLocally (c : Chain) (wallets : list string)
  : list string * list string :=
  foldl (fun '(valid, invalid) wallet =>
           if funded c wallet then ((valid ++ [wallet])%list, invalid)
           else (valid, (invalid ++ [wallet])%list))
        ([], []) wallets.

(** [validateWallets(wallets)]; the API function never throws, so the
    [catch] is never entered. *)
Definition validateWallets (b : Backend) (c : Chain) (wallets : list string)
  : list string * list string :=
  let response := validateVolumeBotWallets b wallets in
  if success response then (validWallets response, invalidWallets response)
  else validateWalletsLocally c wallets.

(** [getWalletBalancesLocally(wallets)]; [LAMPORTS_PER_SOL] is 10^9. *)
Definition getWalletBalancesLocally (c : Chain) (wallets : list string)
  : list WalletBalance :=
  foldl (fun found wallet =>
           let label := (String.substring 0 8 wallet ++ "...")%string in
           match keypairOf c wallet with
           | Ok key =>
               match getBalance c key with
               | Ok balance =>
                   (found ++ [mkBalance label (inject_Z balance / inject_Z 1000000000) key])%list
               | Throw _ => (found ++ [mkBalance label 0 "Invalid"])%list
               end
           | Throw _ => (found ++ [mkBalance label 0 "Invalid"])%list
           end)
        [] wallets.

(** [getWalletBalances(wallets)] *)
Definition getWalletBalances (b : Backend) (c : Chain) (wallets : list string)
  : list WalletBalance :=
  let response := getVolumeBotWalletBalances b wallets in
  if balances_ok response then balances response
  else getWalletBalancesLocally c wallets.

(** *** The scheduler in its runtime

    The object, and the methods that wait for an answer of the backend, in
    the order in which they started to wait. *)
Record Runtime := mkRuntime {
  bot : VolumeBot;
  waiting : list Pending }.

Definition boot : Runtime := mkRuntime initial [].

Inductive Action :=
| ActStart (cfg : VolumeConfig)               (* start(config) is called *)
| ActStop                                     (* stop() is called *)
| ActTimer (id : nat)                         (* the interval timer [id] fires *)
| ActSettle (k : nat) (b : Backend) (now : Z).
    (* the request of the waiting method number [k] settles, answered as
       the backend [b] answers it; [now] is [Date.now()] at that moment *)

Definition suspend (p : Pending) (r : Runtime) : Runtime :=
  mkRuntime (bot r) (waiting r ++ [p])%list.

(** What the method suspended as [p] does once its request has settled. *)
Definition settle (p : Pending) (b : Backend) (now : Z) (s : VolumeBot) : VolumeBot :=
  match p with
  | AwaitStart cfg => snd (startSettled (startVolumeBotSession b cfg) now cfg s)
  | AwaitStop session => stopSettled (stopVolumeBotSession b session) s
  | AwaitStatus session => statusSettled (getVolumeBotSessionStatus b session) s
  end.

Definition step (a : Action) (r : Runtime) : option Runtime :=
  match a with
  | ActStart cfg =>
      match startCall cfg (bot r) with
      | Ok p => Some (suspend p r)
      | Throw _ => Some r
      end
  | ActStop =>
      match stopCall (bot r) with
      | Some p => Some (suspend p r)
      | None => Some r
      end
  | ActTimer id =>
      if decide (id ∈ intervals (bot r)) then
        match statusCall (bot r) with
        | inl s' => Some (mkRuntime s' (waiting r))
        | inr p => Some (suspend p r)
        end
      else None
  | ActSettle k b now =>
      match waiting r !! k with
      | Some p => Some (mkRuntime (settle p b now (bot r)) (delete k (waiting r)))
      | None => None
      end
  end.

Fixpoint run (actions : list Action) (r : Runtime) : option Runtime :=
  match actions with
  | [] => Some r
  | a :: rest =>
      match step a r with
      | Some r' => run rest r'
      | None => None
      end
  end.

(** Whether action [a] starts nothing while a request is waiting: with a
    request waiting, the only thing that happens is that it settles. *)
Definition waitsItsTurn (a : Action) (r : Runtime) : bool :=
  match waiting r, a with
  | [], _ => true
  | _ :: _, ActSettle _ _ _ => true
  | _ :: _, _ => false
  end.

(** A run in which no call and no callback overlaps another. *)
Fixpoint unoverlapped (actions : list Action) (r : Runtime) : bool :=
  match actions with
  | [] => true
  | a :: rest =>
      waitsItsTurn a r
      && match step a r with
         | Some r' => unoverlapped rest r'
         | None => true
         end
  end.

End SessionBot.

(** ** Concrete collaborators used to run the code on examples *)

Module Scenarios.
Import Buy.

(** A relay acknowledgement carrying a bundle id. *)
Definition relayAccepts : SendData :=
  mkSendData true (Some (mkBundleResult "2.0" 1 (Some "bundle-id") None)) None None.

(** The relay's application-level error: [success: false], no [result]. *)
Definition relayRejects : SendData :=
  mkSendData false None (Some "Bundle rejected") (Some "simulation failed").

(** The builder answering one bundle holding one transaction per address. *)
Definition oneBundle (walletAddresses : list string) : Outcome BuyResponse :=
  Ok (mkBuyResponse true 200
        (Ok (DataObject true None
               (Some [JArray (map (fun a => "tx-" ++ a) walletAddresses)]) None None))).

(** The builder answering HTTP 500. *)
Definition serverError : Outcome BuyResponse :=
  Ok (mkBuyResponse false 500 (Throw (newError "Unexpected end of JSON input"))).

(** An environment whose library calls always succeed; the builder, the
    relay and the fee builder are given. *)
Definition demoEnv
    (prepare : list Event -> list string -> Outcome BuyResponse)
    (relay : SendData) (fee : Outcome Tx) : Env :=
  mkEnv (Some "http://localhost:3000/")
    (fun h walletAddresses _ => prepare h walletAddresses)
    (fun _ _ => Ok (Ok relay))
    (fun sk => Ok (mkKeypair ("pub-" ++ sk) sk))
    (fun tx => Ok (mkTransaction ["pub-k1"] tx))
    (fun t _ => Ok ("signed-" ++ payload t))
    (fun _ _ => fee).

Definition wallet (n : string) : WalletBuy := mkWallet ("addr-" ++ n) ("k" ++ n).

Definition fiveWallets : list WalletBuy :=
  [wallet "1"; wallet "2"; wallet "3"; wallet "4"; wallet "5"].

Definition tenWallets : list WalletBuy :=
  fiveWallets ++ [wallet "6"; wallet "7"; wallet "8"; wallet "9"; wallet "10"].

Definition buyConfig (protocol : string) (mode : string) : BuyConfig :=
  mkBuyConfig "TokenMint111" protocol 100 None None None (Some mode) None None.

(** Two distinct wallet objects and the balances known for them. *)
Definition twoSlots : list WalletSlot := [(0, wallet "1"); (1, wallet "2")].

Definition twoBalances : gmap string Z := {[ "addr-1" := 100%Z; "addr-2" := 250%Z ]}.

(** The builder answering, whatever the addresses, one bundle of six
    transactions. *)
Definition sixTransactions (walletAddresses : list string) : Outcome BuyResponse :=
  Ok (mkBuyResponse true 200
        (Ok (DataObject true None None
               (Some ["t1"; "t2"; "t3"; "t4"; "t5"; "t6"]) None))).

(** A builder that fails on its first call only. *)
Definition failsFirst (h : list Event) (walletAddresses : list string) : Outcome BuyResponse :=
  if (length (prepareCalls (mkWorld h [])) =? 1)%nat then serverError
  else oneBundle walletAddresses.

(** An operation that throws a timeout twice, then returns 42. *)
Definition timeoutTwice (attempt : nat) : Outcome nat :=
  if (attempt <? 3)%nat then Throw (newError "Request timeout") else Ok 42.

(** An operation whose every call is refused for a reason that is not a
    network condition. *)
Definition alwaysRejected (attempt : nat) : Outcome nat :=
  Throw (newError "Invalid token address").

(** A scheduler configuration: two wallets, amounts between 0.01 and 0.1
    SOL, a trade every 5 to 10 seconds, for one minute. *)
Definition serverUrl : option string := Some "http://localhost:3000".

Definition volumeConfig : Volume.VolumeConfig :=
  Volume.mkConfig "TokenMint111" ["key-a"; "key-b"] (1 # 100) (1 # 10) (Some 5%Z) (Some 10%Z)
    5 1
    None None None.

(** A first session in which one buy of 0.055 SOL succeeds, stopped, then
    a second session started. *)
Definition twoSessions : list Volume.Action :=
  [Volume.ActStart volumeConfig 0;
   Volume.ActFire 1 0 0 [0%Q];
   Volume.ActResume 0 (Volume.WalletReady 550);
   Volume.ActResume 0 (Volume.DispatchDone (Ok true));
   Volume.ActStop;
   Volume.ActStart volumeConfig 0].

(** A session is started, its warm-up timer fires and starts a buy, and
    [stop()] is called while that buy waits for its wallet. *)
Definition stoppedMidTrade : list Volume.Action :=
  [Volume.ActStart volumeConfig 0; Volume.ActFire 1 0 0 [0%Q]; Volume.ActStop].

(** A backend that accepts every start under session id "s1"; its status
    answer says the session runs, with statistics marked [running]. *)
Definition backendSaying (running : bool) : VolumeApi.Backend :=
  VolumeApi.mkBackend (Some "http://localhost:3000")
    (fun _ _ => Ok (VolumeApi.mkResponse true 200 (Ok (VolumeApi.mkStartResponse true (Some "s1") None))))
    (fun _ _ => Ok (VolumeApi.mkResponse true 200 (Ok (VolumeApi.mkStopResponse true None None))))
    (fun _ => Ok (VolumeApi.mkResponse true 200
                    (Ok (VolumeApi.mkStatusResponse true (Some (VolumeApi.mkStats 0 0 0 0 0 running))
                           (Some true) None))))
    (fun _ _ => Throw (newError "fetch failed"))
    (fun _ _ => Throw (newError "fetch failed"))
    (fun _ _ => Throw (newError "fetch failed")).

Definition someConfig : VolumeApi.VolumeConfig := VolumeApi.mkConfig "TokenMint111" ["k1"] 1 2 5 10 1 5.

(** A session is started; its status timer fires and the answer reports a
    running session whose statistics say it is not running; [start] is
    called again, then [stop]; every request settles before anything else
    happens. *)
Definition restartedAfterMixedStatus : list SessionBot.Action :=
  [SessionBot.ActStart someConfig; SessionBot.ActSettle 0 (backendSaying false) 0;
   SessionBot.ActTimer 1; SessionBot.ActSettle 0 (backendSaying false) 0;
   SessionBot.ActStart someConfig; SessionBot.ActSettle 0 (backendSaying false) 1;
   SessionBot.ActStop; SessionBot.ActSettle 0 (backendSaying false) 1].

(** A session is started and its status timer fires; [stop()] is called
    while the status request is still waiting, and the answer to [stop]
    arrives before the status answer. *)
Definition stoppedDuringStatusCheck : list SessionBot.Action :=
  [SessionBot.ActStart someConfig; SessionBot.ActSettle 0 (backendSaying true) 0;
   SessionBot.ActTimer 1;
   SessionBot.ActStop;
   SessionBot.ActSettle 1 (backendSaying true) 1;
   SessionBot.ActSettle 0 (backendSaying true) 1].

(** [start] is called twice before the first request has settled; later
    [stop] is called. *)
Definition startedTwice : list SessionBot.Action :=
  [SessionBot.ActStart someConfig; SessionBot.ActStart someConfig;
   SessionBot.ActSettle 0 (backendSaying true) 0;
   SessionBot.ActSettle 0 (backendSaying true) 0;
   SessionBot.ActStop; SessionBot.ActSettle 0 (backendSaying true) 1].

(** A session started and checked once, one thing after the other. *)
Definition startedAndChecked : list SessionBot.Action :=
  [SessionBot.ActStart someConfig; SessionBot.ActSettle 0 (backendSaying true) 0;
   SessionBot.ActTimer 1; SessionBot.ActSettle 0 (backendSaying true) 1].

End Scenarios.

(** ** Properties of the dispatch code *)

Module BuyFacts.
Import Buy.
Local Open Scope list_scope.

(** *** The splitter *)

(** Both slicing loops of buy.ts ([splitLargeBundles] and the batching of
    wallets) obey the same two unfolding equations; what follows from them
    is proved once. *)
Section SliceLoop.
Context {A B : Type} (wrap : list A -> B) (size : nat) (xs : list A).
Variable loop : nat -> list B -> list B.
Hypothesis size_pos : 0 < size.
Hypothesis loop_lt : forall i acc,
  i < length xs -> loop i acc = loop (i + size) (acc ++ [wrap (slice xs i (i + size))]).
Hypothesis loop_ge : forall i acc, ~ i < length xs -> loop i acc = acc.

Lemma slice_then_rest i :
  slice xs i (i + size) ++ drop (i + size) xs = drop i xs.
Proof using size_pos.
  unfold slice. replace (i + size - i) with size by lia.
  rewrite <- (drop_drop xs size i). apply take_drop.
Qed.

Lemma slice_length i :
  i < length xs -> 0 < length (slice xs i (i + size)) <= size.
Proof using size_pos.
  intros Hi. unfold slice. replace (i + size - i) with size by lia.
  rewrite length_take, length_drop. lia.
Qed.

Lemma sliceLoop_chunks n : forall i acc,
  length xs - i <= n ->
  exists out : list (list A),
    loop i acc = acc ++ (wrap <$> out)
    /\ concat out = drop i xs
    /\ Forall (fun c => 0 < length c <= size) out
    /\ length xs - i <= length out * size < length xs - i + size.
Proof using size_pos loop_lt loop_ge.
  induction n as [|n IH]; intros i acc Hn.
  - exists []. rewrite loop_ge by lia. simpl.
    rewrite app_nil_r, drop_ge by lia. repeat split; auto; lia.
  - destruct (decide (i < length xs)) as [Hi|Hi].
    + destruct (IH (i + size) (acc ++ [wrap (slice xs i (i + size))])) as
        (out & Hloop & Hcat & Hall & Hlen); [lia|].
      exists (slice xs i (i + size) :: out).
      rewrite loop_lt, Hloop by assumption. simpl.
      rewrite <- app_assoc. simpl. rewrite Hcat.
      repeat split; auto using slice_then_rest.
      * constructor; auto using slice_length.
      * lia.
      * destruct (length out) as [|k]; [lia | nia].
    + exists []. rewrite loop_ge by lia. simpl.
      rewrite app_nil_r, drop_ge by lia. repeat split; auto; lia.
Qed.

Lemma sliceLoop_acc n : forall i acc,
  length xs - i <= n -> loop i acc = acc ++ loop i [].
Proof using size_pos loop_lt loop_ge.
  induction n as [|n IH]; intros i acc Hn.
  - rewrite !loop_ge by lia. now rewrite app_nil_r.
  - destruct (decide (i < length xs)) as [Hi|Hi].
    + rewrite (loop_lt i acc), (loop_lt i []) by assumption.
      rewrite (IH _ (acc ++ _)), (IH _ ([] ++ _)) by lia.
      now rewrite <- app_assoc.
    + rewrite !loop_ge by lia. now rewrite app_nil_r.
Qed.
End SliceLoop.

Lemma chunkLoop_lt txs i acc :
  i < length txs ->
  chunkLoop txs i acc =
  chunkLoop txs (i + MAX_TRANSACTIONS_PER_BUNDLE)
    (acc ++ [bundleOf (slice txs i (i + MAX_TRANSACTIONS_PER_BUNDLE))]).
Proof.
  intros Hi. rewrite chunkLoop_equation_1.
  destruct (decide (i < length txs)); [reflexivity | contradiction].
Qed.

Lemma chunkLoop_ge txs i acc : ~ i < length txs -> chunkLoop txs i acc = acc.
Proof.
  intros Hi. rewrite chunkLoop_equation_1.
  destruct (decide (i < length txs)); [contradiction | reflexivity].
Qed.

Lemma chunkLoop_chunks txs acc :
  exists out : list (list Tx),
    chunkLoop txs 0 acc = acc ++ (bundleOf <$> out)
    /\ concat out = txs
    /\ Forall (fun c => 0 < length c <= MAX_TRANSACTIONS_PER_BUNDLE) out.
Proof.
  destruct (sliceLoop_chunks bundleOf MAX_TRANSACTIONS_PER_BUNDLE txs
              (chunkLoop txs) ltac:(unfold MAX_TRANSACTIONS_PER_BUNDLE; lia)
              (chunkLoop_lt txs) (chunkLoop_ge txs) (length txs) 0 acc ltac:(lia))
    as (out & H1 & H2 & H3 & _).
  exists out. auto.
Qed.

Lemma chunkLoop_acc txs acc : chunkLoop txs 0 acc = acc ++ chunkLoop txs 0 [].
Proof.
  apply (sliceLoop_acc bundleOf MAX_TRANSACTIONS_PER_BUNDLE txs (chunkLoop txs)
           ltac:(unfold MAX_TRANSACTIONS_PER_BUNDLE; lia)
           (chunkLoop_lt txs) (chunkLoop_ge txs) (length txs)).
  lia.
Qed.

Lemma splitStep_acc acc b : splitStep acc b = acc ++ splitStep [] b.
Proof.
  unfold splitStep. destruct (transactions b) as [txs|].
  - destruct (decide (length txs <= MAX_TRANSACTIONS_PER_BUNDLE)); [reflexivity|].
    apply chunkLoop_acc.
  - now rewrite app_nil_r.
Qed.

Lemma foldl_splitStep_acc bundles : forall acc,
  foldl splitStep acc bundles = acc ++ foldl splitStep [] bundles.
Proof.
  induction bundles as [|b bundles IH]; intros acc; simpl.
  - now rewrite app_nil_r.
  - rewrite (IH (splitStep acc b)), (IH (splitStep [] b)), (splitStep_acc acc b).
    now rewrite app_assoc.
Qed.

Lemma splitLargeBundles_cons b bundles :
  splitLargeBundles (b :: bundles) = splitStep [] b ++ splitLargeBundles bundles.
Proof. unfold splitLargeBundles. simpl. apply foldl_splitStep_acc. Qed.

Lemma splitLargeBundles_app l1 l2 :
  splitLargeBundles (l1 ++ l2) = splitLargeBundles l1 ++ splitLargeBundles l2.
Proof.
  unfold splitLargeBundles. rewrite foldl_app. apply foldl_splitStep_acc.
Qed.

(** A bundle within the limit is pushed as it is. *)
Lemma splitStep_small b :
  is_Some (transactions b) ->
  length (txsOf b) <= MAX_TRANSACTIONS_PER_BUNDLE ->
  splitStep [] b = [b].
Proof.
  intros [txs Htxs] Hlen. unfold splitStep, txsOf in *. rewrite Htxs in *. simpl in *.
  destruct (decide (length txs <= MAX_TRANSACTIONS_PER_BUNDLE)); [reflexivity | lia].
Qed.

(** The bundles one input bundle turns into. *)
Lemma splitStep_chunks b :
  is_Some (transactions b) ->
  concat (txsOf <$> splitStep [] b) = txsOf b
  /\ Forall (fun c => is_Some (transactions c)
                      /\ length (txsOf c) <= MAX_TRANSACTIONS_PER_BUNDLE)
       (splitStep [] b).
Proof.
  intros [txs Htxs].
  destruct (decide (length txs <= MAX_TRANSACTIONS_PER_BUNDLE)) as [Hle|Hgt].
  - assert (Hlen : length (txsOf b) <= MAX_TRANSACTIONS_PER_BUNDLE)
      by (unfold txsOf; rewrite Htxs; exact Hle).
    rewrite splitStep_small by eauto. simpl. rewrite app_nil_r.
    split; [reflexivity|].
    constructor; [split; [eauto | exact Hlen] | constructor].
  - unfold splitStep. rewrite Htxs.
    destruct (decide (length txs <= MAX_TRANSACTIONS_PER_BUNDLE)); [contradiction|].
    destruct (chunkLoop_chunks txs []) as (out & -> & Hcat & Hall). simpl.
    unfold txsOf at 2. rewrite Htxs. simpl. split.
    + rewrite <- list_fmap_compose, <- Hcat. f_equal.
      now rewrite <- (list_fmap_id out) at 2.
    + apply Forall_fmap. eapply Forall_impl; [exact Hall|].
      intros c [_ Hc]. unfold txsOf, bundleOf. simpl. split; [eauto | exact Hc].
Qed.

(** C5. Bundle splitting is order-preserving and size-bounded: for every
    list of bundles that all carry a transactions array, the transactions of
    the output bundles, concatenated, are those of the input bundles in the
    same order; every output bundle holds at most
    [MAX_TRANSACTIONS_PER_BUNDLE] = 5 transactions; and a bundle already
    within the limit passes through unchanged, in place. *)
Theorem splitLargeBundles_order_and_bound (bundles : list BuyBundle) :
  Forall (fun b => is_Some (transactions b)) bundles ->
  concat (txsOf <$> splitLargeBundles bundles) = concat (txsOf <$> bundles)
  /\ Forall (fun b => is_Some (transactions b) /\ length (txsOf b) <= 5)
       (splitLargeBundles bundles)
  /\ (forall pre b post,
        bundles = pre ++ b :: post ->
        length (txsOf b) <= 5 ->
        splitLargeBundles bundles
        = splitLargeBundles pre ++ b :: splitLargeBundles post)
  /\ (Forall (fun b => length (txsOf b) <= 5) bundles ->
      splitLargeBundles bundles = bundles).
Proof.
  intros Hall. repeat split.
  - induction Hall as [|b bundles Hb _ IH]; [reflexivity|].
    rewrite splitLargeBundles_cons, fmap_app, concat_app, IH. simpl.
    now rewrite (proj1 (splitStep_chunks b Hb)).
  - induction Hall as [|b bundles Hb _ IH]; [constructor|].
    rewrite splitLargeBundles_cons. apply Forall_app. split; [|exact IH].
    exact (proj2 (splitStep_chunks b Hb)).
  - intros pre b post -> Hlen.
    rewrite splitLargeBundles_app, splitLargeBundles_cons.
    apply Forall_app in Hall as [_ Hall]. inversion Hall; subst.
    now rewrite splitStep_small.
  - intros Hsmall. induction Hall as [|b bundles Hb _ IH]; [reflexivity|].
    inversion Hsmall; subst.
    rewrite splitLargeBundles_cons, splitStep_small, IH by assumption. reflexivity.
Qed.

Lemma splitLargeBundles_order_and_bound_witness :
  let bundles := [bundleOf ["a"; "b"; "c"; "d"; "e"; "f"; "g"]; bundleOf ["h"]] in
  Forall (fun b => is_Some (transactions b)) bundles
  /\ concat (txsOf <$> splitLargeBundles bundles) = concat (txsOf <$> bundles).
Proof.
  simpl. split.
  - repeat constructor; eexists; reflexivity.
  - apply (splitLargeBundles_order_and_bound
             [bundleOf ["a"; "b"; "c"; "d"; "e"; "f"; "g"]; bundleOf ["h"]]).
    repeat constructor; eexists; reflexivity.
Defined.

Example splitLargeBundles_seven :
  splitLargeBundles [bundleOf ["a"; "b"; "c"; "d"; "e"; "f"; "g"]; mkBundle None; bundleOf ["h"]]
  = [bundleOf ["a"; "b"; "c"; "d"; "e"]; bundleOf ["f"; "g"]; bundleOf ["h"]].
Proof. reflexivity. Qed.


(** *** Reasoning about the effect monad *)

Lemma observe_emit {X} (f : Event -> option X) e w :
  observe f (snd (emit e w)) = observe f w ++ option_list (f e).
Proof.
  unfold observe, history, emit. simpl.
  rewrite omap_app. simpl. now destruct (f e).
Qed.

(** A computation is quiet for an observation when it adds nothing to it. *)
Definition quiet {X A} (f : Event -> option X) (m : M A) : Prop :=
  forall w, observe f (snd (m w)) = observe f w.

Section Quiet.
Context {X : Type} (f : Event -> option X).

Lemma quiet_ret {A} (a : A) : quiet f (ret a).
Proof. now intros w. Qed.

Lemma quiet_throw {A} e : quiet f (@throw A e).
Proof. now intros w. Qed.

Lemma quiet_lift {A} (o : Outcome A) : quiet f (lift o).
Proof. now intros w. Qed.

Lemma quiet_getTrace : quiet f getTrace.
Proof. now intros w. Qed.

Lemma quiet_getResults : quiet f getResults.
Proof. now intros w. Qed.

Lemma quiet_pushResult r : quiet f (pushResult r).
Proof. now intros w. Qed.

Lemma quiet_resetResults : quiet f resetResults.
Proof. now intros w. Qed.

Lemma quiet_emit e : f e = None -> quiet f (emit e).
Proof. intros He w. rewrite observe_emit, He. apply app_nil_r. Qed.

Lemma quiet_bind {A B} (m : M A) (k : A -> M B) :
  quiet f m -> (forall a, quiet f (k a)) -> quiet f (bind m k).
Proof.
  intros Hm Hk w. unfold bind. specialize (Hm w).
  destruct (m w) as [[a|e] w']; simpl in *; [|exact Hm].
  now rewrite Hk.
Qed.

Lemma quiet_tryCatch {A} (m : M A) (h : Error -> M A) :
  quiet f m -> (forall e, quiet f (h e)) -> quiet f (tryCatch m h).
Proof.
  intros Hm Hh w. unfold tryCatch. specialize (Hm w).
  destruct (m w) as [[a|e] w']; simpl in *; [exact Hm|].
  now rewrite Hh.
Qed.

Lemma quiet_promiseAll {A} (ms : list (M A)) :
  Forall (quiet f) ms -> quiet f (promiseAll ms).
Proof.
  induction 1 as [|m ms Hm _ IH]; intros w; simpl; [reflexivity|].
  specialize (Hm w). destruct (m w) as [r w1]. simpl in Hm.
  specialize (IH w1). destruct (promiseAll ms w1) as [rs w2]. simpl in *.
  congruence.
Qed.
End Quiet.

Create HintDb quiet.
#[local] Hint Resolve quiet_ret quiet_throw quiet_lift quiet_getTrace quiet_getResults
  quiet_pushResult quiet_resetResults : quiet.

(** Breaks a computation into its parts, leaving the parts that are not
    quiet by construction. *)
Ltac quiet_step :=
  match goal with
  | |- quiet _ (bind _ _) => apply quiet_bind; [|intros ?]
  | |- quiet _ (tryCatch _ _) => apply quiet_tryCatch; [|intros ?]
  | |- quiet _ (if ?c then _ else _) => destruct c
  | |- quiet _ (match ?x with _ => _ end) => destruct x
  | |- quiet _ _ => solve [auto with quiet]
  end.

(** Observations that the signing and sending steps do not touch. *)
Definition aboveSending {X} (f : Event -> option X) : Prop :=
  f EvBlockhash = None /\ f EvRateLimit = None /\ forall txs, f (EvSend txs) = None.

Lemma isPrepare_aboveSending : aboveSending isPrepare.
Proof. now repeat split. Qed.

Lemma isDelay_aboveSending : aboveSending isDelay.
Proof. now repeat split. Qed.

Section QuietDispatch.
Context (env : Env) {X : Type} (f : Event -> option X).
Hypothesis Hf : aboveSending f.

Lemma quiet_createFee payer : quiet f (createDeveloperBuyFeeTransaction env payer).
Proof using Hf.
  unfold createDeveloperBuyFeeTransaction. repeat quiet_step.
  apply quiet_emit, Hf.
Qed.

Lemma quiet_completeBundleSigning bundle kps protocol :
  quiet f (completeBundleSigning env bundle kps protocol).
Proof using Hf.
  unfold completeBundleSigning, completeBundleSigningWith.
  repeat quiet_step. apply quiet_createFee.
Qed.

Lemma quiet_sendBundle txs : quiet f (sendBundle env txs).
Proof using Hf.
  unfold sendBundle. repeat quiet_step. apply quiet_emit, Hf.
Qed.

Lemma quiet_sendSigned bundle : quiet f (sendSigned env bundle).
Proof using Hf.
  unfold sendSigned, checkRateLimit. repeat quiet_step.
  - apply quiet_emit, Hf.
  - apply quiet_sendBundle.
Qed.

Lemma quiet_sendEach bundles : quiet f (sendEach env bundles).
Proof using Hf.
  induction bundles; simpl; repeat quiet_step; auto using quiet_sendSigned.
Qed.

Lemma quiet_signAndSendEach bundles kp protocol :
  quiet f (signAndSendEach env bundles kp protocol).
Proof using Hf.
  induction bundles; simpl; repeat quiet_step;
    auto using quiet_sendSigned, quiet_completeBundleSigning.
Qed.

Lemma quiet_signAll bundles kps protocol :
  quiet f (promiseAll (map (fun bundle =>
    completeBundleSigning env bundle kps protocol) bundles)).
Proof using Hf.
  apply quiet_promiseAll, Forall_map, Forall_forall.
  intros b _. apply quiet_completeBundleSigning.
Qed.
End QuietDispatch.

Lemma bind_unfold {A B} (m : M A) (k : A -> M B) w :
  bind m k w = match m w with
               | (Ok a, w') => k a w'
               | (Throw e, w') => (Throw e, w')
               end.
Proof. reflexivity. Qed.

(** Runs the first computation of a [bind] whose head is quiet for the
    observation at hand; the goal left is the one where it returned. *)
Ltac run_quiet H :=
  rewrite bind_unfold;
  match goal with
  | |- context [match ?m ?w with _ => _ end] =>
      let Hq := fresh "Hq" in
      pose proof (H w) as Hq;
      destruct (m w) as [[?|?] ?]; simpl in Hq; simpl;
      [rewrite <- Hq; clear Hq | rewrite app_nil_r; exact Hq]
  end.

Lemma observe_prepare env {X} (f : Event -> option X) addrs config w :
  observe f (snd (getPartiallyPreparedTransactions env addrs config w))
  = observe f w ++ option_list (f (EvPrepare addrs)).
Proof.
  unfold getPartiallyPreparedTransactions. rewrite bind_unfold. cbn [emit].
  match goal with
  | |- observe f (snd (?m ?w1)) = _ =>
      let H := fresh in
      assert (H : quiet f m) by repeat quiet_step; rewrite (H w1)
  end.
  apply (observe_emit f (EvPrepare addrs) w).
Qed.

(** *** The counting loop *)

Section CountLoop.
Context {U : Type} (tryBlock : U -> nat -> nat -> M bool).

Lemma countUnit_run (m : M bool) t w :
  countUnit m t w
  = (Ok (if ranToEnd (fst (m w)) then oneMoreSuccess t else oneMoreFailure t),
     snd (m w)).
Proof.
  unfold countUnit, tryCatch. rewrite bind_unfold.
  destruct (m w) as [[[]|e] w']; reflexivity.
Qed.

Lemma countLoop_cons u rest i n t w :
  countLoop tryBlock (u :: rest) i n t w
  = countLoop tryBlock rest (S i) n
      (if ranToEnd (fst (tryBlock u i n w)) then oneMoreSuccess t else oneMoreFailure t)
      (snd (tryBlock u i n w)).
Proof. simpl. rewrite bind_unfold, countUnit_run. reflexivity. Qed.

(** The loop never throws, and its counters count the outcomes. *)
Lemma countLoop_tally units : forall i n t w,
  fst (countLoop tryBlock units i n t w)
  = Ok (mkTally (succeeded t + count true (unitOutcomes tryBlock units i n w))
                (failed t + count false (unitOutcomes tryBlock units i n w))).
Proof.
  induction units as [|u rest IH]; intros i n t w.
  - simpl. destruct t. simpl. now rewrite !Nat.add_0_r.
  - rewrite countLoop_cons, IH. simpl.
    destruct (ranToEnd (fst (tryBlock u i n w))); simpl; do 2 f_equal; lia.
Qed.

Lemma unitOutcomes_length units : forall i n w,
  length (unitOutcomes tryBlock units i n w) = length units.
Proof. induction units; intros; simpl; auto. Qed.

(** An observation every [try] block extends by one entry is extended by
    one entry per unit, in order: no unit is skipped. *)
Lemma countLoop_observe_each {X} (f : Event -> option X) (g : U -> X) units :
  (forall u i n w, observe f (snd (tryBlock u i n w)) = observe f w ++ [g u]) ->
  forall i n t w,
    observe f (snd (countLoop tryBlock units i n t w)) = observe f w ++ (g <$> units).
Proof.
  intros Hstep. induction units as [|u rest IH]; intros i n t w.
  - simpl. now rewrite app_nil_r.
  - rewrite countLoop_cons, IH, Hstep. simpl. now rewrite <- app_assoc.
Qed.

(** An observation extended by [d] exactly by the [try] blocks that run to
    their end before the last unit. *)
Lemma countLoop_observe_between {X} (f : Event -> option X) (d : X) units :
  (forall u i n w,
      observe f (snd (tryBlock u i n w))
      = observe f w
        ++ (if ranToEnd (fst (tryBlock u i n w)) && (S i <? n)%nat then [d] else [])) ->
  forall i n t w,
    i + length units = n ->
    observe f (snd (countLoop tryBlock units i n t w))
    = observe f w
      ++ replicate (count true (removelast (unitOutcomes tryBlock units i n w))) d.
Proof.
  intros Hstep. induction units as [|u rest IH]; intros i n t w Hn.
  - simpl. now rewrite app_nil_r.
  - rewrite countLoop_cons, IH, Hstep by (simpl in Hn; lia).
    rewrite <- app_assoc. f_equal.
    cbn [unitOutcomes].
    destruct rest as [|u' rest'].
    + simpl in *. replace (S i <? n)%nat with false
        by (symmetry; apply Nat.ltb_ge; lia).
      now rewrite andb_false_r.
    + replace (S i <? n)%nat with true
        by (symmetry; apply Nat.ltb_lt; simpl in Hn; lia).
      rewrite andb_true_r. cbn [unitOutcomes removelast].
      destruct (ranToEnd (fst (tryBlock u i n w))); reflexivity.
Qed.
End CountLoop.

(** *** What each [try] block adds to the observations *)

Lemma quiet_prepare env {X} (f : Event -> option X) addrs config :
  (forall a, f (EvPrepare a) = None) ->
  quiet f (getPartiallyPreparedTransactions env addrs config).
Proof. intros Hf w. rewrite observe_prepare, Hf. apply app_nil_r. Qed.

Lemma quiet_delay {X} (f : Event -> option X) ms :
  (forall d, f (EvDelay d) = None) -> quiet f (delay ms).
Proof. intros Hf. apply quiet_emit, Hf. Qed.

Ltac quiet_dispatch :=
  repeat quiet_step;
  auto using quiet_signAndSendEach, quiet_sendEach, quiet_signAll, quiet_delay,
    quiet_prepare, isPrepare_aboveSending, isDelay_aboveSending.


(** Batch mode calls the preparation client once per group. *)
Lemma batchTry_prepare env config batch i n w :
  prepareCalls (snd (batchTry env config batch i n w))
  = prepareCalls w ++ [map address batch].
Proof.
  unfold prepareCalls, batchTry. rewrite bind_unfold.
  pose proof (observe_prepare env isPrepare (map address batch) config w) as Hp.
  destruct (getPartiallyPreparedTransactions env (map address batch) config w)
    as [[bundles|e] w1]; simpl in Hp; [|exact Hp].
  rewrite <- Hp.
  match goal with
  | |- observe _ (snd (?m w1)) = _ => assert (Hq : quiet isPrepare m) by quiet_dispatch
  end.
  apply Hq.
Qed.

(** Batch mode waits [batchDelay || 1000] after a group exactly when the
    group's [try] block ran to its end and the group is not the last. *)
Lemma batchTry_delays env config batch i n w :
  delays (snd (batchTry env config batch i n w))
  = delays w
    ++ (if ranToEnd (fst (batchTry env config batch i n w)) && (S i <? n)%nat
        then [numOr (batchDelay config) 1000] else []).
Proof.
  unfold delays, batchTry.
  run_quiet (quiet_prepare env isDelay (map address batch) config ltac:(reflexivity)).
  destruct (length _ =? 0)%nat; simpl; [now rewrite app_nil_r|].
  run_quiet (quiet_lift isDelay
    (mapOutcome (fun wallet => keypairFromSecretKey env (privateKey wallet)) batch)).
  match goal with
  | |- context [promiseAll (map (fun bundle => completeBundleSigning _ _ ?kps _) ?bs)] =>
      run_quiet (quiet_signAll env isDelay isDelay_aboveSending bs kps (protocol config))
  end.
  match goal with
  | |- context [sendEach env ?bs] =>
      run_quiet (quiet_sendEach env isDelay isDelay_aboveSending bs)
  end.
  rewrite bind_unfold. destruct (S i <? n)%nat; simpl; [|now rewrite app_nil_r].
  apply (observe_emit isDelay).
Qed.


(** *** Batch mode *)

Lemma batchLoop_lt wallets i batches :
  i < length wallets ->
  batchLoop wallets i batches =
  batchLoop wallets (i + batchSize) (batches ++ [slice wallets i (i + batchSize)]).
Proof.
  intros Hi. rewrite batchLoop_equation_1.
  destruct (decide (i < length wallets)); [reflexivity | contradiction].
Qed.

Lemma batchLoop_ge wallets i batches :
  ~ i < length wallets -> batchLoop wallets i batches = batches.
Proof.
  intros Hi. rewrite batchLoop_equation_1.
  destruct (decide (i < length wallets)); [contradiction | reflexivity].
Qed.

(** The groups are consecutive slices of at most five wallets, and there
    are [ceil(|W| / 5)] of them. *)
Lemma batchLoop_groups wallets :
  concat (batchLoop wallets 0 []) = wallets
  /\ Forall (fun b => 0 < length b <= 5) (batchLoop wallets 0 [])
  /\ length (batchLoop wallets 0 []) = (length wallets + 4) / 5.
Proof.
  destruct (sliceLoop_chunks (fun b : list WalletBuy => b) batchSize wallets
              (batchLoop wallets) ltac:(unfold batchSize; lia)
              (batchLoop_lt wallets) (batchLoop_ge wallets) (length wallets) 0 [] ltac:(lia))
    as (out & -> & Hcat & Hall & Hlen).
  rewrite app_nil_l, list_fmap_id. unfold batchSize in *.
  rewrite Nat.sub_0_r in Hlen.
  split; [exact Hcat|]. split; [exact Hall|].
  apply (Nat.div_unique _ 5 _ (length wallets + 4 - length out * 5)); lia.
Qed.

Lemma count_removelast_all_true (l : list bool) :
  count false l = 0 -> count true (removelast l) = length l - 1.
Proof.
  induction l as [|b [|b' l] IH]; intros H; try reflexivity.
  destruct b; [|discriminate H].
  change (removelast (true :: b' :: l)) with (true :: removelast (b' :: l)).
  cbn [count length] in *. rewrite IH by exact H. simpl. lia.
Qed.

(** Where a mode built on [countLoop] leaves the world. *)
Lemma snd_mode_loop {U} (tryBlock : U -> nat -> nat -> M bool) units n unit w :
  snd ((resetResults;;
        let* t := countLoop tryBlock units 0 n (mkTally 0 0) in
        let* rs := getResults in
        ret (summary unit t rs)) w)
  = snd (countLoop tryBlock units 0 n (mkTally 0 0) (mkWorld (trace w) [])).
Proof.
  rewrite bind_unfold. cbn [resetResults]. rewrite bind_unfold.
  pose proof (countLoop_tally tryBlock units 0 n (mkTally 0 0) (mkWorld (trace w) [])) as Ht.
  destruct (countLoop tryBlock units 0 n (mkTally 0 0) (mkWorld (trace w) []))
    as [[t|e] w1]; [reflexivity | discriminate Ht].
Qed.

Lemma fst_mode_loop {U} (tryBlock : U -> nat -> nat -> M bool) units n unit w :
  let w0 := mkWorld (trace w) [] in
  let outcomes := unitOutcomes tryBlock units 0 n w0 in
  fst ((resetResults;;
        let* t := countLoop tryBlock units 0 n (mkTally 0 0) in
        let* rs := getResults in
        ret (summary unit t rs)) w)
  = Ok (summary unit (mkTally (count true outcomes) (count false outcomes))
          (results (snd (countLoop tryBlock units 0 n (mkTally 0 0) w0)))).
Proof.
  intros w0 outcomes.
  rewrite bind_unfold. cbn [resetResults]. rewrite bind_unfold.
  pose proof (countLoop_tally tryBlock units 0 n (mkTally 0 0) (mkWorld (trace w) [])) as Ht.
  fold w0 in Ht |- *.
  destruct (countLoop tryBlock units 0 n (mkTally 0 0) w0)
    as [[t|e] w1]; [|discriminate Ht].
  simpl in Ht. injection Ht as ->. reflexivity.
Qed.

(** What batch mode does for every wallet list, whatever the
    collaborators answer: the orchestrator cuts the wallets into consecutive
    groups of at most five, calls the preparation client once per group,
    [ceil(|W| / 5)] calls in all, and waits [batchDelay] (1000 when unset or
    zero) after each group whose processing ran to its end, except the
    last; when no group fails that is one wait after each group but the
    last. *)
Theorem batch_mode_calls_and_waits env wallets config w :
  let batches := batchLoop wallets 0 [] in
  let outcomes :=
    unitOutcomes (batchTry env config) batches 0 (length batches) (mkWorld (trace w) []) in
  let w' := snd (executeBuyBatchMode env wallets config w) in
  let wait := numOr (batchDelay config) 1000 in
  concat batches = wallets
  /\ Forall (fun b => 0 < length b <= 5) batches
  /\ length batches = (length wallets + 4) / 5
  /\ prepareCalls w' = prepareCalls w ++ (map address <$> batches)
  /\ delays w' = delays w ++ replicate (count true (removelast outcomes)) wait
  /\ (count false outcomes = 0 ->
      delays w' = delays w ++ replicate ((length wallets + 4) / 5 - 1) wait).
Proof.
  intros batches outcomes w' wait.
  destruct (batchLoop_groups wallets) as (Hcat & Hall & Hlen).
  assert (Hd : delays w' = delays w ++ replicate (count true (removelast outcomes)) wait).
  { unfold w', executeBuyBatchMode. rewrite snd_mode_loop.
    unfold delays at 1.
    rewrite (countLoop_observe_between (batchTry env config) isDelay wait batches
               (batchTry_delays env config)) by reflexivity.
    reflexivity. }
  repeat split; auto.
  - unfold w', executeBuyBatchMode. rewrite snd_mode_loop.
    unfold prepareCalls at 1.
    rewrite (countLoop_observe_each (batchTry env config) isPrepare (map address) batches
               (batchTry_prepare env config)).
    reflexivity.
  - intros Hnone. rewrite Hd, count_removelast_all_true by exact Hnone.
    unfold outcomes. rewrite unitOutcomes_length. unfold batches. now rewrite Hlen.
Qed.


Lemma batch_mode_calls_and_waits_witness :
  delays (snd (executeBuyBatchMode
                 (Scenarios.demoEnv (fun _ => Scenarios.oneBundle) Scenarios.relayAccepts
                    (Ok "fee-tx"))
                 Scenarios.tenWallets (Scenarios.buyConfig "auto" "batch") freshWorld))
  = [1000%Z].
Proof.
  apply (batch_mode_calls_and_waits
           (Scenarios.demoEnv (fun _ => Scenarios.oneBundle) Scenarios.relayAccepts
              (Ok "fee-tx"))
           Scenarios.tenWallets (Scenarios.buyConfig "auto" "batch") freshWorld).
  vm_compute. reflexivity.
Defined.

(** C6, at a failing input.  The wait between batches sits at the end of
    the [try] block, so a group whose processing failed is never followed
    by one, wherever it stands.  With ten wallets and a builder that answers
    HTTP 500 to the first group only, the two preparation calls are made
    but no wait at all follows the first group, although it is not the
    last. *)
Theorem batch_no_wait_after_failed_group :
  (forall env config batch i n w,
     ranToEnd (fst (batchTry env config batch i n w)) = false ->
     delays (snd (batchTry env config batch i n w)) = delays w)
  /\ let w' := snd (executeBuyBatchMode
                      (Scenarios.demoEnv Scenarios.failsFirst Scenarios.relayAccepts
                         (Ok "fee-tx"))
                      Scenarios.tenWallets (Scenarios.buyConfig "auto" "batch") freshWorld) in
     length (prepareCalls w') = 2
     /\ delays w' = []
     /\ delays w' <> replicate (2 - 1) 1000%Z.
Proof.
  split.
  - intros env config batch i n w Hfailed.
    rewrite batchTry_delays, Hfailed. apply app_nil_r.
  - vm_compute. repeat split; discriminate.
Qed.

(** *** Single mode *)


Lemma signAndSendEach_sign_throws env bundle rest kp protocol w e w1 :
  completeBundleSigning env bundle [kp] protocol w = (Throw e, w1) ->
  signAndSendEach env (bundle :: rest) kp protocol w = (Throw e, w1).
Proof. intros H. simpl. now rewrite bind_unfold, H. Qed.

Lemma signAndSendEach_relay_throws env bundle rest kp protocol w signed w1 e w2 :
  completeBundleSigning env bundle [kp] protocol w = (Ok signed, w1) ->
  (0 <? length (txsOf signed))%nat = true ->
  sendBundle env (txsOf signed) (snd (checkRateLimit w1)) = (Throw e, w2) ->
  signAndSendEach env (bundle :: rest) kp protocol w = (Throw e, w2).
Proof.
  intros Hsign Hlen Hsend. simpl. rewrite bind_unfold, Hsign.
  rewrite bind_unfold. unfold sendSigned. rewrite Hlen.
  rewrite bind_unfold. cbn [checkRateLimit emit]. cbn [checkRateLimit emit snd] in Hsend.
  now rewrite bind_unfold, Hsend.
Qed.






(** *** The signer and its side payment *)

(** The fee builder of the code answers [null] whenever its body throws. *)
Lemma createDeveloperBuyFeeTransaction_null env payer w e :
  buildFeeTransaction env (EvBlockhash :: trace w) payer = Throw e ->
  fst (createDeveloperBuyFeeTransaction env payer w) = Ok None.
Proof.
  intros H. unfold createDeveloperBuyFeeTransaction, tryCatch.
  rewrite bind_unfold. cbn [emit]. rewrite bind_unfold. cbn [getTrace trace].
  rewrite bind_unfold. unfold lift. rewrite H. reflexivity.
Qed.

(** When a fee transaction is injected it is the first of the bundle. *)
Lemma completeBundleSigning_fee_first env createFee bundle kps protocol w signed :
  fst (completeBundleSigningWith env createFee bundle kps protocol w) = Ok signed ->
  forall txs main,
    transactions bundle = Some txs ->
    mapOutcome (signTransaction env kps) txs = Ok main ->
    txsOf signed = main \/ exists fee, txsOf signed = fee :: main.
Proof.
  intros Hs txs main Ht Hm. unfold completeBundleSigningWith in Hs.
  rewrite Ht, bind_unfold in Hs. unfold lift at 1 in Hs. rewrite Hm in Hs.
  destruct kps as [|payer kps]; [injection Hs as <-; now left|].
  destruct (feeProtocol protocol); [|injection Hs as <-; now left].
  unfold tryCatch in Hs. rewrite bind_unfold in Hs.
  destruct (createFee payer w) as [[[fee|]|e] w1]; simpl in Hs.
  - destruct (truthy fee); injection Hs as <-; [right; now exists fee | now left].
  - injection Hs as <-. now left.
  - injection Hs as <-. now left.
Qed.

(** C8. For a bundle signed for a fee-bearing protocol (pumpfun, bonk):
    when creating the fee transaction fails, by returning [null] or by
    throwing, the signer returns exactly what signing the main transactions
    alone gives (the signed main transactions, or the signing error if one
    of them cannot be signed); and the fee builder of the code returns
    [null] whenever anything inside it throws, so that the same holds for
    [completeBundleSigning] itself. *)
Theorem fee_failure_keeps_signed_bundle env bundle kps protocol w :
  feeProtocol protocol = true ->
  let main :=
    match transactions bundle with
    | None => Ok (bundleOf [])
    | Some txs =>
        match mapOutcome (signTransaction env kps) txs with
        | Ok signed => Ok (bundleOf signed)
        | Throw e => Throw e
        end
    end in
  (forall createFee,
      (forall payer, fst (createFee payer w) = Ok None
                     \/ exists e, fst (createFee payer w) = Throw e) ->
      fst (completeBundleSigningWith env createFee bundle kps protocol w) = main)
  /\ ((forall payer, exists e,
         buildFeeTransaction env (EvBlockhash :: trace w) payer = Throw e) ->
      fst (completeBundleSigning env bundle kps protocol w) = main).
Proof.
  intros Hp main.
  assert (Hgen : forall createFee,
      (forall payer, fst (createFee payer w) = Ok None
                     \/ exists e, fst (createFee payer w) = Throw e) ->
      fst (completeBundleSigningWith env createFee bundle kps protocol w) = main).
  { intros createFee Hfail. unfold completeBundleSigningWith, main.
    destruct (transactions bundle) as [txs|]; [|reflexivity].
    rewrite bind_unfold. unfold lift at 1.
    destruct (mapOutcome (signTransaction env kps) txs) as [signed|e]; [|reflexivity].
    destruct kps as [|payer kps]; [reflexivity|]. rewrite Hp.
    unfold tryCatch. rewrite bind_unfold.
    destruct (Hfail payer) as [H|[e H]];
      destruct (createFee payer w) as [r w1]; simpl in H; subst r; reflexivity. }
  split; [exact Hgen|].
  intros Hthrows. apply Hgen. intros payer. left.
  destruct (Hthrows payer) as [e He].
  eapply createDeveloperBuyFeeTransaction_null, He.
Qed.

Lemma fee_failure_keeps_signed_bundle_witness :
  fst (completeBundleSigning
         (Scenarios.demoEnv (fun _ => Scenarios.oneBundle) Scenarios.relayAccepts
            (Throw (newError "failed to get recent blockhash")))
         (bundleOf ["tx-a"; "tx-b"]) [mkKeypair "pub-k1" "k1"] "pumpfun" freshWorld)
  = Ok (bundleOf ["signed-tx-a"; "signed-tx-b"]).
Proof.
  apply (fee_failure_keeps_signed_bundle
           (Scenarios.demoEnv (fun _ => Scenarios.oneBundle) Scenarios.relayAccepts
              (Throw (newError "failed to get recent blockhash")))
           (bundleOf ["tx-a"; "tx-b"]) [mkKeypair "pub-k1" "k1"] "pumpfun" freshWorld).
  - reflexivity.
  - intros payer. eexists. reflexivity.
Defined.

(** *** More on the splitter *)

(** Whatever comes in, every bundle that comes out carries a transactions
    array of at most five entries. *)
Lemma splitLargeBundles_output_small bundles :
  Forall (fun b => is_Some (transactions b)
                   /\ length (txsOf b) <= MAX_TRANSACTIONS_PER_BUNDLE)
    (splitLargeBundles bundles).
Proof.
  induction bundles as [|b bundles IH]; [constructor|].
  rewrite splitLargeBundles_cons. apply Forall_app. split; [|exact IH].
  destruct (transactions b) as [txs|] eqn:Htxs.
  - apply splitStep_chunks. eauto.
  - unfold splitStep. rewrite Htxs. constructor.
Qed.

Lemma splitLargeBundles_small_id bundles :
  Forall (fun b => is_Some (transactions b)
                   /\ length (txsOf b) <= MAX_TRANSACTIONS_PER_BUNDLE) bundles ->
  splitLargeBundles bundles = bundles.
Proof.
  induction 1 as [|b bundles [Hb Hlen] _ IH]; [reflexivity|].
  now rewrite splitLargeBundles_cons, splitStep_small, IH.
Qed.

(** X1. Splitting is idempotent: the output of the splitter, split again,
    is unchanged, for every input (also one holding malformed bundles). *)
Theorem splitLargeBundles_idempotent bundles :
  splitLargeBundles (splitLargeBundles bundles) = splitLargeBundles bundles.
Proof. apply splitLargeBundles_small_id, splitLargeBundles_output_small. Qed.

(** X2. A bundle without a transactions array is dropped by the splitter,
    wherever it stands, and leaves the bundles around it as they are split
    on their own. *)
Theorem splitLargeBundles_drops_malformed pre b post :
  transactions b = None ->
  splitLargeBundles (pre ++ b :: post) = splitLargeBundles (pre ++ post).
Proof.
  intros Hb. rewrite !splitLargeBundles_app, splitLargeBundles_cons.
  unfold splitStep. now rewrite Hb.
Qed.

Lemma splitLargeBundles_drops_malformed_witness :
  splitLargeBundles ([bundleOf ["a"]] ++ mkBundle None :: [bundleOf ["b"]])
  = splitLargeBundles ([bundleOf ["a"]] ++ [bundleOf ["b"]]).
Proof. apply splitLargeBundles_drops_malformed. reflexivity. Defined.

(** The loop started at [i] with [acc] already pushed: sub-bundle [k] of
    those it pushes is the slice [i + 5k, i + 5k + 5) of the input. *)
Lemma chunkLoop_nth txs n : forall i acc k,
  length txs - i <= n ->
  i + k * MAX_TRANSACTIONS_PER_BUNDLE < length txs ->
  chunkLoop txs i acc !! (length acc + k)
  = Some (bundleOf (slice txs (i + k * MAX_TRANSACTIONS_PER_BUNDLE)
                      (i + k * MAX_TRANSACTIONS_PER_BUNDLE + MAX_TRANSACTIONS_PER_BUNDLE))).
Proof.
  induction n as [|n IH]; intros i acc k Hn Hk; [lia|].
  rewrite chunkLoop_lt by lia.
  destruct k as [|k].
  - rewrite (sliceLoop_acc bundleOf MAX_TRANSACTIONS_PER_BUNDLE txs (chunkLoop txs)
               ltac:(unfold MAX_TRANSACTIONS_PER_BUNDLE; lia)
               (chunkLoop_lt txs) (chunkLoop_ge txs) (length txs)) by lia.
    rewrite lookup_app_l by (rewrite length_app; simpl; lia).
    rewrite lookup_app_r by lia.
    replace (length acc + 0 - length acc) with 0 by lia. simpl.
    now rewrite !Nat.add_0_r.
  - specialize (IH (i + MAX_TRANSACTIONS_PER_BUNDLE)
                  (acc ++ [bundleOf (slice txs i (i + MAX_TRANSACTIONS_PER_BUNDLE))]) k).
    rewrite length_app in IH. simpl in IH.
    replace (length acc + S k) with (length acc + 1 + k) by lia.
    rewrite IH by (unfold MAX_TRANSACTIONS_PER_BUNDLE in *; lia).
    do 3 f_equal; unfold MAX_TRANSACTIONS_PER_BUNDLE; lia.
Qed.

(** X3. An oversized bundle of [n > 5] transactions becomes exactly
    [ceil(n / 5)] sub-bundles, and sub-bundle number [k] holds the
    transactions at positions [5k .. 5k + 4] of the original (fewer for the
    last one): the sub-bundles are filled in order and to the limit. *)
Theorem splitLargeBundles_chunk_layout (txs : list Tx) :
  MAX_TRANSACTIONS_PER_BUNDLE < length txs ->
  length (splitLargeBundles [bundleOf txs]) = (length txs + 4) / 5
  /\ forall k, 5 * k < length txs ->
       splitLargeBundles [bundleOf txs] !! k
       = Some (bundleOf (take 5 (drop (5 * k) txs))).
Proof.
  intros Hbig. unfold splitLargeBundles. cbn [foldl]. unfold splitStep.
  cbn [transactions bundleOf].
  destruct (decide (length txs <= MAX_TRANSACTIONS_PER_BUNDLE)); [lia|].
  split.
  - destruct (sliceLoop_chunks bundleOf MAX_TRANSACTIONS_PER_BUNDLE txs
                (chunkLoop txs) ltac:(unfold MAX_TRANSACTIONS_PER_BUNDLE; lia)
                (chunkLoop_lt txs) (chunkLoop_ge txs) (length txs) 0 [] ltac:(lia))
      as (out & -> & _ & _ & Hlen).
    rewrite app_nil_l, length_fmap. unfold MAX_TRANSACTIONS_PER_BUNDLE in Hlen.
    rewrite Nat.sub_0_r in Hlen.
    apply (Nat.div_unique _ 5 _ (length txs + 4 - length out * 5)); lia.
  - intros k Hk.
    pose proof (chunkLoop_nth txs (length txs) 0 [] k ltac:(lia)) as H.
    unfold MAX_TRANSACTIONS_PER_BUNDLE in H. cbn [length Nat.add] in H.
    rewrite H by lia. unfold slice.
    replace (k * 5 + 5 - k * 5) with 5 by lia.
    now replace (k * 5) with (5 * k) by lia.
Qed.

Lemma splitLargeBundles_chunk_layout_witness :
  length (splitLargeBundles [bundleOf ["a"; "b"; "c"; "d"; "e"; "f"; "g"]]) = 2.
Proof.
  apply (splitLargeBundles_chunk_layout ["a"; "b"; "c"; "d"; "e"; "f"; "g"]).
  unfold MAX_TRANSACTIONS_PER_BUNDLE. simpl. lia.
Defined.

(** *** More on the signer *)

Lemma requiredSigners_spec keys kps : forall signers,
  NoDup signers ->
  NoDup (requiredSigners keys kps signers)
  /\ (forall kp, kp ∈ requiredSigners keys kps signers ->
                 kp ∈ signers \/ (kp ∈ kps /\ publicKey kp ∈ keys))
  /\ (forall kp, kp ∈ signers -> kp ∈ requiredSigners keys kps signers)
  /\ (forall key kp, key ∈ keys -> kp ∈ kps -> publicKey kp = key ->
        exists kp', kp' ∈ requiredSigners keys kps signers /\ publicKey kp' = key).
Proof.
  induction keys as [|key keys IH]; intros signers Hnd; simpl.
  - repeat split; auto. intros key kp Hk. inversion Hk.
  - destruct (find (fun kp => String.eqb (publicKey kp) key) kps) as [m|] eqn:Hfind.
    + apply find_some in Hfind as [Hin Heq]. apply String.eqb_eq in Heq.
      apply list_elem_of_In in Hin.
      destruct (decide (m ∈ signers)) as [Hm|Hm].
      * destruct (IH signers Hnd) as (H1 & H2 & H3 & H4).
        repeat split; auto.
        -- intros kp Hkp. destruct (H2 kp Hkp) as [?|[? ?]]; auto.
           right. split; auto. apply elem_of_cons; now right.
        -- intros key' kp Hkey Hkp Hpub. apply elem_of_cons in Hkey as [->|Hkey]; eauto.
      * assert (Hnd' : NoDup (signers ++ [m])).
        { apply NoDup_app. repeat split; auto.
          - intros x Hx Hx'. apply list_elem_of_singleton in Hx'. now subst.
          - apply NoDup_singleton. }
        destruct (IH (signers ++ [m]) Hnd') as (H1 & H2 & H3 & H4).
        repeat split; auto.
        -- intros kp Hkp. destruct (H2 kp Hkp) as [Hs|[? ?]].
           ++ apply elem_of_app in Hs as [?|Hs]; auto.
              apply list_elem_of_singleton in Hs. subst kp.
              right. split; auto. rewrite Heq. apply elem_of_cons; now left.
           ++ right. split; auto. apply elem_of_cons; now right.
        -- intros kp Hkp. apply H3, elem_of_app. now left.
        -- intros key' kp Hkey Hkp Hpub. apply elem_of_cons in Hkey as [->|Hkey]; eauto.
           exists m. split; auto. apply H3, elem_of_app. right.
           now apply list_elem_of_singleton.
    + destruct (IH signers Hnd) as (H1 & H2 & H3 & H4).
      repeat split; auto.
      * intros kp Hkp. destruct (H2 kp Hkp) as [?|[? ?]]; auto.
        right. split; auto. apply elem_of_cons; now right.
      * intros key' kp Hkey Hkp Hpub. apply elem_of_cons in Hkey as [->|Hkey]; eauto.
        exfalso. apply list_elem_of_In in Hkp.
        pose proof (find_none _ _ Hfind kp Hkp) as Hno. simpl in Hno.
        apply String.eqb_neq in Hno. congruence.
Qed.

(** X4. The signer set computed for a transaction: no keypair appears in it
    twice, however often its key is listed; every signer is one of the
    wallet keypairs and its public key is one of the transaction's account
    keys; and every account key owned by some wallet keypair has a signer
    with that key. *)
Theorem requiredSigners_minimal_and_complete keys kps :
  NoDup (requiredSigners keys kps [])
  /\ (forall kp, kp ∈ requiredSigners keys kps [] -> kp ∈ kps /\ publicKey kp ∈ keys)
  /\ (forall key kp, key ∈ keys -> kp ∈ kps -> publicKey kp = key ->
        exists kp', kp' ∈ requiredSigners keys kps [] /\ publicKey kp' = key).
Proof.
  destruct (requiredSigners_spec keys kps [] NoDup_nil_2) as (H1 & H2 & _ & H4).
  repeat split; auto; destruct (H2 kp H) as [Hnil|[? ?]]; auto; inversion Hnil.
Qed.

Lemma mapOutcome_length {A B} (f : A -> Outcome B) l l' :
  mapOutcome f l = Ok l' -> length l' = length l.
Proof.
  revert l'. induction l as [|x l IH]; intros l'; simpl.
  - now intros [= <-].
  - destruct (f x); [|discriminate]. destruct (mapOutcome f l); [|discriminate].
    intros [= <-]. simpl. f_equal. now apply IH.
Qed.

Lemma mapOutcome_lookup {A B} (f : A -> Outcome B) l l' :
  mapOutcome f l = Ok l' ->
  forall k x, l !! k = Some x -> exists y, f x = Ok y /\ l' !! k = Some y.
Proof.
  revert l'. induction l as [|x0 l IH]; intros l'; simpl.
  - intros _ k x Hk. inversion Hk.
  - destruct (f x0) as [y0|] eqn:Hf; [|discriminate].
    destruct (mapOutcome f l) as [ys|]; [|discriminate].
    intros [= <-] [|k] x Hk; simpl in *.
    + injection Hk as <-. eauto.
    + eauto.
Qed.

(** X5. One transaction that cannot be signed aborts the whole bundle: the
    signer rethrows that error and does nothing else; in particular no fee
    transaction is requested. *)
Theorem signing_failure_aborts_bundle env bundle kps protocol w txs e :
  transactions bundle = Some txs ->
  mapOutcome (signTransaction env kps) txs = Throw e ->
  completeBundleSigning env bundle kps protocol w = (Throw e, w).
Proof.
  intros Ht Hm. unfold completeBundleSigning, completeBundleSigningWith.
  rewrite Ht, bind_unfold. unfold lift. now rewrite Hm.
Qed.

Lemma signing_failure_aborts_bundle_witness :
  let env := mkEnv None (fun _ _ _ => Throw (newError "unused")) (fun _ _ => Throw (newError "unused"))
               (fun _ => Throw (newError "unused"))
               (fun tx => if String.eqb tx "bad" then Throw (newError "cannot deserialize")
                          else Ok (mkTransaction [] tx))
               (fun t _ => Ok (payload t)) (fun _ _ => Ok "fee") in
  completeBundleSigning env (bundleOf ["good"; "bad"]) [mkKeypair "p" "s"] "pumpfun" freshWorld
  = (Throw (newError "cannot deserialize"), freshWorld).
Proof.
  intros env.
  apply (signing_failure_aborts_bundle env (bundleOf ["good"; "bad"]) [mkKeypair "p" "s"]
           "pumpfun" freshWorld ["good"; "bad"]); reflexivity.
Defined.

(** X6. What the signer returns when it returns: one signed transaction per
    input transaction, each the signature of the input at the same
    position, preceded by at most one fee transaction; for a protocol other
    than pumpfun and bonk, or without any wallet keypair, there is no fee
    transaction and the fee builder is not even called. *)
Theorem completeBundleSigning_shape env bundle kps protocol w txs signed :
  transactions bundle = Some txs ->
  fst (completeBundleSigning env bundle kps protocol w) = Ok signed ->
  exists main,
    mapOutcome (signTransaction env kps) txs = Ok main
    /\ length main = length txs
    /\ (forall k tx, txs !! k = Some tx ->
          exists stx, signTransaction env kps tx = Ok stx /\ main !! k = Some stx)
    /\ (txsOf signed = main \/ exists fee, txsOf signed = fee :: main)
    /\ (feeProtocol protocol = false \/ kps = [] ->
        txsOf signed = main
        /\ snd (completeBundleSigning env bundle kps protocol w) = w).
Proof.
  intros Ht Hs.
  destruct (mapOutcome (signTransaction env kps) txs) as [main|e] eqn:Hm.
  - exists main. split; [reflexivity|].
    split; [eapply mapOutcome_length; eauto|].
    split; [eapply mapOutcome_lookup; eauto|].
    split; [eapply completeBundleSigning_fee_first; eauto|].
    intros Hno. unfold completeBundleSigning, completeBundleSigningWith in *.
    rewrite Ht, bind_unfold in *. unfold lift in *. rewrite Hm in *.
    destruct kps as [|payer kps]; [simpl in *; injection Hs as <-; auto|].
    destruct Hno as [Hno|Hno]; [|discriminate Hno]. rewrite Hno in *.
    simpl in *. injection Hs as <-. auto.
  - unfold completeBundleSigning, completeBundleSigningWith in Hs.
    rewrite Ht, bind_unfold in Hs. unfold lift in Hs. rewrite Hm in Hs.
    discriminate Hs.
Qed.

Lemma completeBundleSigning_shape_witness :
  exists main,
    mapOutcome (signTransaction
                  (Scenarios.demoEnv (fun _ => Scenarios.oneBundle) Scenarios.relayAccepts
                     (Ok "fee-tx")) [mkKeypair "pub-k1" "k1"]) ["a"; "b"] = Ok main
    /\ length main = 2.
Proof.
  destruct (completeBundleSigning_shape
              (Scenarios.demoEnv (fun _ => Scenarios.oneBundle) Scenarios.relayAccepts
                 (Ok "fee-tx"))
              (bundleOf ["a"; "b"]) [mkKeypair "pub-k1" "k1"] "pumpfun" freshWorld
              ["a"; "b"] (bundleOf ["fee-tx"; "signed-a"; "signed-b"]) eq_refl eq_refl)
    as (main & Hm & Hl & _).
  exists main. split; [exact Hm | exact Hl].
Defined.

(** *** executeBuy as a whole *)

(** X7. [executeBuy] never throws: whatever happens inside a mode comes
    back as a result object.  With a bundle mode that is none of the three,
    it fails at once: [success] is false, the error names the mode, and no
    collaborator has been called. *)
Theorem executeBuy_never_throws env wallets config w :
  (exists res, fst (executeBuy env wallets config w) = Ok res)
  /\ (let mode := strOr (bundleMode config) "batch" in
      mode <> "single" -> mode <> "batch" -> mode <> "all-in-one" ->
      executeBuy env wallets config w
      = (Ok (mkBuyResult false None (Some (invalidModeMessage mode))), w)).
Proof.
  split.
  - unfold executeBuy, tryCatch.
    match goal with |- context [match ?m w with _ => _ end] =>
      destruct (m w) as [[res|e] w'] end; simpl; eauto.
  - intros mode H1 H2 H3. unfold executeBuy, tryCatch. fold mode.
    apply String.eqb_neq in H1, H2, H3. rewrite H1. cbn match. rewrite H2. cbn match.
    rewrite H3. reflexivity.
Qed.

Lemma executeBuy_never_throws_witness :
  executeBuy (Scenarios.demoEnv (fun _ => Scenarios.oneBundle) Scenarios.relayAccepts
                (Ok "fee-tx"))
    Scenarios.fiveWallets (Scenarios.buyConfig "auto" "parallel") freshWorld
  = (Ok (mkBuyResult false None
           (Some "Invalid bundle mode: parallel. Must be 'single', 'batch', or 'all-in-one'")),
     freshWorld).
Proof.
  apply (executeBuy_never_throws
           (Scenarios.demoEnv (fun _ => Scenarios.oneBundle) Scenarios.relayAccepts
              (Ok "fee-tx"))
           Scenarios.fiveWallets (Scenarios.buyConfig "auto" "parallel") freshWorld);
    discriminate.
Defined.

(** *** No server configured *)

Lemma prepare_unconfigured env addrs config w :
  baseUrl env = EmptyString ->
  getPartiallyPreparedTransactions env addrs config w
  = (Throw urlNotConfigured, mkWorld (EvPrepare addrs :: trace w) (results w)).
Proof.
  intros Hurl. unfold getPartiallyPreparedTransactions.
  rewrite bind_unfold. cbn [emit]. now rewrite Hurl.
Qed.

Lemma countLoop_quiet {U X} (tryBlock : U -> nat -> nat -> M bool)
    (f : Event -> option X) units :
  (forall u i n, quiet f (tryBlock u i n)) ->
  forall i n t, quiet f (countLoop tryBlock units i n t).
Proof.
  intros Hq. induction units as [|u rest IH]; intros i n t w.
  - reflexivity.
  - rewrite countLoop_cons, IH. apply Hq.
Qed.

Lemma unitOutcomes_none_ran {U} (tryBlock : U -> nat -> nat -> M bool) units :
  (forall u i n w, ranToEnd (fst (tryBlock u i n w)) = false) ->
  forall i n w, count true (unitOutcomes tryBlock units i n w) = 0.
Proof.
  intros Hno. induction units as [|u rest IH]; intros i n w; [reflexivity|].
  simpl. rewrite Hno, IH. reflexivity.
Qed.

(** A mode built on [countLoop] whose [try] blocks all stop at the
    preparation step. *)
Lemma mode_loop_unconfigured {U} (tryBlock : U -> nat -> nat -> M bool) units n unit w :
  (forall u i n w, exists e w',
      tryBlock u i n w = (Throw e, w') /\ observe isSend w' = observe isSend w) ->
  let m := (resetResults;;
            let* t := countLoop tryBlock units 0 n (mkTally 0 0) in
            let* rs := getResults in
            ret (summary unit t rs)) in
  (exists res, fst (m w) = Ok res /\ success res = false)
  /\ sentBundles (snd (m w)) = sentBundles w.
Proof.
  intros Hthrow m. split.
  - eexists. split; [apply fst_mode_loop|]. cbn [success summary succeeded].
    rewrite unitOutcomes_none_ran; [reflexivity|].
    intros u i n0 w0. destruct (Hthrow u i n0 w0) as (e & w' & -> & _). reflexivity.
  - unfold m. rewrite snd_mode_loop. unfold sentBundles.
    rewrite (countLoop_quiet tryBlock isSend units); [reflexivity|].
    intros u i n0 w0. destruct (Hthrow u i n0 w0) as (e & w' & -> & Hw). exact Hw.
Qed.

(** X8. When no trading server URL is configured (unset, empty, or made of
    slashes only), [executeBuy] in any mode returns with [success] false and
    nothing is ever handed to [sendBundle]. *)
Theorem unconfigured_server_sends_nothing env wallets config w :
  baseUrl env = EmptyString ->
  (exists res, fst (executeBuy env wallets config w) = Ok res /\ success res = false)
  /\ sentBundles (snd (executeBuy env wallets config w)) = sentBundles w.
Proof.
  intros Hurl. unfold executeBuy, tryCatch.
  destruct (String.eqb (strOr (bundleMode config) "batch") "single").
  { destruct (mode_loop_unconfigured (singleWalletTry env config) wallets
                (length wallets) "wallets" w) as [(res & Hres & Hs) Hsent].
    - intros u i n w0. exists urlNotConfigured. eexists. split.
      + unfold singleWalletTry. rewrite bind_unfold, prepare_unconfigured by exact Hurl.
        reflexivity.
      + exact (quiet_emit isSend (EvPrepare _) eq_refl w0).
    - fold (executeBuySingleMode env wallets config) in Hres, Hsent.
      destruct (executeBuySingleMode env wallets config w) as [[r|e] w'];
        simpl in *; [|discriminate Hres].
      injection Hres as ->. eauto. }
  destruct (String.eqb (strOr (bundleMode config) "batch") "batch").
  { destruct (mode_loop_unconfigured (batchTry env config) (batchLoop wallets 0 [])
                (length (batchLoop wallets 0 [])) "batches" w) as [(res & Hres & Hs) Hsent].
    - intros u i n w0. exists urlNotConfigured. eexists. split.
      + unfold batchTry. rewrite bind_unfold, prepare_unconfigured by exact Hurl.
        reflexivity.
      + exact (quiet_emit isSend (EvPrepare _) eq_refl w0).
    - fold (executeBuyBatchMode env wallets config) in Hres, Hsent.
      destruct (executeBuyBatchMode env wallets config w) as [[r|e] w'];
        simpl in *; [|discriminate Hres].
      injection Hres as ->. eauto. }
  destruct (String.eqb (strOr (bundleMode config) "batch") "all-in-one").
  { unfold executeBuyAllInOneMode.
    rewrite bind_unfold, prepare_unconfigured by exact Hurl. simpl.
    split; [eauto|]. exact (quiet_emit isSend (EvPrepare _) eq_refl w). }
  simpl. eauto.
Qed.

Lemma unconfigured_server_sends_nothing_witness :
  sentBundles (snd (executeBuy
    (mkEnv (Some "///") (fun _ a _ => Scenarios.oneBundle a)
       (fun _ _ => Ok (Ok Scenarios.relayAccepts))
       (fun sk => Ok (mkKeypair sk sk)) (fun tx => Ok (mkTransaction [] tx))
       (fun t _ => Ok (payload t)) (fun _ _ => Ok "fee"))
    Scenarios.fiveWallets (Scenarios.buyConfig "auto" "single") freshWorld))
  = [].
Proof.
  apply (unconfigured_server_sends_nothing
           (mkEnv (Some "///") (fun _ a _ => Scenarios.oneBundle a)
              (fun _ _ => Ok (Ok Scenarios.relayAccepts))
              (fun sk => Ok (mkKeypair sk sk)) (fun tx => Ok (mkTransaction [] tx))
              (fun t _ => Ok (payload t)) (fun _ _ => Ok "fee"))
           Scenarios.fiveWallets (Scenarios.buyConfig "auto" "single") freshWorld).
  reflexivity.
Defined.

(** *** The rate limiter in front of the relay *)

(** A computation whose relay calls each come right after a rate-limiter
    call of their own. *)
Definition gated {A} (m : M A) : Prop :=
  forall w, exists k,
    observe gateView (snd (m w)) = observe gateView w ++ gatedSends k.

Lemma gatedSends_app j k : gatedSends j ++ gatedSends k = gatedSends (j + k).
Proof. induction j; simpl; congruence. Qed.

Lemma gated_quiet {A} (m : M A) : quiet gateView m -> gated m.
Proof. intros H w. exists 0. simpl. rewrite app_nil_r. apply H. Qed.

Lemma gated_bind {A B} (m : M A) (k : A -> M B) :
  gated m -> (forall a, gated (k a)) -> gated (bind m k).
Proof.
  intros Hm Hk w. rewrite bind_unfold. destruct (Hm w) as [j Hj].
  destruct (m w) as [[a|e] w1]; simpl in Hj; [|eauto].
  destruct (Hk a w1) as [j' Hj']. exists (j + j').
  now rewrite Hj', Hj, <- app_assoc, gatedSends_app.
Qed.

Lemma gated_tryCatch {A} (m : M A) (h : Error -> M A) :
  gated m -> (forall e, gated (h e)) -> gated (tryCatch m h).
Proof.
  intros Hm Hh w. unfold tryCatch. destruct (Hm w) as [j Hj].
  destruct (m w) as [[a|e] w1]; simpl in Hj; [eauto|].
  destruct (Hh e w1) as [j' Hj']. exists (j + j').
  now rewrite Hj', Hj, <- app_assoc, gatedSends_app.
Qed.

Lemma quiet_gateView_signing env bundle kps protocol :
  quiet gateView (completeBundleSigning env bundle kps protocol).
Proof.
  unfold completeBundleSigning, completeBundleSigningWith, createDeveloperBuyFeeTransaction.
  repeat quiet_step. now apply quiet_emit.
Qed.

Lemma gated_sendSigned env bundle : gated (sendSigned env bundle).
Proof.
  intros w. unfold sendSigned.
  destruct (0 <? length (txsOf bundle))%nat; [|exists 0; simpl; now rewrite app_nil_r].
  exists 1. rewrite bind_unfold. unfold checkRateLimit. cbn [emit].
  rewrite bind_unfold. unfold sendBundle at 1. rewrite bind_unfold. cbn [emit].
  match goal with
  | |- context [match ?m ?w1 with _ => _ end] =>
      assert (Hq : quiet gateView m) by repeat quiet_step;
      pose proof (Hq w1) as Hw; destruct (m w1) as [[r|e] w2]
  end; unfold observe, history in Hw |- *; simpl in Hw |- *;
    rewrite Hw, !omap_app; simpl; now rewrite <- app_assoc.
Qed.

Lemma gated_sendEach env bundles : gated (sendEach env bundles).
Proof.
  induction bundles as [|b bundles IH]; simpl.
  - apply gated_quiet, quiet_ret.
  - apply gated_bind; [apply gated_sendSigned | intros _; exact IH].
Qed.

Lemma gated_signAndSendEach env bundles kp protocol :
  gated (signAndSendEach env bundles kp protocol).
Proof.
  induction bundles as [|b bundles IH]; simpl.
  - apply gated_quiet, quiet_ret.
  - apply gated_bind; [apply gated_quiet, quiet_gateView_signing|].
    intros signed. apply gated_bind; [apply gated_sendSigned | intros _; exact IH].
Qed.

Lemma gated_singleWalletTry env config wallet i n :
  gated (singleWalletTry env config wallet i n).
Proof.
  unfold singleWalletTry. apply gated_bind.
  { apply gated_quiet, quiet_prepare. reflexivity. }
  intros bundles. destruct (length bundles =? 0)%nat; [apply gated_quiet, quiet_ret|].
  apply gated_bind; [apply gated_quiet, quiet_lift|]. intros kp.
  apply gated_bind; [apply gated_signAndSendEach|]. intros _.
  apply gated_quiet. repeat quiet_step; now apply quiet_emit.
Qed.

Lemma gated_batchTry env config batch i n : gated (batchTry env config batch i n).
Proof.
  unfold batchTry. apply gated_bind.
  { apply gated_quiet, quiet_prepare. reflexivity. }
  intros bundles. destruct (length bundles =? 0)%nat; [apply gated_quiet, quiet_ret|].
  apply gated_bind; [apply gated_quiet, quiet_lift|]. intros kps.
  apply gated_bind.
  { apply gated_quiet, quiet_promiseAll, Forall_map, Forall_forall.
    intros b _. apply quiet_gateView_signing. }
  intros signed. apply gated_bind; [apply gated_sendEach|]. intros _.
  apply gated_quiet. repeat quiet_step; now apply quiet_emit.
Qed.

Lemma gated_countLoop {U} (tryBlock : U -> nat -> nat -> M bool) units :
  (forall u i n, gated (tryBlock u i n)) ->
  forall i n t, gated (countLoop tryBlock units i n t).
Proof.
  intros Hg. induction units as [|u rest IH]; intros i n t; simpl.
  - apply gated_quiet, quiet_ret.
  - apply gated_bind; [|intros t'; apply IH].
    unfold countUnit. apply gated_tryCatch; [|intros e; apply gated_quiet, quiet_ret].
    apply gated_bind; [apply Hg | intros c; apply gated_quiet, quiet_ret].
Qed.

Lemma quiet_rateLimit_sendStaggered env bundles :
  forall index, quiet isRateLimit (sendStaggered env bundles index).
Proof.
  induction bundles as [|b bundles IH]; intros index; simpl.
  - apply quiet_ret.
  - unfold delay, sendBundle. repeat quiet_step; now apply quiet_emit.
Qed.

(** X9. In single mode and in batch mode every call of [sendBundle] comes
    right after a call of [checkRateLimit] made for it: seen together, the
    two kinds of calls strictly alternate, rate limiter first.  All-in-one
    mode never calls [checkRateLimit]. *)
Theorem relay_calls_rate_limited env wallets config w :
  (exists k, observe gateView (snd (executeBuySingleMode env wallets config w))
             = observe gateView w ++ gatedSends k)
  /\ (exists k, observe gateView (snd (executeBuyBatchMode env wallets config w))
                = observe gateView w ++ gatedSends k)
  /\ rateLimitCalls (snd (executeBuyAllInOneMode env wallets config w))
     = rateLimitCalls w.
Proof.
  split; [|split].
  - unfold executeBuySingleMode. rewrite snd_mode_loop.
    apply (gated_countLoop (singleWalletTry env config) wallets
             (gated_singleWalletTry env config) 0 (length wallets) (mkTally 0 0)
             (mkWorld (trace w) [])).
  - unfold executeBuyBatchMode. rewrite snd_mode_loop.
    apply (gated_countLoop (batchTry env config) (batchLoop wallets 0 [])
             (gated_batchTry env config) 0 _ (mkTally 0 0) (mkWorld (trace w) [])).
  - assert (Hq : quiet isRateLimit (executeBuyAllInOneMode env wallets config)).
    { unfold executeBuyAllInOneMode. apply quiet_bind.
      { apply quiet_prepare. reflexivity. }
      intros bundles. destruct (length bundles =? 0)%nat; [apply quiet_ret|].
      apply quiet_bind; [apply quiet_lift|]. intros kps.
      apply quiet_bind.
      { apply quiet_promiseAll, Forall_map, Forall_forall. intros b _.
        unfold completeBundleSigning, completeBundleSigningWith,
          createDeveloperBuyFeeTransaction.
        repeat quiet_step. now apply quiet_emit. }
      intros signed.
      destruct (length (filter _ signed) =? 0)%nat; [apply quiet_ret|].
      apply quiet_bind; [apply quiet_rateLimit_sendStaggered|].
      intros settled. destruct (foldl tallySettled _ settled). apply quiet_ret. }
    apply Hq.
Qed.

(** *** All-in-one mode *)

Lemma observe_sendBundle env {X} (f : Event -> option X) txs w :
  observe f (snd (sendBundle env txs w)) = observe f w ++ option_list (f (EvSend txs)).
Proof.
  unfold sendBundle. rewrite bind_unfold. cbn [emit].
  match goal with
  | |- observe f (snd (?m ?w1)) = _ =>
      let H := fresh in
      assert (H : quiet f m) by repeat quiet_step; rewrite (H w1)
  end.
  apply (observe_emit f (EvSend txs) w).
Qed.

Lemma sendStaggered_cons env b bundles index w :
  sendStaggered env (b :: bundles) index w
  = let w1 := mkWorld (EvDelay (Z.of_nat index * 100) :: trace w) (results w) in
    let s := match fst (sendBundle env (txsOf b) w1) with
             | Ok r => SentOk r
             | Throw e => SentFailed e
             end in
    let rest := sendStaggered env bundles (S index) (snd (sendBundle env (txsOf b) w1)) in
    (match fst rest with
     | Ok ss => Ok (s :: ss)
     | Throw e => Throw e
     end, snd rest).
Proof.
  cbn [sendStaggered]. rewrite bind_unfold. unfold delay. cbn [emit].
  rewrite bind_unfold. unfold tryCatch. rewrite bind_unfold.
  destruct (sendBundle env (txsOf b) _) as [[r|e] w2]; cbn [ret fst snd];
    rewrite bind_unfold;
    destruct (sendStaggered env bundles (S index) w2) as [[ss|e'] w3]; reflexivity.
Qed.

Lemma sendStaggered_run env bundles : forall index w,
  exists settled,
    fst (sendStaggered env bundles index w) = Ok settled
    /\ length settled = length bundles
    /\ sentBundles (snd (sendStaggered env bundles index w))
       = sentBundles w ++ (txsOf <$> bundles)
    /\ delays (snd (sendStaggered env bundles index w))
       = delays w ++ ((fun i => Z.of_nat i * 100)%Z <$> seq index (length bundles)).
Proof.
  induction bundles as [|b bundles IH]; intros index w.
  - exists []. simpl. now rewrite !app_nil_r.
  - rewrite sendStaggered_cons. cbv zeta.
    set (w1 := mkWorld (EvDelay (Z.of_nat index * 100) :: trace w) (results w)).
    pose proof (observe_sendBundle env isSend (txsOf b) w1) as Hs.
    pose proof (observe_sendBundle env isDelay (txsOf b) w1) as Hd.
    assert (Hw1s : observe isSend w1 = observe isSend w)
      by exact (quiet_emit isSend (EvDelay _) eq_refl w).
    assert (Hw1d : observe isDelay w1 = observe isDelay w ++ [(Z.of_nat index * 100)%Z])
      by exact (observe_emit isDelay (EvDelay _) w).
    destruct (IH (S index) (snd (sendBundle env (txsOf b) w1)))
      as (settled & Hf & Hl & Hsent & Hdel).
    rewrite Hf. cbn [fst snd]. eexists. split; [reflexivity|].
    split; [simpl; now rewrite Hl|].
    unfold sentBundles, delays in *.
    rewrite Hsent, Hdel, Hs, Hd, Hw1s, Hw1d. simpl.
    rewrite <- !app_assoc. split; reflexivity.
Qed.

(** All-in-one mode, stage by stage. *)
Lemma allInOne_run env wallets config w :
  executeBuyAllInOneMode env wallets config w
  = match getPartiallyPreparedTransactions env (map address wallets) config w with
    | (Throw e, w1) => (Throw e, w1)
    | (Ok bundles, w1) =>
        if (length bundles =? 0)%nat
        then (Ok (mkBuyResult false None (Some "No transactions generated.")), w1)
        else
          match mapOutcome (fun wallet => keypairFromSecretKey env (privateKey wallet))
                  wallets with
          | Throw e => (Throw e, w1)
          | Ok kps =>
              match promiseAll (map (fun bundle =>
                      completeBundleSigning env bundle kps (protocol config))
                      (splitLargeBundles bundles)) w1 with
              | (Throw e, w2) => (Throw e, w2)
              | (Ok signed, w2) =>
                  let valid := filter (fun bundle => 0 < length (txsOf bundle)) signed in
                  if (length valid =? 0)%nat
                  then (Ok (mkBuyResult false None (Some "Failed to sign any transactions")),
                        w2)
                  else
                    match sendStaggered env valid 0 w2 with
                    | (Throw e, w3) => (Throw e, w3)
                    | (Ok settled, w3) =>
                        (Ok (let '(rs, t) := foldl tallySettled ([], mkTally 0 0) settled in
                             summary "bundles" t rs), w3)
                    end
              end
          end
    end.
Proof.
  unfold executeBuyAllInOneMode. rewrite bind_unfold.
  destruct (getPartiallyPreparedTransactions env (map address wallets) config w)
    as [[bundles|e] w1]; [|reflexivity].
  destruct (length bundles =? 0)%nat; [reflexivity|].
  rewrite bind_unfold. unfold lift.
  destruct (mapOutcome _ wallets) as [kps|e]; [|reflexivity].
  rewrite bind_unfold.
  destruct (promiseAll _ w1) as [[signed|e] w2]; [|reflexivity].
  cbv zeta. destruct (length (filter _ signed) =? 0)%nat; [reflexivity|].
  rewrite bind_unfold.
  destruct (sendStaggered env _ 0 w2) as [[settled|e] w3]; [|reflexivity].
  destruct (foldl tallySettled _ settled). reflexivity.
Qed.

Lemma quiet_send_signAll env bundles kps protocol :
  quiet isSend (promiseAll (map (fun bundle =>
    completeBundleSigning env bundle kps protocol) bundles)).
Proof.
  apply quiet_promiseAll, Forall_map, Forall_forall. intros b _.
  unfold completeBundleSigning, completeBundleSigningWith, createDeveloperBuyFeeTransaction.
  repeat quiet_step. now apply quiet_emit.
Qed.

(** What all-in-one mode has observably done up to the point where it
    submits: one preparation call, no submission and no wait. *)
Lemma allInOne_before_sending env wallets config w bundles w1 kps r w2 :
  getPartiallyPreparedTransactions env (map address wallets) config w = (Ok bundles, w1) ->
  promiseAll (map (fun bundle => completeBundleSigning env bundle kps (protocol config))
                (splitLargeBundles bundles)) w1 = (r, w2) ->
  sentBundles w2 = sentBundles w /\ delays w2 = delays w.
Proof.
  intros Hprep Hsign. unfold sentBundles, delays.
  pose proof (quiet_prepare env isSend (map address wallets) config (fun _ => eq_refl) w)
    as Hps.
  pose proof (quiet_prepare env isDelay (map address wallets) config (fun _ => eq_refl) w)
    as Hpd.
  pose proof (quiet_send_signAll env (splitLargeBundles bundles) kps (protocol config) w1)
    as Hss.
  pose proof (quiet_signAll env isDelay isDelay_aboveSending (splitLargeBundles bundles) kps
                (protocol config) w1) as Hsd.
  rewrite Hprep in Hps, Hpd. rewrite Hsign in Hss, Hsd. cbn [snd] in *.
  split; congruence.
Qed.

(** X10. The submissions of all-in-one mode.  Whatever the collaborators
    answer, what the mode hands to [sendBundle] is a list of bundles none
    of which is empty, submission number [i] coming after a wait of
    [100 * i] milliseconds.  When preparation, key decoding and signing all
    went through, these are exactly the signed bundles that hold at least
    one transaction, in array order, whether or not an earlier submission
    failed, and the mode returns a result; when the mode throws, nothing
    was submitted. *)
Theorem allInOne_submits_signed_bundles env wallets config w :
  let w' := snd (executeBuyAllInOneMode env wallets config w) in
  exists submitted : list BuyBundle,
    sentBundles w' = sentBundles w ++ (txsOf <$> submitted)
    /\ delays w'
       = delays w ++ ((fun i => Z.of_nat i * 100)%Z <$> seq 0 (length submitted))
    /\ Forall (fun bundle => txsOf bundle <> []) submitted
    /\ (forall bundles w1 kps signed w2,
          getPartiallyPreparedTransactions env (map address wallets) config w
          = (Ok bundles, w1) ->
          mapOutcome (fun wallet => keypairFromSecretKey env (privateKey wallet)) wallets
          = Ok kps ->
          promiseAll (map (fun bundle =>
                       completeBundleSigning env bundle kps (protocol config))
                       (splitLargeBundles bundles)) w1 = (Ok signed, w2) ->
          submitted = filter (fun bundle => 0 < length (txsOf bundle)) signed
          /\ exists res, fst (executeBuyAllInOneMode env wallets config w) = Ok res)
    /\ (forall e, fst (executeBuyAllInOneMode env wallets config w) = Throw e ->
        submitted = []).
Proof.
  cbv zeta. rewrite allInOne_run.
  assert (Hnone : forall w1,
            sentBundles w1 = sentBundles w -> delays w1 = delays w ->
            sentBundles w1 = sentBundles w ++ (txsOf <$> [])
            /\ delays w1 = delays w ++ ((fun i => Z.of_nat i * 100)%Z <$> seq 0 0)
            /\ Forall (fun bundle : BuyBundle => txsOf bundle <> []) []).
  { intros w1 -> ->. simpl. rewrite !app_nil_r. auto. }
  pose proof (quiet_prepare env isSend (map address wallets) config (fun _ => eq_refl) w)
    as Hps.
  pose proof (quiet_prepare env isDelay (map address wallets) config (fun _ => eq_refl) w)
    as Hpd.
  destruct (getPartiallyPreparedTransactions env (map address wallets) config w)
    as [[bundles|e] w1] eqn:Hprep; cbn [snd] in Hps, Hpd.
  2:{ exists []. destruct (Hnone w1 Hps Hpd) as (H1 & H2 & H3).
      refine (conj H1 (conj H2 (conj H3 (conj _ _)))); [|reflexivity].
      intros ? ? ? ? ? [=]. }
  destruct (length bundles =? 0)%nat eqn:Hlen.
  { exists []. destruct (Hnone w1 Hps Hpd) as (H1 & H2 & H3).
    refine (conj H1 (conj H2 (conj H3 (conj _ _)))); [|intros e [=]].
    intros bundles' w1' kps signed w2 [= <- <-] _ Hsign.
    apply Nat.eqb_eq, nil_length_inv in Hlen. subst bundles.
    cbn in Hsign. injection Hsign as <- _. split; [reflexivity | eauto]. }
  destruct (mapOutcome (fun wallet => keypairFromSecretKey env (privateKey wallet)) wallets)
    as [kps|e] eqn:Hkeys.
  2:{ exists []. destruct (Hnone w1 Hps Hpd) as (H1 & H2 & H3).
      refine (conj H1 (conj H2 (conj H3 (conj _ _)))); [|reflexivity].
      intros ? ? ? ? ? _ [=]. }
  destruct (promiseAll (map (fun bundle =>
              completeBundleSigning env bundle kps (protocol config))
              (splitLargeBundles bundles)) w1) as [[signed|e] w2] eqn:Hsign.
  2:{ destruct (allInOne_before_sending env wallets config w bundles w1 kps _ w2 Hprep Hsign)
        as [Hs Hd].
      exists []. destruct (Hnone w2 Hs Hd) as (H1 & H2 & H3).
      refine (conj H1 (conj H2 (conj H3 (conj _ _)))); [|reflexivity].
      intros bundles' w1' kps' signed w2' [= <- <-] [= <-] Hsign'.
      rewrite Hsign in Hsign'. discriminate Hsign'. }
  destruct (allInOne_before_sending env wallets config w bundles w1 kps _ w2 Hprep Hsign)
    as [Hs Hd].
  cbv zeta.
  set (valid := filter (fun bundle => 0 < length (txsOf bundle)) signed).
  assert (Hvalid : Forall (fun bundle : BuyBundle => txsOf bundle <> []) valid).
  { apply Forall_forall. intros b Hb. apply list_elem_of_filter in Hb as [Hpos _].
    intros Heq. rewrite Heq in Hpos. simpl in Hpos. lia. }
  destruct (length valid =? 0)%nat eqn:Hv.
  { apply Nat.eqb_eq, nil_length_inv in Hv.
    exists []. destruct (Hnone w2 Hs Hd) as (H1 & H2 & H3).
    refine (conj H1 (conj H2 (conj H3 (conj _ _)))); [|intros e [=]].
    intros bundles' w1' kps' signed' w2' [= <- <-] [= <-] Hsign'.
    rewrite Hsign in Hsign'. injection Hsign' as <- _.
    fold valid. rewrite Hv. split; [reflexivity | eauto]. }
  destruct (sendStaggered_run env valid 0 w2) as (settled & Hf & _ & Hsent & Hdel).
  destruct (sendStaggered env valid 0 w2) as [[settled'|e] w3];
    cbn [fst snd] in Hf, Hsent, Hdel |- *; [|discriminate Hf].
  exists valid. rewrite Hsent, Hdel, Hs, Hd.
  refine (conj eq_refl (conj eq_refl (conj Hvalid (conj _ _)))); [|intros e [=]].
  intros bundles' w1' kps' signed' w2' [= <- <-] [= <-] Hsign'.
  rewrite Hsign in Hsign'. injection Hsign' as <- _. split; [reflexivity | eauto].
Qed.

Lemma tallySettled_counts settled : forall rs t,
  foldl tallySettled (rs, t) settled
  = (rs ++ omap definedResult settled,
     mkTally (succeeded t + count true (isSentOk <$> settled))
             (failed t + count false (isSentOk <$> settled))).
Proof.
  induction settled as [|s settled IH]; intros rs t.
  - simpl. destruct t. simpl. now rewrite app_nil_r, !Nat.add_0_r.
  - cbn [foldl]. destruct s as [[r|]|e]; unfold tallySettled at 2; cbn [fst snd];
      rewrite IH; simpl; rewrite <- ?app_assoc; simpl;
      rewrite ?Nat.add_succ_r; reflexivity.
Qed.

Lemma count_true_pos l : 0 < count true l <-> true ∈ l.
Proof.
  induction l as [|[] l IH]; simpl.
  - split; [lia | intros H; inversion H].
  - split; [intros _; apply elem_of_cons; now left | lia].
  - rewrite IH. split; [intros H; apply elem_of_cons; now right|].
    intros H. apply elem_of_cons in H as [H|H]; [discriminate H | exact H].
Qed.

Lemma count_false_zero l : count false l = 0 <-> forall b, b ∈ l -> b = true.
Proof.
  induction l as [|[] l IH]; simpl.
  - split; auto. intros _ b Hb. inversion Hb.
  - rewrite IH. split.
    + intros H b Hb. apply elem_of_cons in Hb as [->|Hb]; auto.
    + intros H b Hb. apply H, elem_of_cons. now right.
  - split; [discriminate|]. intros H.
    specialize (H false ltac:(apply elem_of_cons; now left)). discriminate H.
Qed.

Lemma count_total l : count true l + count false l = length l.
Proof. induction l as [|[] l IH]; simpl; lia. Qed.

(** How the settled submissions are folded into a result. *)
Lemma tallySettled_summary (settled : list Settled) :
  let '(rs, t) := foldl tallySettled ([], mkTally 0 0) settled in
  let res := summary "bundles" t rs in
  (success res = true <-> exists r, SentOk r ∈ settled)
  /\ (error res = None <-> forall s, s ∈ settled -> isSentOk s = true)
  /\ succeeded t = count true (isSentOk <$> settled)
  /\ failed t = count false (isSentOk <$> settled)
  /\ result res = Some (omap definedResult settled).
Proof.
  rewrite tallySettled_counts. cbn [summary success error result succeeded failed].
  rewrite !Nat.add_0_l, app_nil_l.
  refine (conj _ (conj _ (conj eq_refl (conj eq_refl eq_refl)))).
  - rewrite Nat.ltb_lt, count_true_pos. rewrite list_elem_of_fmap. split.
    + intros ([r|e] & Hok & Hin); [eauto | discriminate Hok].
    + intros [r Hin]. exists (SentOk r). auto.
  - transitivity (count false (isSentOk <$> settled) = 0).
    + destruct (count false (isSentOk <$> settled)); simpl; split;
        try discriminate; reflexivity.
    + rewrite count_false_zero. split.
      * intros H s Hs. apply H, list_elem_of_fmap. eauto.
      * intros H b Hb. apply list_elem_of_fmap in Hb as (s & -> & Hs). auto.
Qed.

(** X11. The result of all-in-one mode, when it returns one.  Either the
    builder returned no bundle, or no signed bundle holds a transaction:
    then [success] is false with the matching error and nothing was
    submitted.  Or every signed bundle that is not empty was submitted and
    the result is folded from the settled submissions, one per bundle:
    [success] holds exactly when at least one went through, the error
    string is absent exactly when none failed and otherwise gives both
    counts, and [result] lists, in order, the relay results that were
    defined. *)
Theorem allInOne_result env wallets config w res :
  fst (executeBuyAllInOneMode env wallets config w) = Ok res ->
  let w' := snd (executeBuyAllInOneMode env wallets config w) in
  (exists w1,
     getPartiallyPreparedTransactions env (map address wallets) config w = (Ok [], w1)
     /\ res = mkBuyResult false None (Some "No transactions generated.")
     /\ sentBundles w' = sentBundles w)
  \/ exists bundles w1 kps signed w2,
       getPartiallyPreparedTransactions env (map address wallets) config w
       = (Ok bundles, w1)
       /\ mapOutcome (fun wallet => keypairFromSecretKey env (privateKey wallet)) wallets
          = Ok kps
       /\ promiseAll (map (fun bundle =>
                        completeBundleSigning env bundle kps (protocol config))
                        (splitLargeBundles bundles)) w1 = (Ok signed, w2)
       /\ let valid := filter (fun bundle => 0 < length (txsOf bundle)) signed in
          (valid = []
           /\ res = mkBuyResult false None (Some "Failed to sign any transactions")
           /\ sentBundles w' = sentBundles w)
          \/ exists settled,
               sendStaggered env valid 0 w2 = (Ok settled, w')
               /\ length settled = length valid
               /\ 0 < length settled
               /\ sentBundles w' = sentBundles w ++ (txsOf <$> valid)
               /\ (success res = true <-> exists r, SentOk r ∈ settled)
               /\ (error res = None <-> forall s, s ∈ settled -> isSentOk s = true)
               /\ (forall msg, error res = Some msg ->
                     msg = (showNat (count false (isSentOk <$> settled))
                            ++ " bundles failed, "
                            ++ showNat (count true (isSentOk <$> settled))
                            ++ " succeeded")%string)
               /\ result res = Some (omap definedResult settled).
Proof.
  cbv zeta. rewrite allInOne_run.
  destruct (getPartiallyPreparedTransactions env (map address wallets) config w)
    as [[bundles|e] w1] eqn:Hprep; [|discriminate].
  pose proof (quiet_prepare env isSend (map address wallets) config (fun _ => eq_refl) w)
    as Hps.
  rewrite Hprep in Hps. cbn [snd] in Hps.
  destruct (length bundles =? 0)%nat eqn:Hlen.
  { apply Nat.eqb_eq, nil_length_inv in Hlen. subst bundles.
    cbn [fst snd]. intros [= <-]. left. eauto. }
  destruct (mapOutcome (fun wallet => keypairFromSecretKey env (privateKey wallet)) wallets)
    as [kps|e] eqn:Hkeys; [|discriminate].
  destruct (promiseAll (map (fun bundle =>
              completeBundleSigning env bundle kps (protocol config))
              (splitLargeBundles bundles)) w1) as [[signed|e] w2] eqn:Hsign; [|discriminate].
  destruct (allInOne_before_sending env wallets config w bundles w1 kps _ w2 Hprep Hsign)
    as [Hs Hd].
  cbv zeta.
  set (valid := filter (fun bundle => 0 < length (txsOf bundle)) signed).
  intros Hres. right. exists bundles, w1, kps, signed, w2.
  refine (conj eq_refl (conj eq_refl (conj Hsign _))). fold valid.
  destruct (length valid =? 0)%nat eqn:Hv.
  { apply Nat.eqb_eq, nil_length_inv in Hv. cbn [fst snd] in Hres |- *.
    injection Hres as <-. left. auto. }
  right. apply Nat.eqb_neq in Hv.
  destruct (sendStaggered_run env valid 0 w2) as (settled & Hf & Hl & Hsent & _).
  destruct (sendStaggered env valid 0 w2) as [[settled'|e] w3];
    cbn [fst snd] in Hf, Hsent, Hres |- *; [|discriminate Hf].
  injection Hf as ->. injection Hres as <-. exists settled.
  pose proof (tallySettled_summary settled) as Hsum.
  pose proof (tallySettled_counts settled [] (mkTally 0 0)) as Hcounts.
  destruct (foldl tallySettled ([], mkTally 0 0) settled) as [rs t].
  injection Hcounts as -> ->.
  destruct Hsum as (H1 & H2 & _ & _ & H5).
  refine (conj eq_refl (conj Hl (conj _ (conj _ (conj H1 (conj H2 (conj _ H5))))))).
  - rewrite Hl. lia.
  - now rewrite Hsent, Hs.
  - intros msg. cbn [summary error failed succeeded].
    destruct (0 <? count false (isSentOk <$> settled))%nat; [|discriminate].
    intros [= <-]. reflexivity.
Qed.

Lemma allInOne_result_witness :
  let run := executeBuyAllInOneMode
               (Scenarios.demoEnv (fun _ => Scenarios.oneBundle) Scenarios.relayAccepts
                  (Ok "fee-tx"))
               Scenarios.fiveWallets (Scenarios.buyConfig "auto" "all-in-one") freshWorld in
  exists res, fst run = Ok res /\ success res = true /\ length (sentBundles (snd run)) = 1.
Proof.
  intros run.
  destruct (fst run) as [res|e] eqn:Hres; [|vm_compute in Hres; discriminate Hres].
  pose proof (allInOne_result _ _ _ _ res Hres) as Hcases.
  exists res. split; [reflexivity|].
  assert (Hok : Some res = match fst run with Ok r => Some r | Throw _ => None end)
    by now rewrite Hres.
  vm_compute in Hok. injection Hok as ->. split; vm_compute; reflexivity.
Defined.

(** *** More on single mode *)

(** Single mode waits [singleDelay || 200] after a wallet exactly when the
    wallet's [try] block ran to its end and the wallet is not the last. *)
Lemma singleWalletTry_delays env config wallet i n w :
  delays (snd (singleWalletTry env config wallet i n w))
  = delays w
    ++ (if ranToEnd (fst (singleWalletTry env config wallet i n w)) && (S i <? n)%nat
        then [numOr (singleDelay config) 200] else []).
Proof.
  unfold delays, singleWalletTry.
  run_quiet (quiet_prepare env isDelay [address wallet] config ltac:(reflexivity)).
  destruct (length _ =? 0)%nat; simpl; [now rewrite app_nil_r|].
  run_quiet (quiet_lift isDelay (keypairFromSecretKey env (privateKey wallet))).
  match goal with
  | |- context [signAndSendEach env ?bs ?kp ?p] =>
      run_quiet (quiet_signAndSendEach env isDelay isDelay_aboveSending bs kp p)
  end.
  rewrite bind_unfold. destruct (S i <? n)%nat; simpl; [|now rewrite app_nil_r].
  apply (observe_emit isDelay).
Qed.

(** X12. Single mode waits [singleDelay] (200 when unset or zero) after
    each wallet whose processing ran to its end, except the last wallet;
    when no wallet fails that is one wait between consecutive wallets. *)
Theorem single_mode_waits env wallets config w :
  let outcomes :=
    unitOutcomes (singleWalletTry env config) wallets 0 (length wallets)
      (mkWorld (trace w) []) in
  let w' := snd (executeBuySingleMode env wallets config w) in
  let wait := numOr (singleDelay config) 200 in
  delays w' = delays w ++ replicate (count true (removelast outcomes)) wait
  /\ (count false outcomes = 0 ->
      delays w' = delays w ++ replicate (length wallets - 1) wait).
Proof.
  intros outcomes w' wait.
  assert (Hd : delays w' = delays w ++ replicate (count true (removelast outcomes)) wait).
  { unfold w', executeBuySingleMode. rewrite snd_mode_loop. unfold delays at 1.
    rewrite (countLoop_observe_between (singleWalletTry env config) isDelay wait wallets
               (singleWalletTry_delays env config)) by reflexivity.
    reflexivity. }
  split; [exact Hd|].
  intros Hnone. rewrite Hd, count_removelast_all_true by exact Hnone.
  unfold outcomes. now rewrite unitOutcomes_length.
Qed.

Lemma single_mode_waits_witness :
  delays (snd (executeBuySingleMode
                 (Scenarios.demoEnv (fun _ => Scenarios.oneBundle) Scenarios.relayAccepts
                    (Ok "fee-tx"))
                 Scenarios.fiveWallets (Scenarios.buyConfig "auto" "single") freshWorld))
  = [200; 200; 200; 200]%Z.
Proof.
  apply (single_mode_waits
           (Scenarios.demoEnv (fun _ => Scenarios.oneBundle) Scenarios.relayAccepts
              (Ok "fee-tx"))
           Scenarios.fiveWallets (Scenarios.buyConfig "auto" "single") freshWorld).
  vm_compute. reflexivity.
Defined.

Lemma unitOutcomes_all_ran {U} (tryBlock : U -> nat -> nat -> M bool) units :
  (forall u i n w, ranToEnd (fst (tryBlock u i n w)) = true) ->
  forall i n w,
    count true (unitOutcomes tryBlock units i n w) = length units
    /\ count false (unitOutcomes tryBlock units i n w) = 0.
Proof.
  intros Hall. induction units as [|u rest IH]; intros i n w; [auto|].
  simpl. rewrite Hall. destruct (IH (S i) n (snd (tryBlock u i n w))) as [-> ->].
  auto.
Qed.

Lemma countLoop_results {U} (tryBlock : U -> nat -> nat -> M bool) units :
  (forall u i n w, results (snd (tryBlock u i n w)) = results w) ->
  forall i n t w, results (snd (countLoop tryBlock units i n t w)) = results w.
Proof.
  intros Hr. induction units as [|u rest IH]; intros i n t w; [reflexivity|].
  now rewrite countLoop_cons, IH, Hr.
Qed.

(** X13. A builder that answers [success] with an empty flat [transactions]
    array: for a protocol without fee, single mode signs an empty bundle
    for each wallet, hands nothing to [sendBundle], and still counts every
    wallet as succeeded, so the result is [success: true] with no error. *)
Theorem empty_transactions_counted_as_success env wallets config w :
  truthy (baseUrl env) = true ->
  feeProtocol (protocol config) = false ->
  (forall h addrs, fetchBuy env h addrs config
                   = Ok (mkBuyResponse true 200
                           (Ok (DataObject true None None (Some []) None)))) ->
  (forall sk, exists kp, keypairFromSecretKey env sk = Ok kp) ->
  wallets <> [] ->
  fst (executeBuySingleMode env wallets config w) = Ok (mkBuyResult true (Some []) None)
  /\ sentBundles (snd (executeBuySingleMode env wallets config w)) = sentBundles w.
Proof.
  intros Hurl Hfee Hfetch Hkeys Hne.
  assert (Htry : forall wallet i n w0,
    singleWalletTry env config wallet i n w0
    = (Ok true,
       mkWorld ((if (S i <? n)%nat then [EvDelay (numOr (singleDelay config) 200)] else [])
                ++ EvPrepare [address wallet] :: trace w0) (results w0))).
  { intros wallet i n w0. unfold singleWalletTry, getPartiallyPreparedTransactions.
    unfold bind, emit, getTrace, lift. rewrite Hurl. cbn beta iota. rewrite Hfetch. cbn.
    destruct (Hkeys (privateKey wallet)) as [kp ->]. cbn.
    unfold completeBundleSigning, completeBundleSigningWith, bind, lift. cbn.
    rewrite Hfee. cbn.
    match goal with |- context [if ?c then delay _ else _] => destruct c end; reflexivity. }
  assert (Hran : forall u i n w0,
    ranToEnd (fst (singleWalletTry env config u i n w0)) = true)
    by (intros; now rewrite Htry).
  split.
  - unfold executeBuySingleMode. rewrite fst_mode_loop.
    destruct (unitOutcomes_all_ran (singleWalletTry env config) wallets Hran 0
                (length wallets) (mkWorld (trace w) [])) as [-> ->].
    rewrite (countLoop_results (singleWalletTry env config) wallets)
      by (intros; now rewrite Htry).
    unfold summary. cbn [succeeded failed results Nat.ltb Nat.leb].
    destruct wallets; [contradiction | reflexivity].
  - unfold executeBuySingleMode. rewrite snd_mode_loop. unfold sentBundles.
    rewrite (countLoop_quiet (singleWalletTry env config) isSend wallets); [reflexivity|].
    intros u i n w0. rewrite Htry. cbn [snd]. unfold observe, history. cbn [trace].
    destruct (S i <? n)%nat; simpl; rewrite !omap_app; simpl; now rewrite ?app_nil_r.
Qed.

Lemma empty_transactions_counted_as_success_witness :
  let env := mkEnv (Some "http://localhost:3000")
               (fun _ _ _ => Ok (mkBuyResponse true 200
                                   (Ok (DataObject true None None (Some []) None))))
               (fun _ _ => Ok (Ok Scenarios.relayAccepts))
               (fun sk => Ok (mkKeypair sk sk)) (fun tx => Ok (mkTransaction [] tx))
               (fun t _ => Ok (payload t)) (fun _ _ => Ok "fee") in
  fst (executeBuySingleMode env Scenarios.fiveWallets
         (Scenarios.buyConfig "auto" "single") freshWorld)
  = Ok (mkBuyResult true (Some []) None).
Proof.
  intros env.
  apply (empty_transactions_counted_as_success env Scenarios.fiveWallets
           (Scenarios.buyConfig "auto" "single") freshWorld);
    try reflexivity; try discriminate.
  intros sk. eexists. reflexivity.
Defined.

(** *** validateBuyInputs and createBuyConfig *)

Lemma indexOf_lookup (wallets : list WalletSlot) k ref wallet :
  NoDup (fst <$> wallets) ->
  wallets !! k = Some (ref, wallet) ->
  indexOf wallets ref = Some k.
Proof.
  revert k. induction wallets as [|[r w0] wallets IH]; intros k Hnd Hk; [inversion Hk|].
  simpl in Hnd. apply NoDup_cons in Hnd as [Hnotin Hnd].
  destruct k as [|k]; simpl in *.
  - injection Hk as -> ->. now rewrite Nat.eqb_refl.
  - destruct (r =? ref)%nat eqn:Heq.
    + apply Nat.eqb_eq in Heq. subst r. exfalso. apply Hnotin.
      apply list_elem_of_fmap. exists (ref, wallet). split; [reflexivity|].
      apply list_elem_of_lookup. eauto.
    + now rewrite (IH k Hnd Hk).
Qed.

(** What the wallet loop checks of one slot. *)
Definition slotOk (wallets : list WalletSlot) (config : BuyConfig)
    (walletBalances : gmap string Z) (slot : WalletSlot) : Prop :=
  truthy (address (snd slot)) = true
  /\ truthy (privateKey (snd slot)) = true
  /\ forall a,
       match amounts config with
       | Some custom => indexOf wallets (fst slot) ≫= (fun i => custom !! i)
       | None => Some (solAmount config)
       end = Some a ->
       (a <= default 0 (walletBalances !! address (snd slot)))%Z.

Lemma checkWallets_None wallets config walletBalances rest :
  checkWallets wallets rest config walletBalances = None
  <-> Forall (slotOk wallets config walletBalances) rest.
Proof.
  induction rest as [|[ref wallet] rest IH]; simpl.
  - split; [constructor | reflexivity].
  - rewrite Forall_cons, <- IH. unfold slotOk. cbn [fst snd].
    destruct (truthy (address wallet)); simpl;
      [|split; [discriminate | intros [[H _] _]; discriminate H]].
    destruct (truthy (privateKey wallet)); simpl;
      [|split; [discriminate | intros [(_ & H & _) _]; discriminate H]].
    destruct (amounts config) as [custom|].
    + destruct (indexOf wallets ref ≫= (fun i => custom !! i)) as [a|].
      * destruct (Z.ltb_spec (default 0%Z (walletBalances !! address wallet)) a).
        -- split; [discriminate|]. intros [(_ & _ & H') _].
           specialize (H' a eq_refl). lia.
        -- split; [|tauto]. intros Hrest. repeat split; auto.
           intros a' [= <-]. lia.
      * split; [|tauto]. intros Hrest. repeat split; auto. discriminate.
    + destruct (Z.ltb_spec (default 0%Z (walletBalances !! address wallet))
                  (solAmount config)).
      * split; [discriminate|]. intros [(_ & _ & H') _].
        specialize (H' _ eq_refl). lia.
      * split; [|tauto]. intros Hrest. repeat split; auto.
        intros a' [= <-]. lia.
Qed.

Lemma includesStr_spec l x : includesStr l x = true <-> x ∈ l.
Proof.
  unfold includesStr. rewrite existsb_exists. split.
  - intros (y & Hy & Heq). apply String.eqb_eq in Heq. subst y.
    now apply list_elem_of_In.
  - intros Hx. exists x. split; [now apply list_elem_of_In | apply String.eqb_refl].
Qed.

Lemma allPositive_spec l : allPositive l = true <-> Forall (fun a => (0 < a)%Z) l.
Proof.
  unfold allPositive. rewrite forallb_forall, Forall_forall. split.
  - intros H a Ha. apply Z.ltb_lt, H. now apply list_elem_of_In.
  - intros H a Ha. apply Z.ltb_lt, H. now apply list_elem_of_In.
Qed.

(** X14. [validateBuyInputs], for wallet objects that are pairwise distinct:
    the inputs are accepted exactly when the token address is not empty, the
    protocol is one of the supported ones, the SOL amount is positive,
    custom amounts (if any) are as many as the wallets and all positive, the
    slippage (if any) is not negative, there is at least one wallet, and
    every wallet has an address, a private key and a known balance of at
    least the amount it has to spend (a wallet missing from the balance
    map counts as holding 0).  A rejection always carries a message, an
    acceptance never. *)
Theorem validateBuyInputs_accepts_iff (wallets : list WalletSlot) config
    (walletBalances : gmap string Z) :
  NoDup (fst <$> wallets) ->
  (valid (validateBuyInputs wallets config walletBalances) = true <->
   truthy (tokenAddress config) = true
   /\ protocol config ∈ supportedProtocols
   /\ (0 < solAmount config)%Z
   /\ (forall custom, amounts config = Some custom ->
         length custom = length wallets /\ Forall (fun a => (0 < a)%Z) custom)
   /\ (forall sl, slippageBps config = Some sl -> (0 <= sl)%Z)
   /\ wallets <> []
   /\ (forall k ref wallet a,
         wallets !! k = Some (ref, wallet) ->
         requiredAmount config k = Some a ->
         truthy (address wallet) = true
         /\ truthy (privateKey wallet) = true
         /\ (a <= default 0 (walletBalances !! address wallet))%Z))
  /\ (valid (validateBuyInputs wallets config walletBalances) = true <->
      verror (validateBuyInputs wallets config walletBalances) = None).
Proof.
  intros Hnd.
  assert (Hslots :
    (amounts config = None \/ exists custom, amounts config = Some custom
                                            /\ length custom = length wallets) ->
    Forall (slotOk wallets config walletBalances) wallets
    <-> forall k ref wallet a,
          wallets !! k = Some (ref, wallet) ->
          requiredAmount config k = Some a ->
          truthy (address wallet) = true
          /\ truthy (privateKey wallet) = true
          /\ (a <= default 0 (walletBalances !! address wallet))%Z).
  { intros Hlen. rewrite Forall_lookup. unfold slotOk, requiredAmount. split.
    - intros H k ref wallet a Hk Ha. destruct (H k _ Hk) as (H1 & H2 & H3).
      cbn [fst snd] in *. repeat split; auto. apply H3.
      destruct (amounts config); [|exact Ha].
      rewrite (indexOf_lookup wallets k ref wallet Hnd Hk). exact Ha.
    - intros H k [ref wallet] Hk. cbn [fst snd].
      assert (Hsome : exists a, match amounts config with
                                | Some custom => custom !! k
                                | None => Some (solAmount config)
                                end = Some a).
      { destruct Hlen as [->|(custom & -> & Hl)]; [eauto|].
        apply lookup_lt_is_Some. rewrite Hl. apply lookup_lt_is_Some. eauto. }
      destruct Hsome as [a0 Ha0]. destruct (H k ref wallet a0 Hk Ha0) as (H1 & H2 & _).
      repeat split; auto. intros a Ha. apply (H k ref wallet a Hk).
      destruct (amounts config); [|exact Ha].
      rewrite (indexOf_lookup wallets k ref wallet Hnd Hk) in Ha. exact Ha. }
  unfold validateBuyInputs, checkAmounts.
  destruct (truthy (tokenAddress config)); cbn [negb valid verror invalid];
    [|split; split; try discriminate; intros (H & _); discriminate H].
  destruct (truthy (protocol config)) eqn:Hp; cbn [negb valid verror invalid].
  2:{ split; split; try discriminate. intros (_ & H & _).
      apply includesStr_spec in H. destruct (protocol config); [|discriminate Hp].
      vm_compute in H. discriminate H. }
  destruct (includesStr supportedProtocols (protocol config)) eqn:Hs; cbn [negb valid verror invalid].
  2:{ split; split; try discriminate. intros (_ & H & _).
      apply includesStr_spec in H. congruence. }
  apply includesStr_spec in Hs.
  destruct (Z.leb_spec (solAmount config) 0); cbn [negb valid verror invalid];
    [split; split; try discriminate; intros (_ & _ & H' & _); lia|].
  destruct (amounts config) as [custom|] eqn:Hc.
  - destruct (Nat.eqb_spec (length custom) (length wallets)) as [Hl|Hl]; cbn [negb valid verror invalid].
    2:{ split; split; try discriminate. intros (_ & _ & _ & H' & _).
        destruct (H' custom eq_refl). contradiction. }
    destruct (allPositive custom) eqn:Hpos; cbn [negb valid verror invalid].
    2:{ split; split; try discriminate. intros (_ & _ & _ & H' & _).
        destruct (H' custom eq_refl) as [_ Hall]. apply allPositive_spec in Hall.
        congruence. }
    apply allPositive_spec in Hpos.
    destruct (slippageBps config) as [sl|] eqn:Hsl;
      [destruct (Z.ltb_spec sl 0); cbn [negb valid verror invalid];
         [split; split; try discriminate; intros (_ & _ & _ & _ & H' & _);
            specialize (H' sl eq_refl); lia|]|];
      (destruct wallets as [|slot wallets']; cbn [negb valid verror invalid];
         [split; split; try discriminate; intros (_ & _ & _ & _ & _ & H' & _);
            contradiction|]);
      (destruct (checkWallets (slot :: wallets') (slot :: wallets') config walletBalances)
         as [msg|] eqn:Hw; cbn [negb valid verror invalid];
         [split; split; try discriminate;
            intros (_ & _ & _ & _ & _ & _ & H'); apply Hslots in H'; eauto;
            apply checkWallets_None in H'; congruence
         |apply checkWallets_None in Hw; split; [|tauto];
            split; [intros _|reflexivity];
            repeat split; auto; try congruence; try (intros ? [= <-]; auto; lia);
            eapply Hslots; eauto]).
  - destruct (slippageBps config) as [sl|] eqn:Hsl;
      [destruct (Z.ltb_spec sl 0); cbn [negb valid verror invalid];
         [split; split; try discriminate; intros (_ & _ & _ & _ & H' & _);
            specialize (H' sl eq_refl); lia|]|];
      (destruct wallets as [|slot wallets']; cbn [negb valid verror invalid];
         [split; split; try discriminate; intros (_ & _ & _ & _ & _ & H' & _);
            contradiction|]);
      (destruct (checkWallets (slot :: wallets') (slot :: wallets') config walletBalances)
         as [msg|] eqn:Hw; cbn [negb valid verror invalid];
         [split; split; try discriminate;
            intros (_ & _ & _ & _ & _ & _ & H'); apply Hslots in H'; eauto;
            apply checkWallets_None in H'; congruence
         |apply checkWallets_None in Hw; split; [|tauto];
            split; [intros _|reflexivity];
            repeat split; auto; try congruence; try (intros ? [= <-]; auto; lia);
            eapply Hslots; eauto]).
Qed.

Lemma validateBuyInputs_accepts_iff_witness :
  NoDup (fst <$> Scenarios.twoSlots)
  /\ valid (validateBuyInputs Scenarios.twoSlots (Scenarios.buyConfig "auto" "batch")
             Scenarios.twoBalances) = true.
Proof.
  assert (Hnd : NoDup (fst <$> Scenarios.twoSlots)).
  { apply (bool_decide_unpack _). vm_compute. exact I. }
  split; [exact Hnd|].
  pose proof (validateBuyInputs_accepts_iff Scenarios.twoSlots
                (Scenarios.buyConfig "auto" "batch") Scenarios.twoBalances Hnd) as [_ H].
  apply H. vm_compute. reflexivity.
Defined.

(** X15. [createBuyConfig] always yields a configuration with a non-empty
    protocol and a non-empty bundle mode ('auto' and 'batch' when the
    argument leaves them out or empty), copies the other fields, and changes
    nothing when applied to its own result.  [validateBuyInputs] therefore
    never answers 'Protocol is required' for such a configuration, and
    [executeBuy] runs it in batch mode when no mode was given. *)
Theorem createBuyConfig_defaults (input : BuyConfigInput) :
  let config := createBuyConfig input in
  truthy (protocol config) = true
  /\ (exists mode, bundleMode config = Some mode /\ truthy mode = true)
  /\ (forall p, i_protocol input = Some p -> truthy p = true -> protocol config = p)
  /\ (forall m, i_bundleMode input = Some m -> truthy m = true -> bundleMode config = Some m)
  /\ (tokenAddress config, solAmount config, amounts config, slippageBps config,
       jitoTipLamports config, batchDelay config, singleDelay config)
     = (i_tokenAddress input, i_solAmount input, i_amounts input, i_slippageBps input,
        i_jitoTipLamports input, i_batchDelay input, i_singleDelay input)
  /\ createBuyConfig (asInput config) = config
  /\ (forall wallets walletBalances,
        verror (validateBuyInputs wallets config walletBalances)
        <> Some "Protocol is required")
  /\ (strOr (i_bundleMode input) EmptyString = EmptyString ->
      forall env wallets,
        executeBuy env wallets config
        = tryCatch (executeBuyBatchMode env wallets config)
            (fun e => ret (mkBuyResult false None (message e)))).
Proof.
  assert (Hstr : forall x d, truthy d = true -> truthy (strOr x d) = true).
  { intros [x|] d Hd; simpl; [|exact Hd]. destruct (truthy x) eqn:Hx; auto. }
  assert (Hidem : forall x d, truthy d = true -> strOr (Some (strOr x d)) d = strOr x d).
  { intros x d Hd. simpl. now rewrite (Hstr x d Hd). }
  cbn zeta. refine (conj _ (conj _ (conj _ (conj _ (conj _ (conj _ (conj _ _))))))).
  - now apply Hstr.
  - eexists. split; [reflexivity|]. now apply Hstr.
  - intros p Hp Ht. unfold createBuyConfig. cbn [protocol]. rewrite Hp. simpl. now rewrite Ht.
  - intros m Hm Ht. unfold createBuyConfig. cbn [bundleMode]. rewrite Hm. simpl. now rewrite Ht.
  - reflexivity.
  - unfold createBuyConfig, asInput. cbn [tokenAddress protocol solAmount amounts slippageBps
      jitoTipLamports bundleMode batchDelay singleDelay i_tokenAddress i_protocol i_solAmount
      i_amounts i_slippageBps i_jitoTipLamports i_bundleMode i_batchDelay i_singleDelay].
    now rewrite !Hidem.
  - intros wallets walletBalances. unfold validateBuyInputs.
    destruct (truthy (tokenAddress (createBuyConfig input))); cbn [negb]; [|discriminate].
    change (protocol (createBuyConfig input)) with (strOr (i_protocol input) "auto").
    rewrite (Hstr (i_protocol input) "auto" eq_refl). cbn [negb].
    destruct (includesStr _ _); cbn [negb invalid verror].
    + destruct (_ <=? _)%Z; [discriminate|].
      destruct (checkAmounts _ _) as [msg|] eqn:Hm.
      * unfold checkAmounts in Hm. destruct (amounts _); [|discriminate].
        destruct (negb _); [injection Hm as <-; discriminate|].
        destruct (negb _); [injection Hm as <-; discriminate|discriminate].
      * destruct (match slippageBps _ with Some sl => _ | None => _ end); [discriminate|].
        destruct (_ =? _)%nat; [discriminate|].
        destruct (checkWallets _ _ _ _) as [msg|] eqn:Hw; [|discriminate].
        cbn [invalid verror]. intros [= ->]. clear Hm.
        revert Hw. generalize wallets at 1. intros ws.
        induction wallets as [|[ref wallet] rest IH]; simpl; [discriminate|].
        destruct (negb _ || negb _); [discriminate|].
        match goal with |- context [if ?c then _ else _] => destruct c end;
          [discriminate | exact IH].
    + intros [=].
  - intros Hmode env wallets. unfold executeBuy, createBuyConfig. cbn [bundleMode].
    assert (Hb : strOr (Some (strOr (i_bundleMode input) "batch")) "batch" = "batch").
    { rewrite Hidem by reflexivity.
      destruct (i_bundleMode input) as [m|]; simpl in *; [|reflexivity].
      destruct (truthy m) eqn:Ht; [|reflexivity]. subst m. discriminate Ht. }
    rewrite Hb. reflexivity.
Qed.

(** *** Bundles that reach the relay client *)

(** C1, at a failing input. Five wallets bought in batch mode under the
    pumpfun protocol: the builder's bundle of five transactions passes the
    splitter untouched, signing then puts the fee transaction in front of
    it, and [sendBundle] receives six transactions.  In single mode no
    splitter is called at all: a builder bundle of six transactions reaches
    [sendBundle] whole. *)
Theorem bundle_limit_exceeded_at_relay :
  sentBundles (snd (executeBuy
    (Scenarios.demoEnv (fun _ => Scenarios.oneBundle) Scenarios.relayAccepts (Ok "fee-tx"))
    Scenarios.fiveWallets (Scenarios.buyConfig "pumpfun" "batch") freshWorld))
  = [["fee-tx"; "signed-tx-addr-1"; "signed-tx-addr-2"; "signed-tx-addr-3";
      "signed-tx-addr-4"; "signed-tx-addr-5"]]
  /\ sentBundles (snd (executeBuy
    (Scenarios.demoEnv (fun _ => Scenarios.sixTransactions) Scenarios.relayAccepts
       (Ok "fee-tx"))
    [Scenarios.wallet "1"] (Scenarios.buyConfig "auto" "single") freshWorld))
  = [["signed-t1"; "signed-t2"; "signed-t3"; "signed-t4"; "signed-t5"; "signed-t6"]]
  /\ MAX_TRANSACTIONS_PER_BUNDLE < 6.
Proof. vm_compute. repeat split; lia. Qed.

(** C2, at a failing input. The relay answers every submission with
    [{success: false, error: ...}]; [sendBundle] returns [data.result]
    without looking at the flag, so in each mode every unit counts as
    succeeded: [success] is [true] and no error string is set. *)
Theorem relay_rejection_counted_as_success :
  let env := Scenarios.demoEnv (fun _ => Scenarios.oneBundle) Scenarios.relayRejects
               (Ok "fee-tx") in
  let outcome mode :=
    fst (executeBuy env Scenarios.fiveWallets (Scenarios.buyConfig "auto" mode) freshWorld) in
  outcome "single" = Ok (mkBuyResult true (Some [None; None; None; None; None]) None)
  /\ outcome "batch" = Ok (mkBuyResult true (Some [None]) None)
  /\ outcome "all-in-one" = Ok (mkBuyResult true (Some []) None).
Proof. vm_compute. repeat split. Qed.

End BuyFacts.

(** ** Properties of the rate limiter *)

Module RateLimitFacts.
Import RateLimit.
Local Open Scope list_scope.

(** X16. One call of [checkRateLimit], for a positive limit and a clock
    that has not gone back since the last reset: afterwards the counter is
    between 1 and the limit; the call waits exactly when the current
    one-second window is still open and already full, and then for the rest
    of that window, more than 0 and at most 1000 ms; the window start never
    moves back when the clock does not. *)
Theorem checkRateLimit_window now resumed s :
  0 < maxBundlesPerSecond s ->
  (lastReset s <= now)%Z ->
  let '(waited, s') := checkRateLimit now resumed s in
  maxBundlesPerSecond s' = maxBundlesPerSecond s
  /\ 1 <= count s' <= maxBundlesPerSecond s
  /\ (is_Some waited <->
        (now - lastReset s < 1000)%Z /\ maxBundlesPerSecond s <= count s)
  /\ (forall ms, waited = Some ms ->
        ms = (1000 - (now - lastReset s))%Z /\ (0 < ms <= 1000)%Z
        /\ count s' = 1 /\ lastReset s' = resumed)
  /\ (waited = None ->
        if (1000 <=? now - lastReset s)%Z
        then count s' = 1 /\ lastReset s' = now
        else count s' = S (count s) /\ lastReset s' = lastReset s)
  /\ ((now <= resumed)%Z -> (lastReset s <= lastReset s')%Z).
Proof.
  intros Hmax Hclock. unfold checkRateLimit.
  destruct (Z.leb_spec 1000 (now - lastReset s)) as [Hold|Hopen];
    cbn [count lastReset maxBundlesPerSecond].
  - destruct (Nat.leb_spec (maxBundlesPerSecond s) 0) as [H0|H0]; [lia|].
    cbn [count lastReset maxBundlesPerSecond].
    refine (conj eq_refl (conj _ (conj _ (conj _ (conj _ _))))).
    + lia.
    + split; [intros [x Hx]; discriminate Hx | lia].
    + discriminate.
    + auto.
    + lia.
  - destruct (Nat.leb_spec (maxBundlesPerSecond s) (count s)) as [Hfull|Hroom];
      cbn [count lastReset maxBundlesPerSecond].
    + refine (conj eq_refl (conj _ (conj _ (conj _ (conj _ _))))).
      * lia.
      * split; [lia | eauto].
      * intros ms [= <-]. lia.
      * discriminate.
      * lia.
    + refine (conj eq_refl (conj _ (conj _ (conj _ (conj _ _))))).
      * lia.
      * split; [intros [x Hx]; discriminate Hx | lia].
      * discriminate.
      * auto.
      * lia.
Qed.

Lemma checkRateLimit_window_witness :
  0 < maxBundlesPerSecond (mkRateLimitState 10 5000 10)
  /\ fst (checkRateLimit 5400 6000 (mkRateLimitState 10 5000 10)) = Some 600%Z.
Proof.
  split; [simpl; lia|].
  pose proof (checkRateLimit_window 5400 6000 (mkRateLimitState 10 5000 10)) as H.
  cbv beta iota zeta delta [checkRateLimit maxBundlesPerSecond lastReset count] in H.
  simpl in H.
  destruct H as (_ & _ & _ & H & _); [lia | lia |].
  reflexivity.
Defined.

Lemma checkRateLimits_app clock1 clock2 s :
  checkRateLimits (clock1 ++ clock2) s
  = let '(ws1, s1) := checkRateLimits clock1 s in
    let '(ws2, s2) := checkRateLimits clock2 s1 in
    (ws1 ++ ws2, s2).
Proof.
  revert s. induction clock1 as [|[now resumed] rest IH]; intros s; simpl.
  - now destruct (checkRateLimits clock2 s).
  - destruct (checkRateLimit now resumed s) as [w s1]. rewrite IH.
    destruct (checkRateLimits rest s1) as [ws1 s1'].
    now destruct (checkRateLimits clock2 s1').
Qed.

(** X17. A burst of calls inside the current window: as long as the
    counter stays within the limit no call waits, each call adds one to the
    counter and the window start stays where it is; and when the burst has
    filled the window, one more call inside the window waits for the
    remainder of the window. *)
Theorem checkRateLimits_burst clock s :
  Forall (fun c => (fst c - lastReset s < 1000)%Z) clock ->
  count s + length clock <= maxBundlesPerSecond s ->
  checkRateLimits clock s
  = (replicate (length clock) None,
     mkRateLimitState (count s + length clock) (lastReset s) (maxBundlesPerSecond s))
  /\ (count s + length clock = maxBundlesPerSecond s ->
      forall now resumed, (now - lastReset s < 1000)%Z ->
        checkRateLimits (clock ++ [(now, resumed)]) s
        = (replicate (length clock) None ++ [Some (1000 - (now - lastReset s))%Z],
           mkRateLimitState 1 resumed (maxBundlesPerSecond s))).
Proof.
  intros Hin Hroom.
  assert (Hrun : checkRateLimits clock s
    = (replicate (length clock) None,
       mkRateLimitState (count s + length clock) (lastReset s) (maxBundlesPerSecond s))).
  { revert s Hin Hroom. induction clock as [|[now resumed] rest IH]; intros s Hin Hroom.
    - simpl. rewrite Nat.add_0_r. now destruct s.
    - apply Forall_cons in Hin as [Hnow Hin]. cbn [fst] in Hnow.
      cbn [checkRateLimits length] in *. unfold checkRateLimit.
      destruct (Z.leb_spec 1000 (now - lastReset s)); [lia|].
      destruct (Nat.leb_spec (maxBundlesPerSecond s) (count s)); [lia|].
      rewrite IH; cbn [count lastReset maxBundlesPerSecond]; [|exact Hin|lia].
      cbn [replicate]. replace (S (count s) + length rest) with (count s + S (length rest))
        by lia. reflexivity. }
  split; [exact Hrun|].
  intros Hfull now resumed Hnow. rewrite checkRateLimits_app, Hrun.
  cbn [checkRateLimits]. unfold checkRateLimit.
  cbn [count lastReset maxBundlesPerSecond].
  destruct (Z.leb_spec 1000 (now - lastReset s)); [lia|].
  cbn [count lastReset maxBundlesPerSecond].
  destruct (Nat.leb_spec (maxBundlesPerSecond s) (count s + length clock)); [|lia].
  reflexivity.
Qed.

Lemma checkRateLimits_burst_witness :
  checkRateLimits [(10, 0); (20, 0); (30, 0)]%Z (mkRateLimitState 7 0 10)
  = ([None; None; None], mkRateLimitState 10 0 10).
Proof.
  refine (proj1 (checkRateLimits_burst [(10, 0); (20, 0); (30, 0)]%Z
                   (mkRateLimitState 7 0 10) _ _)).
  - repeat constructor.
  - simpl. lia.
Defined.

End RateLimitFacts.

(** ** Properties of the retry wrapper *)

Module RetryFacts.
Import Retry.
Local Open Scope list_scope.

Lemma retryLoop_unfold {T} (operation : nat -> Outcome T) maxRetries attempt lastError waits :
  retryLoop operation maxRetries attempt lastError waits
  = if decide (attempt <= maxRetries) then
      match operation attempt with
      | Ok r => (Returned r, waits)
      | Throw error =>
          if (attempt =? maxRetries)%nat || negb (isNetworkError error)
          then (Thrown (Some error), waits)
          else retryLoop operation maxRetries (S attempt) (Some error)
                 (waits ++ [backoff attempt])
      end
    else (Thrown lastError, waits).
Proof.
  rewrite retryLoop_equation_1.
  destruct (decide (attempt <= maxRetries)); simpl; [|reflexivity].
  destruct (operation attempt); simpl; [reflexivity|].
  destruct ((attempt =? maxRetries)%nat || negb (isNetworkError e)); reflexivity.
Qed.


(** While the attempts fail with a network error and are not the last one
    allowed, the loop sleeps the backoff of each and goes on. *)
Lemma retryLoop_transient_prefix {T} (operation : nat -> Outcome T) maxRetries k d :
  forall attempt lastError waits,
    attempt + d = k ->
    k <= maxRetries ->
    (forall j, attempt <= j < k ->
               exists e, operation j = Throw e /\ isNetworkError e = true) ->
    exists lastError',
      retryLoop operation maxRetries attempt lastError waits
      = retryLoop operation maxRetries k lastError'
          (waits ++ (backoff <$> seq attempt d)).
Proof.
  induction d as [|d IH]; intros attempt lastError waits Hk Hmax Hfail.
  - exists lastError. simpl. rewrite app_nil_r.
    now replace k with attempt by lia.
  - destruct (Hfail attempt ltac:(lia)) as (e & He & Hnet).
    destruct (IH (S attempt) (Some e) (waits ++ [backoff attempt]))
      as (lastError' & Hloop); [lia | lia | intros j Hj; apply Hfail; lia |].
    exists lastError'. rewrite retryLoop_unfold.
    destruct (decide (attempt <= maxRetries)); [|lia].
    rewrite He, Hnet.
    replace (attempt =? maxRetries)%nat with false by (symmetry; apply Nat.eqb_neq; lia).
    simpl. rewrite Hloop, <- app_assoc. reflexivity.
Qed.

(** C9. [executeWithRetry(operation, maxRetries)], for the attempt [k]
    (at most [maxRetries], 3 by default) that ends the loop after [k - 1]
    attempts failed with a transient network error: the waits slept are the
    backoffs [min(1000 * 2^(j-1), 5000)] of attempts [1 .. k-1], in order;
    if attempt [k] succeeds its value is returned; if it fails with an
    error that is not a network error, or if [k] is the last attempt
    allowed, that error is thrown to the caller without any further wait.
    With three attempts, two timeouts followed by a success give the value
    after waits of 1000 ms then 2000 ms. *)
Theorem executeWithRetry_policy {T} (operation : nat -> Outcome T) (maxRetries k : nat) :
  1 <= k <= maxRetries ->
  (forall j, 1 <= j < k -> exists e, operation j = Throw e /\ isNetworkError e = true) ->
  let waits := backoff <$> seq 1 (k - 1) in
  (forall v, operation k = Ok v ->
             executeWithRetry operation maxRetries = (Returned v, waits))
  /\ (forall e, operation k = Throw e -> isNetworkError e = false ->
                executeWithRetry operation maxRetries = (Thrown (Some e), waits))
  /\ (forall e, operation k = Throw e -> k = maxRetries ->
                executeWithRetry operation maxRetries = (Thrown (Some e), waits))
  /\ (forall j, backoff j = Z.min (1000 * 2 ^ (Z.of_nat j - 1)) 5000)
  /\ (k = 3 -> waits = [1000; 2000]%Z).
Proof.
  intros Hk Hfail waits.
  destruct (retryLoop_transient_prefix operation maxRetries k (k - 1) 1 None [])
    as (lastError & Hloop); [lia | lia | exact Hfail |].
  unfold executeWithRetry. rewrite Hloop. fold waits. simpl.
  rewrite retryLoop_unfold.
  destruct (decide (k <= maxRetries)); [|lia].
  repeat split.
  - intros v ->. reflexivity.
  - intros e -> ->. now rewrite orb_true_r.
  - intros e -> ->. now rewrite Nat.eqb_refl.
  - intros ->. reflexivity.
Qed.

Lemma executeWithRetry_policy_witness :
  executeWithRetry Scenarios.timeoutTwice defaultMaxRetries
  = (Returned 42, [1000; 2000]%Z).
Proof.
  apply (executeWithRetry_policy Scenarios.timeoutTwice 3 3).
  - lia.
  - intros j Hj. exists (newError "Request timeout").
    assert (Hj' : j = 1 \/ j = 2) by lia.
    destruct Hj' as [-> | ->]; split; reflexivity.
  - reflexivity.
Defined.

Example executeWithRetry_no_retry_when_not_transient :
  executeWithRetry Scenarios.alwaysRejected defaultMaxRetries
  = (Thrown (Some (newError "Invalid token address")), []).
Proof. reflexivity. Qed.

Example backoff_schedule :
  backoff <$> [1; 2; 3; 4; 5] = [1000; 2000; 4000; 5000; 5000]%Z.
Proof. reflexivity. Qed.

End RetryFacts.

(** ** Properties of the volume trading scheduler *)

Module VolumeFacts.
Import Volume.
Local Open Scope list_scope.

(** *** What the reachable states have in common *)

(** The timer table [tm], the next id [nx] and the field [intervalId]:
    ids are positive and below [nx]; [intervalId] names a pending timer; and
    the only repeating timer pending is the one [intervalId] names. *)
Definition timersOk (tm : gmap nat Timer) (nx : nat) (iid : option nat) : Prop :=
  0 < nx
  /\ (forall id t, tm !! id = Some t -> 0 < id < nx)
  /\ (forall id, iid = Some id -> exists t, tm !! id = Some t /\ repeats t = true)
  /\ (forall id t, tm !! id = Some t -> repeats t = true -> iid = Some id).

Lemma timersOk_arm_timeout tm nx iid cb ms :
  timersOk tm nx iid -> timersOk (<[nx := mkTimer cb ms false]> tm) (S nx) iid.
Proof.
  intros (Hnx & Hids & Hiid & Hrep). repeat split.
  - lia.
  - apply lookup_insert_Some in H as [[<- _]|[_ H]]; [lia | apply Hids in H; lia].
  - apply lookup_insert_Some in H as [[<- _]|[_ H]]; [lia | apply Hids in H; lia].
  - intros id ->. destruct (Hiid id eq_refl) as (t & Ht & Hr).
    destruct (decide (nx = id)) as [->|Hne].
    + apply Hids in Ht. lia.
    + rewrite lookup_insert_ne by exact Hne. eauto.
  - intros id t H Ht. apply lookup_insert_Some in H as [[_ <-]|[_ H]]; [discriminate Ht|].
    eauto.
Qed.

Lemma timersOk_arm_interval tm nx cb ms :
  timersOk tm nx None -> timersOk (<[nx := mkTimer cb ms true]> tm) (S nx) (Some nx).
Proof.
  intros (Hnx & Hids & Hiid & Hrep). repeat split.
  - lia.
  - apply lookup_insert_Some in H as [[<- _]|[_ H]]; [lia | apply Hids in H; lia].
  - apply lookup_insert_Some in H as [[<- _]|[_ H]]; [lia | apply Hids in H; lia].
  - intros id [= <-]. rewrite lookup_insert_eq. eauto.
  - intros id t H Ht. apply lookup_insert_Some in H as [[<- _]|[_ H]]; [reflexivity|].
    specialize (Hrep _ _ H Ht). discriminate Hrep.
Qed.

Lemma timersOk_clear_interval tm nx id :
  timersOk tm nx (Some id) -> timersOk (delete id tm) nx None.
Proof.
  intros (Hnx & Hids & Hiid & Hrep). repeat split.
  - exact Hnx.
  - apply lookup_delete_Some in H as [_ H]. apply Hids in H. lia.
  - apply lookup_delete_Some in H as [_ H]. apply Hids in H. lia.
  - intros id' [=].
  - intros id' t H Ht. apply lookup_delete_Some in H as [Hne H].
    specialize (Hrep _ _ H Ht). congruence.
Qed.

Lemma timersOk_fired_timeout tm nx iid id t :
  timersOk tm nx iid -> tm !! id = Some t -> repeats t = false ->
  timersOk (delete id tm) nx iid.
Proof.
  intros (Hnx & Hids & Hiid & Hrep) Hid Ht. repeat split.
  - exact Hnx.
  - apply lookup_delete_Some in H as [_ H]. apply Hids in H. lia.
  - apply lookup_delete_Some in H as [_ H]. apply Hids in H. lia.
  - intros id' ->. destruct (Hiid id' eq_refl) as (t' & Ht' & Hr).
    exists t'. split; [|exact Hr]. apply lookup_delete_Some. split; [|exact Ht'].
    intros ->. congruence.
  - intros id' t' H Ht'. apply lookup_delete_Some in H as [_ H]. eauto.
Qed.

Lemma timersOk_truthy tm nx id :
  timersOk tm nx (Some id) -> truthyId (Some id) = Some id.
Proof.
  intros (_ & Hids & Hiid & _). destruct (Hiid id eq_refl) as (t & Ht & _).
  apply Hids in Ht. destruct id; [lia | reflexivity].
Qed.

(** The invariant of the scheduler: the statistics object is the one
    allocated by the constructor, the timer table is consistent with
    [intervalId], and an idle scheduler holds neither configuration nor
    interval. *)
Definition inv (s : State) : Prop :=
  stats (bot s) = 0
  /\ is_Some (store s !! 0)
  /\ timersOk (timers s) (nextTimer s) (intervalId (bot s))
  /\ (isRunning (bot s) = false -> config (bot s) = None /\ intervalId (bot s) = None).

Lemma inv_initial url : inv (initial url).
Proof.
  split; [reflexivity|]. split; [exists zeroStats; reflexivity|].
  split; [|auto].
  unfold timersOk, initial. cbn [timers nextTimer bot intervalId].
  split; [lia|]. split; [|split].
  - intros id t H. rewrite lookup_empty in H. discriminate.
  - intros id [=].
  - intros id t H. rewrite lookup_empty in H. discriminate.
Qed.

Lemma inv_start cfg u s : inv s -> inv (snd (start cfg u s)).
Proof.
  intros Hinv. unfold start.
  destruct (isRunning (bot s)) eqn:Hrun; [exact Hinv|].
  match goal with |- context [if ?c then _ else _] => destruct c end; [exact Hinv|].
  destruct Hinv as (Hst & Hobj & Htm & Hidle). simpl.
  destruct (Hidle Hrun) as [_ Hnone]. rewrite Hnone in Htm.
  unfold startTradingLoop. simpl.
  pose proof (timersOk_arm_interval _ _ CbRearm
                (getRandomInterval u (setTimeout CbSmartTrade 500
                   (withBot (fun b => mkBot (Some cfg) (stats b) (intervalId b) true
                                       (lastUsedWalletIndex b) (lastTradeType b)) s)))
                (timersOk_arm_timeout _ _ _ CbSmartTrade 500 Htm)) as Hi.
  destruct (0 <? duration cfg)%Z; simpl.
  - refine (conj Hst (conj Hobj (conj _ _))); [|discriminate].
    exact (timersOk_arm_timeout _ _ _ CbStop (duration cfg * 60 * 1000) Hi).
  - refine (conj Hst (conj Hobj (conj Hi _))). discriminate.
Qed.

Lemma inv_stop s : inv s -> inv (stop s).
Proof.
  intros (Hst & Hobj & Htm & Hidle). unfold stop.
  destruct (intervalId (bot s)) as [id|] eqn:Hid.
  - rewrite (timersOk_truthy _ _ _ Htm). simpl.
    refine (conj Hst (conj Hobj (conj _ _))); [|auto].
    exact (timersOk_clear_interval _ _ _ Htm).
  - simpl. refine (conj Hst (conj Hobj (conj _ _))); [|auto].
    simpl. rewrite Hid. exact Htm.
Qed.

(** Two states with the same session control: same timers, same
    configuration, same interval, same running flag. *)
Definition sameControl (s s' : State) : Prop :=
  timers s' = timers s
  /\ nextTimer s' = nextTimer s
  /\ config (bot s') = config (bot s)
  /\ stats (bot s') = stats (bot s)
  /\ intervalId (bot s') = intervalId (bot s)
  /\ isRunning (bot s') = isRunning (bot s).

Lemma sameControl_refl s : sameControl s s.
Proof. now repeat split. Qed.

Lemma inv_sameControl s s' :
  inv s -> sameControl s s' -> is_Some (store s' !! 0) -> inv s'.
Proof.
  intros (Hst & Hobj & Htm & Hidle) (Ht & Hn & Hc & Hs & Hi & Hr) Hobj'.
  unfold inv. rewrite Ht, Hn, Hc, Hs, Hi, Hr. auto.
Qed.

Lemma updateStats_control f s : sameControl s (updateStats f s).
Proof. now repeat split. Qed.

Lemma updateStats_keeps_objects f s l :
  is_Some (store s !! l) -> is_Some (store (updateStats f s) !! l).
Proof.
  intros [v Hv]. unfold updateStats, withStore. simpl.
  destruct (decide (stats (bot s) = l)) as [<-|Hne].
  - rewrite lookup_alter_eq, Hv. simpl. eauto.
  - rewrite lookup_alter_ne by exact Hne. eauto.
Qed.

Lemma executeSmartTrade_control uDir draws s s' :
  executeSmartTrade uDir draws s = Some s' -> sameControl s s' /\ store s' = store s.
Proof.
  unfold executeSmartTrade, selectSingleRandomWallet.
  destruct (isRunning (bot s)); [|intros [= <-]; split; [apply sameControl_refl | reflexivity]].
  destruct (config (bot s)) as [c|] eqn:Hc;
    [|intros [= <-]; split; [apply sameControl_refl | reflexivity]].
  destruct (length (wallets c) =? 0)%nat.
  - intros [= <-]. now repeat split.
  - destruct (if (length (wallets c) =? 1)%nat then Some 0%Z
              else drawWalletIndex draws (length (wallets c)) (lastUsedWalletIndex (bot s)))
      as [walletIndex|]; [|discriminate].
    intros [= <-]. now repeat split.
Qed.

Lemma resume_control k o s s' :
  resume k o s = Some s' ->
  sameControl s s' /\ (forall l, is_Some (store s !! l) -> is_Some (store s' !! l)).
Proof.
  unfold resume. destruct (inflight s !! k) as [[direction selected|direction amount]|];
    destruct o as [u|r]; try discriminate.
  - destruct selected; simpl.
    + destruct (config (bot s)) as [c|].
      * intros [= <-]. now repeat split.
      * intros [= <-]. split; [now repeat split|].
        intros l Hl. unfold countFailure.
        now apply updateStats_keeps_objects, updateStats_keeps_objects.
    + intros [= <-]. now repeat split.
  - intros [= <-]. split.
    + destruct r as [[]|e]; [destruct direction| |]; now repeat split.
    + intros l Hl.
      destruct r as [[]|e]; [destruct direction| |]; unfold countFailure; cbn [store];
        repeat (apply updateStats_keeps_objects); exact Hl.
Qed.

Lemma inv_fire id uInterval uDir draws s s' :
  inv s -> fire id uInterval uDir draws s = Some s' -> inv s'.
Proof.
  intros Hinv. unfold fire.
  destruct (timers s !! id) as [t|] eqn:Hid; [|discriminate].
  set (s0 := if repeats t then s else clearInterval id s).
  assert (Hinv0 : inv s0).
  { unfold s0. destruct (repeats t) eqn:Hr; [exact Hinv|].
    destruct Hinv as (Hst & Hobj & Htm & Hidle).
    refine (conj Hst (conj Hobj (conj _ Hidle))).
    exact (timersOk_fired_timeout _ _ _ _ _ Htm Hid Hr). }
  clearbody s0. destruct (callback t).
  - intros H. apply executeSmartTrade_control in H as [Hc Hs].
    apply (inv_sameControl s0); auto. rewrite Hs. apply Hinv0.
  - destruct (executeSmartTrade uDir draws s0) as [s1|] eqn:H1; [|discriminate].
    apply executeSmartTrade_control in H1 as [Hc Hs].
    assert (Hinv1 : inv s1).
    { apply (inv_sameControl s0); auto. rewrite Hs. apply Hinv0. }
    destruct (truthyId (intervalId (bot s1))) as [i|] eqn:Hi; [|now intros [= <-]].
    assert (Hsome : intervalId (bot s1) = Some i).
    { destruct (intervalId (bot s1)) as [[|j]|]; simpl in Hi; congruence. }
    intros [= <-]. destruct Hinv1 as (Hst & Hobj & Htm & Hidle).
    rewrite Hsome in Htm.
    refine (conj Hst (conj Hobj (conj _ _))).
    + exact (timersOk_arm_interval _ _ CbSmartTrade (getRandomInterval uInterval s0)
               (timersOk_clear_interval _ _ _ Htm)).
    + intros Hr. simpl in Hr. destruct (Hidle Hr) as [_ Hn]. congruence.
  - intros [= <-]. now apply inv_stop.
Qed.

Lemma inv_step a s s' : inv s -> step a s = Some s' -> inv s'.
Proof.
  intros Hinv. destruct a as [cfg u| | |id uInterval uDir draws|k o]; simpl.
  - intros [= <-]. now apply inv_start.
  - intros [= <-]. now apply inv_stop.
  - unfold getStats. destruct (store s !! stats (bot s)) as [v|]; [|discriminate].
    cbn. intros [= <-]. apply (inv_sameControl s); auto; [now repeat split|].
    simpl. destruct Hinv as (_ & [v0 Hobj] & _).
    rewrite lookup_insert_ne; [eauto|].
    intros Heq. pose proof (is_fresh (dom (store s))) as Hf.
    rewrite Heq in Hf. apply Hf, elem_of_dom. eauto.
  - now apply inv_fire.
  - intros H. apply resume_control in H as [Hc Hobj].
    apply (inv_sameControl s); auto. apply Hobj, Hinv.
Qed.

Lemma reachable_inv url s : reachable url s -> inv s.
Proof.
  induction 1 as [|s a s' _ IH Hstep]; [apply inv_initial | eapply inv_step; eauto].
Qed.

(** *** stop *)

Lemma stop_fields s :
  isRunning (bot (stop s)) = false
  /\ config (bot (stop s)) = None
  /\ truthyId (intervalId (bot (stop s))) = None
  /\ store (stop s) = store s
  /\ stats (bot (stop s)) = stats (bot s).
Proof.
  unfold stop. destruct (truthyId (intervalId (bot s))) as [id|] eqn:Hid; simpl; auto.
Qed.

(** [stop] twice is [stop] once, in any state. *)
Lemma stop_idempotent s : stop (stop s) = stop s.
Proof.
  destruct (stop_fields s) as (Hr & Hc & Hi & _).
  unfold stop at 1. rewrite Hi.
  destruct (stop s) as [[c st i r lu lt] so tm nx fl url]. simpl in *.
  now subst.
Qed.

Lemma stop_when_idle s : inv s -> Idle s -> stop s = s.
Proof.
  intros (_ & _ & _ & Hidle) Hr. destruct (Hidle Hr) as [Hc Hi].
  unfold stop. rewrite Hi. simpl.
  destruct s as [[c st i r lu lt] so tm nx fl url]. simpl in *. unfold Idle in Hr.
  simpl in Hr. now subst.
Qed.

(** A timer that fires while the scheduler is idle does nothing to it. *)
Lemma fire_when_idle id uInterval uDir draws s s' :
  inv s -> Idle s -> fire id uInterval uDir draws s = Some s' ->
  bot s' = bot s /\ store s' = store s /\ inflight s' = inflight s.
Proof.
  intros Hinv Hr. unfold fire.
  destruct (timers s !! id) as [t|] eqn:Hid; [|discriminate].
  set (s0 := if repeats t then s else clearInterval id s).
  assert (H0 : bot s0 = bot s /\ store s0 = store s /\ inflight s0 = inflight s)
    by (unfold s0; destruct (repeats t); now repeat split).
  assert (Hinv0 : inv s0).
  { unfold s0. destruct (repeats t) eqn:Hrep; [exact Hinv|].
    destruct Hinv as (Hst & Hobj & Htm & Hidle).
    refine (conj Hst (conj Hobj (conj _ Hidle))).
    exact (timersOk_fired_timeout _ _ _ _ _ Htm Hid Hrep). }
  destruct H0 as (Hb & Hs & Hf). clearbody s0.
  assert (Hr0 : Idle s0) by (unfold Idle; now rewrite Hb).
  assert (He : executeSmartTrade uDir draws s0 = Some s0).
  { unfold executeSmartTrade. unfold Idle in Hr0. now rewrite Hr0. }
  destruct (callback t).
  - rewrite He. intros [= <-]. auto.
  - rewrite He.
    destruct Hinv0 as (_ & _ & _ & Hidle). destruct (Hidle Hr0) as [_ Hi].
    rewrite Hi. simpl. intros [= <-]. auto.
  - intros [= <-]. rewrite (stop_when_idle s0 Hinv0 Hr0). auto.
Qed.

(** [stop()] never clears a one-shot timer. *)
Lemma stop_keeps_timeouts s id t :
  inv s -> timers s !! id = Some t -> repeats t = false ->
  timers (stop s) !! id = Some t.
Proof.
  intros Hinv Hid Hrep. unfold stop.
  destruct (truthyId (intervalId (bot s))) as [i|] eqn:Hi; [|exact Hid].
  cbn. rewrite lookup_delete_ne; [exact Hid|]. intros ->.
  destruct Hinv as (_ & _ & (_ & _ & Hnamed & _) & _).
  assert (Hsome : intervalId (bot s) = Some id).
  { destruct (intervalId (bot s)) as [[|j]|]; simpl in Hi; congruence. }
  destruct (Hnamed id Hsome) as (t' & Ht' & Hr'). congruence.
Qed.

(** What [stop()] does achieve.  In every reachable state, calling
    [stop()] twice gives the
    same state as calling it once; that state is idle, holds no
    configuration, has [intervalId] null and no repeating (interval) timer
    pending, the interval timer of the running session having been
    cleared; calling [stop()] while idle changes nothing; and a timer that
    still fires after [stop()] leaves the scheduler's fields, statistics and
    suspended trades as they are. *)
Theorem stop_idempotent_clears_interval url s :
  reachable url s ->
  stop (stop s) = stop s
  /\ Idle (stop s)
  /\ config (bot (stop s)) = None
  /\ intervalId (bot (stop s)) = None
  /\ (forall id t, timers (stop s) !! id = Some t -> repeats t = false)
  /\ (forall id, intervalId (bot s) = Some id -> timers (stop s) !! id = None)
  /\ (Idle s -> stop s = s)
  /\ (forall id uInterval uDir draws s',
        fire id uInterval uDir draws (stop s) = Some s' ->
        bot s' = bot (stop s) /\ store s' = store (stop s)
        /\ inflight s' = inflight (stop s)).
Proof.
  intros Hreach. pose proof (reachable_inv url s Hreach) as Hinv.
  pose proof (inv_stop s Hinv) as Hinv'.
  destruct (stop_fields s) as (Hr & Hc & _).
  assert (Hi : intervalId (bot (stop s)) = None).
  { destruct Hinv' as (_ & _ & _ & Hidle). now destruct (Hidle Hr). }
  split; [apply stop_idempotent|]. split; [exact Hr|]. split; [exact Hc|].
  split; [exact Hi|]. split; [|split; [|split]].
  - intros id t Ht. destruct (repeats t) eqn:Hrep; [|reflexivity].
    destruct Hinv' as (_ & _ & (_ & _ & _ & Honly) & _).
    specialize (Honly id t Ht Hrep). congruence.
  - intros id Hid. destruct Hinv as (_ & _ & Htm & _). rewrite Hid in Htm.
    unfold stop. rewrite Hid, (timersOk_truthy _ _ _ Htm). simpl.
    apply lookup_delete_eq.
  - now apply stop_when_idle.
  - intros id uInterval uDir draws s' Hfire.
    now apply (fire_when_idle id uInterval uDir draws (stop s) s' Hinv' Hr).
Qed.

Lemma stop_idempotent_clears_interval_witness :
  let s := snd (start Scenarios.volumeConfig 0 (initial Scenarios.serverUrl)) in
  stop (stop s) = stop s /\ timers (stop s) !! 2 = None.
Proof.
  pose proof (stop_idempotent_clears_interval Scenarios.serverUrl
                (snd (start Scenarios.volumeConfig 0 (initial Scenarios.serverUrl)))
                (reachable_step _ _ (ActStart Scenarios.volumeConfig 0) _
                   (reachable_initial _) eq_refl))
    as (Hidem & _ & _ & _ & _ & Hcleared & _).
  split; [exact Hidem|]. apply Hcleared. reflexivity.
Defined.

(** C4, at a failing input.  [stop()] clears the timer held in
    [intervalId] and no other: in every reachable state, each one-shot
    timer that was pending is still pending after [stop()].  So when a
    session with a finite duration is started and stopped at once, the
    scheduler is idle, yet the warm-up timeout and the duration-expiry
    timeout are both still pending. *)
Theorem stop_leaves_timeouts_pending :
  (forall url s id t,
     reachable url s -> timers s !! id = Some t -> repeats t = false ->
     timers (stop s) !! id = Some t)
  /\ let s := stop (snd (start Scenarios.volumeConfig 0 (initial Scenarios.serverUrl))) in
     Idle s
     /\ timers s !! 1 = Some (mkTimer CbSmartTrade 500 false)
     /\ timers s !! 3 = Some (mkTimer CbStop 60000 false)
     /\ size (timers s) = 2
     /\ size (timers s) <> 0.
Proof.
  split.
  - intros url s id t Hreach. apply stop_keeps_timeouts. exact (reachable_inv url s Hreach).
  - vm_compute. repeat split; discriminate.
Qed.

(** *** start *)

Lemma start_keeps_store cfg u s :
  store (snd (start cfg u s)) = store s
  /\ stats (bot (snd (start cfg u s))) = stats (bot s).
Proof.
  unfold start. destruct (isRunning (bot s)); [auto|].
  match goal with |- context [if ?c then _ else _] => destruct c end; [auto|].
  unfold startTradingLoop. simpl. destruct (0 <? duration cfg)%Z; auto.
Qed.

(** C3, at a failing input. [start] never writes to the statistics object:
    whatever the counters were, they are the same when the trading loop has
    been armed.  So a second session starts with the counters of the first:
    after one successful buy of 0.055 SOL, [stop()] and a new [start], the
    scheduler is running with fresh timers and its counters are not zero. *)
Theorem start_keeps_previous_statistics :
  (forall cfg u s, currentStats (snd (start cfg u s)) = currentStats s)
  /\ exists s,
       run Scenarios.twoSessions (initial Scenarios.serverUrl) = Some s
       /\ Running s
       /\ intervalId (bot s) = Some 5
       /\ currentStats s = Some (mkStats 1 550 1 0 1 0)
       /\ currentStats s <> Some zeroStats.
Proof.
  split.
  - intros cfg u s. unfold currentStats.
    destruct (start_keeps_store cfg u s) as [-> ->]. reflexivity.
  - eexists. split; [vm_compute; reflexivity|].
    vm_compute. repeat split; discriminate.
Qed.

(** *** getStats *)

(** Every reachable state holds its statistics object. *)
Lemma reachable_has_stats url s : reachable url s -> is_Some (currentStats s).
Proof.
  intros H. destruct (reachable_inv url s H) as (Hst & Hobj & _).
  unfold currentStats. now rewrite Hst.
Qed.

(** C10. In every state whose statistics object exists, [getStats()]
    returns a reference to a newly allocated object holding the same six
    counters; the scheduler's fields, its timers, its suspended trades and
    every object that existed before are left as they were; and whatever a
    caller then writes into the returned object, the scheduler's own
    counters and fields stay unchanged. *)
Theorem getStats_returns_fresh_copy (s : State) (v : VolumeStats) :
  currentStats s = Some v ->
  exists l s',
    getStats s = Some (l, s')
    /\ store s !! l = None
    /\ l <> stats (bot s)
    /\ store s' !! l = Some v
    /\ (forall l0, l0 <> l -> store s' !! l0 = store s !! l0)
    /\ bot s' = bot s
    /\ timers s' = timers s
    /\ nextTimer s' = nextTimer s
    /\ inflight s' = inflight s
    /\ tradingServerUrl s' = tradingServerUrl s
    /\ currentStats s' = Some v
    /\ (forall f, currentStats (mutate l f s') = Some v
                  /\ bot (mutate l f s') = bot s).
Proof.
  unfold currentStats. intros Hv.
  set (l := fresh (dom (store s))).
  assert (Hfresh : store s !! l = None).
  { apply not_elem_of_dom. apply is_fresh. }
  assert (Hne : l <> stats (bot s)) by (intros ->; congruence).
  exists l, (withStore (insert l v) s).
  unfold getStats. rewrite Hv. fold l. simpl.
  repeat split; auto.
  - apply lookup_insert_eq.
  - intros l0 Hl0. now apply lookup_insert_ne.
  - rewrite lookup_insert_ne by exact Hne. exact Hv.
  - unfold mutate, withStore. simpl.
    rewrite lookup_alter_ne by exact Hne.
    rewrite lookup_insert_ne by exact Hne. exact Hv.
Qed.

Lemma getStats_returns_fresh_copy_witness :
  exists l s',
    getStats (initial (Some "http://localhost:3000")) = Some (l, s')
    /\ store s' !! l = Some zeroStats
    /\ l <> 0.
Proof.
  destruct (getStats_returns_fresh_copy (initial (Some "http://localhost:3000")) zeroStats)
    as (l & s' & Hg & _ & Hne & Hl & _).
  - reflexivity.
  - exists l, s'. auto.
Defined.

(** *** The counters along a run *)

Lemma run_reachable url actions : forall s s',
  reachable url s -> run actions s = Some s' -> reachable url s'.
Proof.
  induction actions as [|a rest IH]; intros s s' Hs; simpl.
  - now intros [= <-].
  - destruct (step a s) as [s1|] eqn:Hstep; [|discriminate].
    apply IH. now apply (reachable_step url s a s1).
Qed.

Lemma updateStats_current f s v :
  currentStats s = Some v -> currentStats (updateStats f s) = Some (f v).
Proof.
  unfold currentStats, updateStats, withStore. simpl. intros H.
  now rewrite lookup_alter_eq, H.
Qed.

Lemma fire_keeps_store id uInterval uDir draws s s' :
  fire id uInterval uDir draws s = Some s' ->
  store s' = store s /\ stats (bot s') = stats (bot s).
Proof.
  unfold fire. destruct (timers s !! id) as [t|]; [|discriminate].
  set (s0 := if repeats t then s else clearInterval id s).
  assert (H0 : store s0 = store s /\ stats (bot s0) = stats (bot s))
    by (unfold s0; destruct (repeats t); now split).
  destruct H0 as [Hs0 Hb0]. clearbody s0. destruct (callback t).
  - intros H. apply executeSmartTrade_control in H as [(_ & _ & _ & Hst & _) Hs].
    split; congruence.
  - destruct (executeSmartTrade uDir draws s0) as [s1|] eqn:H1; [|discriminate].
    apply executeSmartTrade_control in H1 as [(_ & _ & _ & Hst & _) Hs].
    destruct (truthyId (intervalId (bot s1))) as [i|].
    + intros [= <-]. simpl. split; congruence.
    + intros [= <-]. split; congruence.
  - intros [= <-]. destruct (stop_fields s0) as (_ & _ & _ & Hs & Hst).
    split; congruence.
Qed.

(** What one step may do to the counters, given the trades in flight: leave
    them alone, or count one trade. *)
Inductive counted (flying : list Suspended) (v : VolumeStats) : VolumeStats -> Prop :=
| counted_nothing : counted flying v v
| counted_failure : counted flying v (incTotalTrades (incFailed v))
| counted_buy amount :
    AwaitDispatch buy amount ∈ flying ->
    counted flying v (incTotalTrades (incBuys (addVolume amount (incSuccessful v))))
| counted_sell : counted flying v (incTotalTrades (incSells (incSuccessful v))).

Lemma resume_counted k o s s' v :
  resume k o s = Some s' -> currentStats s = Some v ->
  exists v', currentStats s' = Some v' /\ counted (inflight s) v v'.
Proof.
  intros Hres Hv. unfold resume in Hres.
  destruct (inflight s !! k) as [[direction selected|direction amount]|] eqn:Hk;
    destruct o as [u|r]; try discriminate.
  - destruct selected; cbn [negb] in Hres.
    + destruct (config (bot (unsuspend k s))) as [c|].
      * injection Hres as <-. exists v. split; [exact Hv | constructor].
      * injection Hres as <-. exists (incTotalTrades (incFailed v)).
        split; [|constructor].
        change (currentStats (countFailure (unsuspend k s))
                = Some (incTotalTrades (incFailed v))).
        unfold countFailure. now apply updateStats_current, updateStats_current.
    + injection Hres as <-. exists v. split; [exact Hv | constructor].
  - injection Hres as <-.
    assert (Hfly : AwaitDispatch direction amount ∈ inflight s)
      by (apply list_elem_of_lookup; eauto).
    destruct r as [[|]|e].
    + destruct direction.
      * exists (incTotalTrades (incBuys (addVolume amount (incSuccessful v)))).
        split; [|now constructor].
        change (currentStats
                  (updateStats incTotalTrades
                     (updateStats incBuys
                        (updateStats (addVolume amount)
                           (updateStats incSuccessful (unsuspend k s)))))
                = Some (incTotalTrades (incBuys (addVolume amount (incSuccessful v))))).
        now repeat apply updateStats_current.
      * exists (incTotalTrades (incSells (incSuccessful v))).
        split; [|constructor].
        change (currentStats
                  (updateStats incTotalTrades
                     (updateStats incSells (updateStats incSuccessful (unsuspend k s))))
                = Some (incTotalTrades (incSells (incSuccessful v)))).
        now repeat apply updateStats_current.
    + exists (incTotalTrades (incFailed v)). split; [|constructor].
      change (currentStats
                (updateStats incTotalTrades (updateStats incFailed (unsuspend k s)))
              = Some (incTotalTrades (incFailed v))).
      now repeat apply updateStats_current.
    + exists (incTotalTrades (incFailed v)). split; [|constructor].
      change (currentStats (countFailure (unsuspend k s))
              = Some (incTotalTrades (incFailed v))).
      unfold countFailure. now repeat apply updateStats_current.
Qed.

Lemma step_counted a s s' v :
  step a s = Some s' -> currentStats s = Some v ->
  exists v', currentStats s' = Some v' /\ counted (inflight s) v v'
             /\ ((forall k o, a <> ActResume k o) -> v' = v).
Proof.
  intros Hstep Hv.
  destruct a as [cfg u| | |id uInterval uDir draws|k o]; simpl in Hstep.
  - injection Hstep as <-. exists v. unfold currentStats.
    destruct (start_keeps_store cfg u s) as [-> ->].
    split; [exact Hv|]. split; [constructor | reflexivity].
  - injection Hstep as <-. exists v. unfold currentStats.
    destruct (stop_fields s) as (_ & _ & _ & -> & ->).
    split; [exact Hv|]. split; [constructor | reflexivity].
  - unfold getStats in Hstep. unfold currentStats in Hv. rewrite Hv in Hstep.
    cbn in Hstep. injection Hstep as <-. exists v. unfold currentStats. simpl.
    split; [|split; [constructor | reflexivity]].
    rewrite lookup_insert_ne; [exact Hv|].
    intros Heq. pose proof (is_fresh (dom (store s))) as Hf.
    rewrite Heq in Hf. apply Hf, elem_of_dom. eauto.
  - apply fire_keeps_store in Hstep as [Hs Hst]. exists v. unfold currentStats.
    rewrite Hs, Hst. split; [exact Hv|]. split; [constructor | reflexivity].
  - destruct (resume_counted k o s s' v Hstep Hv) as (v' & Hv' & Hc).
    exists v'. split; [exact Hv'|]. split; [exact Hc|].
    intros Hne. now destruct (Hne k o).
Qed.

(** The bookkeeping identities between the counters. *)
Definition balanced (v : VolumeStats) : Prop :=
  totalTrades v = successfulTrades v + failedTrades v
  /\ successfulTrades v = totalBuys v + totalSells v
  /\ (totalBuys v = 0 -> totalVolume v = 0%Z).

Lemma counted_balanced flying v v' : counted flying v v' -> balanced v -> balanced v'.
Proof.
  intros Hc (Ht & Hs & Hv). destruct Hc; unfold balanced; simpl; [auto| | |].
  - refine (conj _ (conj Hs Hv)). lia.
  - refine (conj _ (conj _ _)); [lia | lia | discriminate].
  - refine (conj _ (conj _ Hv)); lia.
Qed.

(** X18. In every reachable state the scheduler holds its statistics
    object and its counters are consistent: every counted trade is either
    successful or failed, every successful trade is a buy or a sell, and no
    volume is recorded without a buy. *)
Theorem statistics_balanced url s :
  reachable url s -> exists v, currentStats s = Some v /\ balanced v.
Proof.
  induction 1 as [|s a s' Hreach (v & Hv & Hbal) Hstep].
  - exists zeroStats. split; [reflexivity|]. now repeat split.
  - destruct (step_counted a s s' v Hstep Hv) as (v' & Hv' & Hc & _).
    exists v'. split; [exact Hv'|]. exact (counted_balanced _ _ _ Hc Hbal).
Qed.

Lemma statistics_balanced_witness :
  exists v,
    currentStats (snd (start Scenarios.volumeConfig 0 (initial Scenarios.serverUrl)))
    = Some v /\ balanced v.
Proof.
  apply (statistics_balanced Scenarios.serverUrl).
  apply (reachable_step _ _ (ActStart Scenarios.volumeConfig 0) _ (reachable_initial _)).
  reflexivity.
Defined.

(** X19. No step of the scheduler ever lowers a counter, in any state whose
    statistics object exists: [start], [stop],
    [getStats] and a firing timer leave all six counters as they are, and a
    trade that settles counts exactly one trade or none; recorded volume
    changes only by the amount of a buy that was in flight. *)
Theorem statistics_only_grow a s s' v :
  step a s = Some s' -> currentStats s = Some v ->
  exists v',
    currentStats s' = Some v'
    /\ totalTrades v <= totalTrades v' <= S (totalTrades v)
    /\ successfulTrades v <= successfulTrades v' <= S (successfulTrades v)
    /\ failedTrades v <= failedTrades v' <= S (failedTrades v)
    /\ totalBuys v <= totalBuys v' <= S (totalBuys v)
    /\ totalSells v <= totalSells v' <= S (totalSells v)
    /\ (totalVolume v' = totalVolume v
        \/ exists amount, AwaitDispatch buy amount ∈ inflight s
                          /\ totalVolume v' = (totalVolume v + amount)%Z)
    /\ ((forall k o, a <> ActResume k o) -> v' = v).
Proof.
  intros Hstep Hv.
  destruct (step_counted a s s' v Hstep Hv) as (v' & Hv' & Hc & Hsame).
  exists v'. split; [exact Hv'|].
  destruct Hc; simpl; repeat split; auto; try lia.
  right. eauto.
Qed.

Lemma statistics_only_grow_witness :
  exists v', currentStats (stop (initial Scenarios.serverUrl)) = Some v'
             /\ totalTrades zeroStats <= totalTrades v'.
Proof.
  destruct (statistics_only_grow ActStop
              (initial Scenarios.serverUrl) (stop (initial Scenarios.serverUrl)) zeroStats
              eq_refl eq_refl) as (v' & Hv' & [Hle _] & _).
  exists v'. split; [exact Hv' | exact Hle].
Defined.

(** *** start and the timers it arms *)

Lemma getRandomInterval_config u s s' :
  config (bot s') = config (bot s) -> getRandomInterval u s' = getRandomInterval u s.
Proof. unfold getRandomInterval. now intros ->. Qed.

Lemma start_armed cfg u s :
  inv s -> Idle s -> truthy (default EmptyString (tradingServerUrl s)) = true ->
  exists s',
    start cfg u s = (Ok tt, s')
    /\ Running s'
    /\ config (bot s') = Some cfg
    /\ store s' = store s
    /\ inflight s' = inflight s
    /\ tradingServerUrl s' = tradingServerUrl s
    /\ intervalId (bot s') = Some (S (nextTimer s))
    /\ timers s' !! nextTimer s = Some (mkTimer CbSmartTrade 500 false)
    /\ timers s' !! S (nextTimer s) = Some (mkTimer CbRearm (getRandomInterval u s') true)
    /\ timers s' !! S (S (nextTimer s))
       = (if (0 <? duration cfg)%Z
          then Some (mkTimer CbStop (duration cfg * 60 * 1000) false)
          else None)
    /\ (forall id t, timers s !! id = Some t -> timers s' !! id = Some t).
Proof.
  intros (_ & _ & (_ & Hids & _) & _) Hidle Hurl. unfold Idle in Hidle.
  eexists. unfold start. rewrite Hidle, Hurl. cbn [negb].
  split; [reflexivity|]. unfold startTradingLoop. cbn [config bot withBot].
  assert (Hfresh : forall k, timers s !! (k + nextTimer s)%nat = None).
  { intros k. destruct (timers s !! (k + nextTimer s)%nat) as [t|] eqn:Hk; [|reflexivity].
    apply Hids in Hk. lia. }
  pose proof (Hfresh 0) as H0. pose proof (Hfresh 1) as H1. pose proof (Hfresh 2) as H2.
  cbn [Nat.add] in H0, H1, H2.
  destruct (0 <? duration cfg)%Z; unfold Running; cbn.
  - refine (conj eq_refl (conj eq_refl (conj eq_refl (conj eq_refl (conj eq_refl
             (conj eq_refl (conj _ (conj _ (conj _ _))))))))).
    + rewrite !lookup_insert_ne by lia. apply lookup_insert_eq.
    + rewrite lookup_insert_ne by lia. apply lookup_insert_eq.
    + apply lookup_insert_eq.
    + intros id t Ht. pose proof (Hids _ _ Ht).
      rewrite !lookup_insert_ne by lia. exact Ht.
  - refine (conj eq_refl (conj eq_refl (conj eq_refl (conj eq_refl (conj eq_refl
             (conj eq_refl (conj _ (conj _ (conj _ _))))))))).
    + rewrite !lookup_insert_ne by lia. apply lookup_insert_eq.
    + apply lookup_insert_eq.
    + rewrite !lookup_insert_ne by lia. exact H2.
    + intros id t Ht. pose proof (Hids _ _ Ht).
      rewrite !lookup_insert_ne by lia. exact Ht.
Qed.

(** X20. [start], in any reachable state.  While a session is running it
    throws 'Volume bot is already running'; with no trading server URL it
    throws the configuration error; in both cases nothing at all is changed.
    Otherwise it returns with the scheduler running under the new
    configuration and three fresh timers armed: the one-shot warm-up of
    500 ms, the repeating re-arm timer (held in [intervalId]) and, when the
    duration is positive, the one-shot expiry of [duration] minutes; the
    statistics, the trades in flight and every timer that was still pending
    are left as they were. *)
Theorem start_outcomes url cfg u s :
  reachable url s ->
  match start cfg u s with
  | (Throw e, s') =>
      s' = s
      /\ (if isRunning (bot s) then e = newError "Volume bot is already running"
          else truthy (default EmptyString (tradingServerUrl s)) = false
               /\ e = newError
                        "Trading server URL not configured. Please check your server connection in settings.")
  | (Ok _, s') =>
      Idle s /\ Running s'
      /\ config (bot s') = Some cfg
      /\ currentStats s' = currentStats s
      /\ inflight s' = inflight s
      /\ intervalId (bot s') = Some (S (nextTimer s))
      /\ timers s' !! nextTimer s = Some (mkTimer CbSmartTrade 500 false)
      /\ timers s' !! S (nextTimer s) = Some (mkTimer CbRearm (getRandomInterval u s') true)
      /\ timers s' !! S (S (nextTimer s))
         = (if (0 <? duration cfg)%Z
            then Some (mkTimer CbStop (duration cfg * 60 * 1000) false)
            else None)
      /\ (forall id t, timers s !! id = Some t -> timers s' !! id = Some t)
  end.
Proof.
  intros Hreach. pose proof (reachable_inv url s Hreach) as Hinv.
  destruct (isRunning (bot s)) eqn:Hrun.
  - unfold start. rewrite Hrun. auto.
  - destruct (truthy (default EmptyString (tradingServerUrl s))) eqn:Hurl.
    + destruct (start_armed cfg u s Hinv Hrun Hurl)
        as (s' & Hstart & Hr & Hc & Hs & Hf & _ & Hi & H1 & H2 & H3 & Hold).
      destruct (start_keeps_store cfg u s) as [Hst Hb].
      rewrite Hstart in Hst, Hb |- *. cbn [snd] in Hst, Hb.
      refine (conj Hrun (conj Hr (conj Hc (conj _ (conj Hf (conj Hi (conj H1 (conj H2
                (conj H3 Hold))))))))).
      unfold currentStats. now rewrite Hst, Hb.
    + unfold start. rewrite Hrun, Hurl. cbn [negb]. auto.
Qed.

Lemma start_outcomes_witness :
  fst (start Scenarios.volumeConfig 0 (initial Scenarios.serverUrl)) = Ok tt
  /\ fst (start Scenarios.volumeConfig 0 (initial None))
     = Throw (newError
         "Trading server URL not configured. Please check your server connection in settings.").
Proof.
  pose proof (start_outcomes Scenarios.serverUrl Scenarios.volumeConfig 0
                (initial Scenarios.serverUrl) (reachable_initial _)) as H1.
  pose proof (start_outcomes None Scenarios.volumeConfig 0
                (initial None) (reachable_initial _)) as H2.
  destruct (start Scenarios.volumeConfig 0 (initial Scenarios.serverUrl)) as [[[]|e] s1] eqn:E1;
    [|vm_compute in E1; discriminate E1].
  destruct (start Scenarios.volumeConfig 0 (initial None)) as [[[]|e] s2] eqn:E2;
    [vm_compute in E2; discriminate E2|].
  destruct H2 as (_ & _ & ->). split; reflexivity.
Defined.

(** X21. A one-shot timer outlives the session that armed it.  After
    [stop()] and a new [start(config)], every one-shot timer that was
    pending is still pending beside the timers of the new session; and when
    such a timer is an expiry timer of the earlier session, its firing
    stops the new session. *)
Theorem stale_timeout_outlives_session url s id t cfg u :
  reachable url s ->
  timers s !! id = Some t -> repeats t = false ->
  truthy (default EmptyString (tradingServerUrl s)) = true ->
  exists s',
    start cfg u (stop s) = (Ok tt, s')
    /\ Running s'
    /\ config (bot s') = Some cfg
    /\ timers s' !! id = Some t
    /\ (callback t = CbStop ->
        forall uInterval uDir draws,
          exists s'', fire id uInterval uDir draws s' = Some s''
                      /\ Idle s'' /\ config (bot s'') = None
                      /\ intervalId (bot s'') = None).
Proof.
  intros Hreach Hid Hrep Hurl. pose proof (reachable_inv url s Hreach) as Hinv.
  pose proof (inv_stop s Hinv) as Hinv'.
  destruct (stop_fields s) as (Hidle & _).
  assert (Hurl' : tradingServerUrl (stop s) = tradingServerUrl s).
  { unfold stop. now destruct (truthyId (intervalId (bot s))). }
  assert (Hid' : timers (stop s) !! id = Some t).
  { unfold stop. destruct (truthyId (intervalId (bot s))) as [i|] eqn:Hi; [|exact Hid].
    cbn. rewrite lookup_delete_ne; [exact Hid|]. intros ->.
    destruct Hinv as (_ & _ & (_ & _ & Hnamed & _) & _).
    assert (Hsome : intervalId (bot s) = Some id).
    { destruct (intervalId (bot s)) as [[|j]|]; simpl in Hi; congruence. }
    destruct (Hnamed id Hsome) as (t' & Ht' & Hr'). congruence. }
  rewrite <- Hurl' in Hurl.
  destruct (start_armed cfg u (stop s) Hinv' Hidle Hurl)
    as (s' & Hstart & Hr & Hc & _ & _ & _ & _ & _ & _ & _ & Hold).
  exists s'. refine (conj Hstart (conj Hr (conj Hc (conj (Hold _ _ Hid') _)))).
  intros Hcb uInterval uDir draws. unfold fire. rewrite (Hold _ _ Hid'), Hrep, Hcb.
  eexists. split; [reflexivity|].
  destruct (stop_fields (clearInterval id s')) as (H1 & H2 & _).
  split; [exact H1|]. split; [exact H2|].
  assert (Hinv2 : inv (stop (clearInterval id s'))).
  { apply (inv_fire id uInterval uDir draws s').
    - pose proof (inv_start cfg u (stop s) Hinv') as Hi. now rewrite Hstart in Hi.
    - unfold fire. now rewrite (Hold _ _ Hid'), Hrep, Hcb. }
  destruct Hinv2 as (_ & _ & _ & Hidle2). now destruct (Hidle2 H1).
Qed.

Lemma stale_timeout_outlives_session_witness :
  exists s',
    start Scenarios.volumeConfig 0
      (stop (snd (start Scenarios.volumeConfig 0 (initial Scenarios.serverUrl))))
    = (Ok tt, s')
    /\ timers s' !! 3 = Some (mkTimer CbStop 60000 false).
Proof.
  destruct (stale_timeout_outlives_session Scenarios.serverUrl
              (snd (start Scenarios.volumeConfig 0 (initial Scenarios.serverUrl)))
              3 (mkTimer CbStop 60000 false) Scenarios.volumeConfig 0
              (reachable_step _ _ (ActStart Scenarios.volumeConfig 0) _
                 (reachable_initial _) eq_refl)
              eq_refl eq_refl eq_refl) as (s' & Hs & _ & _ & Ht & _).
  exists s'. split; [exact Hs | exact Ht].
Defined.

(** X22. The repeating timer of a session.  In a reachable state a
    repeating timer exists only in a running session, as the timer
    [intervalId] names.  When it is the re-arm timer and fires, it is
    cleared and replaced by one repeating trade timer whose period is the
    interval drawn at that moment; when it is the trade timer and fires,
    the timer table and [intervalId] stay as they are, so that period is
    kept until [stop()]. *)
Theorem interval_drawn_once url s id t uInterval uDir draws s' :
  reachable url s ->
  timers s !! id = Some t -> repeats t = true ->
  fire id uInterval uDir draws s = Some s' ->
  Running s /\ intervalId (bot s) = Some id
  /\ (callback t = CbRearm ->
      intervalId (bot s') = Some (nextTimer s)
      /\ timers s'
         = <[nextTimer s := mkTimer CbSmartTrade (getRandomInterval uInterval s) true]>
             (delete id (timers s)))
  /\ (callback t = CbSmartTrade ->
      timers s' = timers s /\ intervalId (bot s') = intervalId (bot s)
      /\ nextTimer s' = nextTimer s).
Proof.
  intros Hreach Hid Hrep Hfire. pose proof (reachable_inv url s Hreach) as Hinv.
  destruct Hinv as (_ & _ & Htm & Hidle).
  assert (Hi : intervalId (bot s) = Some id).
  { destruct Htm as (_ & _ & _ & Honly). exact (Honly id t Hid Hrep). }
  assert (Hrun : Running s).
  { unfold Running. destruct (isRunning (bot s)); [reflexivity|].
    destruct (Hidle eq_refl) as [_ Hn]. congruence. }
  refine (conj Hrun (conj Hi _)).
  unfold fire in Hfire. rewrite Hid, Hrep in Hfire. split; intros Hcb; rewrite Hcb in Hfire.
  - destruct (executeSmartTrade uDir draws s) as [s1|] eqn:H1; [|discriminate].
    apply executeSmartTrade_control in H1 as [(Ht & Hn & _ & _ & Hi1 & _) _].
    rewrite Hi1, Hi in Hfire. rewrite Hi in Htm.
    rewrite (timersOk_truthy _ _ _ Htm) in Hfire.
    injection Hfire as <-. cbn. rewrite Hn, Ht. auto.
  - apply executeSmartTrade_control in Hfire as [(Ht & Hn & _ & _ & Hi1 & _) _]. auto.
Qed.

Lemma interval_drawn_once_witness :
  exists s',
    fire 2 0 0 [0%Q] (snd (start Scenarios.volumeConfig 0 (initial Scenarios.serverUrl)))
    = Some s'
    /\ intervalId (bot s') = Some 4.
Proof.
  eexists. split; [vm_compute; reflexivity|].
  refine (proj1 (proj1 (proj2 (proj2
    (interval_drawn_once Scenarios.serverUrl
       (snd (start Scenarios.volumeConfig 0 (initial Scenarios.serverUrl)))
       2 (mkTimer CbRearm 5000 true) 0 0 [0%Q] _
       (reachable_step _ _ (ActStart Scenarios.volumeConfig 0) _
          (reachable_initial _) eq_refl)
       eq_refl eq_refl _))) eq_refl)).
  vm_compute. reflexivity.
Defined.

(** *** Random draws *)






(** *** Trades that settle after stop *)

(** X25. A trade that is still in flight when [stop()] is called is
    settled all the same, in the idle scheduler.  If it was waiting for its
    wallet, it is abandoned without any dispatch and counted as one failed
    trade; if it was waiting for its dispatch, it is counted by the result
    of that dispatch, a successful buy adding its amount to the volume.  In
    both cases the scheduler stays idle and no timer is touched. *)
Theorem trade_settles_after_stop url s k v :
  reachable url s -> Idle s -> currentStats s = Some v ->
  (forall direction u,
     inflight s !! k = Some (AwaitWallet direction true) ->
     exists s', resume k (WalletReady u) s = Some s'
       /\ currentStats s' = Some (incTotalTrades (incFailed v))
       /\ inflight s' = delete k (inflight s)
       /\ lastTradeType (bot s') = Some direction
       /\ Idle s' /\ timers s' = timers s)
  /\ (forall amount,
        inflight s !! k = Some (AwaitDispatch buy amount) ->
        exists s', resume k (DispatchDone (Ok true)) s = Some s'
          /\ currentStats s'
             = Some (incTotalTrades (incBuys (addVolume amount (incSuccessful v))))
          /\ inflight s' = delete k (inflight s)
          /\ Idle s' /\ timers s' = timers s).
Proof.
  intros Hreach Hidle Hv. destruct (reachable_inv url s Hreach) as (_ & _ & _ & Hnone).
  destruct (Hnone Hidle) as [Hc _]. split.
  - intros direction u Hk. unfold resume. rewrite Hk. cbn [negb].
    change (config (bot (unsuspend k s))) with (config (bot s)). rewrite Hc.
    eexists. split; [reflexivity|].
    refine (conj _ (conj eq_refl (conj eq_refl (conj Hidle eq_refl)))).
    change (currentStats (countFailure (unsuspend k s))
            = Some (incTotalTrades (incFailed v))).
    unfold countFailure. now repeat apply updateStats_current.
  - intros amount Hk. unfold resume. rewrite Hk.
    eexists. split; [reflexivity|].
    refine (conj _ (conj eq_refl (conj Hidle eq_refl))).
    change (currentStats
              (updateStats incTotalTrades
                 (updateStats incBuys
                    (updateStats (addVolume amount)
                       (updateStats incSuccessful (unsuspend k s)))))
            = Some (incTotalTrades (incBuys (addVolume amount (incSuccessful v))))).
    now repeat apply updateStats_current.
Qed.

Lemma trade_settles_after_stop_witness :
  exists s s',
    run Scenarios.stoppedMidTrade (initial Scenarios.serverUrl) = Some s
    /\ resume 0 (WalletReady 0) s = Some s'
    /\ currentStats s' = Some (mkStats 1 0 0 1 0 0).
Proof.
  destruct (run Scenarios.stoppedMidTrade (initial Scenarios.serverUrl)) as [s|] eqn:Hrun;
    [|vm_compute in Hrun; discriminate Hrun].
  assert (Hreach : reachable Scenarios.serverUrl s)
    by exact (run_reachable _ _ _ _ (reachable_initial _) Hrun).
  assert (Hs : Some s = run Scenarios.stoppedMidTrade (initial Scenarios.serverUrl)) by now rewrite Hrun.
  vm_compute in Hs. injection Hs as Hs.
  assert (Hidle : Idle s) by (rewrite Hs; reflexivity).
  assert (Hv : currentStats s = Some zeroStats) by (rewrite Hs; reflexivity).
  assert (Hk : inflight s !! 0 = Some (AwaitWallet buy true)) by (rewrite Hs; reflexivity).
  destruct (proj1 (trade_settles_after_stop Scenarios.serverUrl s 0 zeroStats
                     Hreach Hidle Hv) buy 0%Q Hk) as (s' & Hres & Hst & _).
  exists s, s'. split; [reflexivity|]. split; [exact Hres | exact Hst].
Defined.

(** *** The wallet helpers *)

(** Whether a call returned rather than threw. *)
Definition returned {A} (o : Outcome A) : bool :=
  match o with Ok _ => true | Throw _ => false end.

Lemma validateVolumeBotWallets_acc (fromSecretKey : string -> Outcome string) wallets : forall valid invalid,
  foldl (fun '(valid, invalid) wallet =>
           match fromSecretKey wallet with
           | Ok _ => (valid ++ [wallet], invalid)
           | Throw _ => (valid, invalid ++ [wallet])
           end)
        (valid, invalid) wallets
  = (valid ++ List.filter (fun w => returned (fromSecretKey w)) wallets,
     invalid ++ List.filter (fun w => negb (returned (fromSecretKey w))) wallets).
Proof.
  induction wallets as [|w rest IH]; intros valid invalid; simpl.
  - now rewrite !app_nil_r.
  - destruct (fromSecretKey w) as [key|e]; rewrite IH, <- app_assoc; reflexivity.
Qed.

Lemma getVolumeBotWalletBalances_acc (fromSecretKey : string -> Outcome string) wallets : forall balances,
  foldl (fun balances wallet =>
           match fromSecretKey wallet with
           | Ok key => balances ++ [mkBalance ((String.substring 0 8 wallet ++ "...")%string) 0 key]
           | Throw _ =>
               balances ++ [mkBalance ((String.substring 0 8 wallet ++ "...")%string) 0 "Invalid"]
           end)
        balances wallets
  = balances
    ++ map (fun w => mkBalance ((String.substring 0 8 w ++ "...")%string) 0
                       (match fromSecretKey w with Ok key => key | Throw _ => "Invalid" end))
         wallets.
Proof.
  induction wallets as [|w rest IH]; intros balances; simpl.
  - now rewrite app_nil_r.
  - destruct (fromSecretKey w) as [key|e]; rewrite IH, <- app_assoc; reflexivity.
Qed.

Lemma filter_partition {A} (p : A -> bool) (l : list A) :
  List.filter p l ++ List.filter (fun x => negb (p x)) l ≡ₚ l.
Proof.
  induction l as [|x l IH]; simpl; [reflexivity|].
  destruct (p x); simpl.
  - now rewrite IH.
  - rewrite <- Permutation_middle. now rewrite IH.
Qed.

(** X26. The two wallet helpers of volumeBot.ts.  [validateVolumeBotWallets]
    sorts every wallet into exactly one of the two lists: [valid] holds the
    wallets whose key decodes, [invalid] the others, each in the order
    given, so that together they are a rearrangement of the input.
    [getVolumeBotWalletBalances] answers one entry per wallet, in order,
    labelled by the first 8 characters of the key, with the decoded public
    key or 'Invalid', and with a balance that is always 0. *)
Theorem wallet_helpers_sort_every_wallet (fromSecretKey : string -> Outcome string) wallets :
  let decodes w := returned (fromSecretKey w) in
  let '(valid, invalid) := validateVolumeBotWallets fromSecretKey wallets in
  valid = List.filter decodes wallets
  /\ invalid = List.filter (fun w => negb (decodes w)) wallets
  /\ valid ++ invalid ≡ₚ wallets
  /\ (forall w, w ∈ valid -> w ∉ invalid)
  /\ getVolumeBotWalletBalances fromSecretKey wallets
     = map (fun w => mkBalance ((String.substring 0 8 w ++ "...")%string) 0
                       (match fromSecretKey w with Ok key => key | Throw _ => "Invalid" end))
         wallets
  /\ Forall (fun b => solBalance b = 0%Z) (getVolumeBotWalletBalances fromSecretKey wallets).
Proof.
  cbn zeta. unfold validateVolumeBotWallets, getVolumeBotWalletBalances.
  rewrite validateVolumeBotWallets_acc, getVolumeBotWalletBalances_acc. cbn [app].
  refine (conj eq_refl (conj eq_refl (conj _ (conj _ (conj eq_refl _))))).
  - apply filter_partition.
  - intros w Hv Hi. apply list_elem_of_In, filter_In in Hv as [_ Hv].
    apply list_elem_of_In, filter_In in Hi as [_ Hi]. rewrite Hv in Hi. discriminate Hi.
  - apply Forall_forall. intros b Hb. apply list_elem_of_In, in_map_iff in Hb as (w & <- & _).
    reflexivity.
Qed.

End VolumeFacts.

(** ** Properties of the backend client and of the session-based scheduler *)

Module SessionFacts.
Import VolumeApi SessionBot.
Local Open Scope list_scope.

(** *** The backend client *)

(** How [fetch] must have gone for the shared body to return [data]. *)
Definition accepted {D} (success : D -> bool) (fetched : Outcome (Response D)) (data : D)
  : Prop :=
  exists response,
    fetched = Ok response /\ ok response = true /\ json response = Ok data
    /\ success data = true.

Lemma checked_Ok {D} (success : D -> bool) error failure fetched data :
  checked success error failure fetched = Ok data <-> accepted success fetched data.
Proof.
  unfold checked, accepted. split.
  - destruct fetched as [response|e]; [|discriminate].
    destruct (ok response) eqn:Hok; [|discriminate]. cbn [negb].
    destruct (json response) as [d|e] eqn:Hjson; [|discriminate].
    destruct (success d) eqn:Hs; [|discriminate]. cbn [negb].
    intros [= <-]. eauto.
  - intros (response & -> & Hok & Hjson & Hs). rewrite Hok, Hjson. cbn [negb].
    now rewrite Hs.
Qed.

Lemma checked_Throw {D} (success : D -> bool) error failure fetched e :
  checked success error failure fetched = Throw e <->
  fetched = Throw e
  \/ exists response,
       fetched = Ok response
       /\ (if ok response
           then json response = Throw e
                \/ exists data, json response = Ok data /\ success data = false
                                /\ e = newError (strOr (error data) failure)
           else e = newError ("HTTP error! Status: " ++ Buy.showNat (status response))%string).
Proof.
  unfold checked. split.
  - destruct fetched as [response|e0]; [|intros [= <-]; now left].
    intros H. right. exists response. split; [reflexivity|].
    destruct (ok response); cbn [negb] in H |- *; [|congruence].
    destruct (json response) as [d|e0]; [|left; congruence].
    destruct (success d) eqn:Hs; cbn [negb] in H; [discriminate|].
    injection H as <-. right. eauto.
  - intros [->|(response & -> & H)]; [reflexivity|].
    destruct (ok response); cbn [negb]; [|now subst].
    destruct H as [->|(data & -> & Hs & ->)]; [reflexivity|]. now rewrite Hs.
Qed.

(** X27. The backend client.  Each of the four session calls returns a body
    only when [fetch] resolved, the HTTP status was ok, the body parsed and
    its [success] flag is set: no caller ever receives a body with
    [success] false.  The two wallet calls never throw: they report
    [success: true] in exactly that case, with the lists of the body (empty
    when missing) and no error; in every other case they report
    [success: false] with a message, no valid wallet and every wallet given
    as invalid, respectively no balance at all. *)
Theorem client_reports_failures b :
  (forall config data,
     startVolumeBotSession b config = Ok data <->
     accepted start_success
       (fetchStart b (getBaseUrl b ++ "/api/volume/start")%string config) data)
  /\ (forall sessionId data,
        stopVolumeBotSession b sessionId = Ok data <->
        accepted stop_success
          (fetchStop b (getBaseUrl b ++ "/api/volume/stop")%string sessionId) data)
  /\ (forall sessionId data,
        getVolumeBotSessionStatus b sessionId = Ok data <->
        accepted status_success
          (fetchStatus b (getBaseUrl b ++ "/api/volume/status/" ++ sessionId)%string) data)
  /\ (forall request data,
        executeVolumeTrade b request = Ok data <->
        accepted trade_success
          (fetchTrade b (getBaseUrl b ++ "/api/volume/trade")%string request) data)
  /\ (forall wallets,
        let fetched :=
          fetchValidate b (getBaseUrl b ++ "/api/volume/validate-wallets")%string wallets in
        let r := VolumeApi.validateVolumeBotWallets b wallets in
        (forall data, accepted validate_success fetched data ->
           r = mkValidated true (default [] (data_validWallets data))
                 (default [] (data_invalidWallets data)) None)
        /\ ((forall data, ~ accepted validate_success fetched data) ->
            success r = false /\ validWallets r = [] /\ invalidWallets r = wallets
            /\ is_Some (error r)))
  /\ (forall wallets,
        let fetched :=
          fetchBalances b (getBaseUrl b ++ "/api/volume/wallet-balances")%string wallets in
        let r := VolumeApi.getVolumeBotWalletBalances b wallets in
        (forall data, accepted balances_success fetched data ->
           r = mkBalances true (default [] (data_balances data)) None)
        /\ ((forall data, ~ accepted balances_success fetched data) ->
            balances_ok r = false /\ balances r = [] /\ is_Some (balances_message r))).
Proof.
  refine (conj _ (conj _ (conj _ (conj _ (conj _ _))))).
  - intros config data. apply checked_Ok.
  - intros sessionId data. apply checked_Ok.
  - intros sessionId data. apply checked_Ok.
  - intros request data. apply checked_Ok.
  - intros wallets. cbn zeta. unfold VolumeApi.validateVolumeBotWallets. split.
    + intros data Hacc. apply (checked_Ok _ validate_error "Failed to validate wallets") in Hacc.
      now rewrite Hacc.
    + intros Hnever.
      destruct (checked validate_success validate_error "Failed to validate wallets" _)
        as [data|e] eqn:Hc.
      * apply checked_Ok in Hc. now destruct (Hnever data).
      * simpl. eauto.
  - intros wallets. cbn zeta. unfold VolumeApi.getVolumeBotWalletBalances. split.
    + intros data Hacc.
      apply (checked_Ok _ balances_error "Failed to get wallet balances") in Hacc.
      now rewrite Hacc.
    + intros Hnever.
      destruct (checked balances_success balances_error "Failed to get wallet balances" _)
        as [data|e] eqn:Hc.
      * apply checked_Ok in Hc. now destruct (Hnever data).
      * simpl. eauto.
Qed.

(** *** start and stop *)

Lemma clearStatusChecking_fields s :
  Volume.truthyId (statusCheckInterval (clearStatusChecking s)) = None
  /\ (forall id, Volume.truthyId (statusCheckInterval s) = Some id ->
        id ∉ intervals (clearStatusChecking s))
  /\ intervals (clearStatusChecking s) ⊆ intervals s
  /\ config (clearStatusChecking s) = config s
  /\ stats (clearStatusChecking s) = stats s
  /\ sessionId (clearStatusChecking s) = sessionId s
  /\ nextInterval (clearStatusChecking s) = nextInterval s
  /\ toasts (clearStatusChecking s) = toasts s.
Proof.
  unfold clearStatusChecking.
  destruct (Volume.truthyId (statusCheckInterval s)) as [id|] eqn:Hid; simpl.
  - refine (conj eq_refl (conj _ (conj _ (conj eq_refl (conj eq_refl (conj eq_refl
             (conj eq_refl eq_refl))))))).
    + intros id' Heq. injection Heq as Heq. subst id'.
      rewrite elem_of_difference, elem_of_singleton. tauto.
    + intros x Hx. apply elem_of_difference in Hx. tauto.
  - refine (conj Hid (conj _ (conj _ (conj eq_refl (conj eq_refl (conj eq_refl
             (conj eq_refl eq_refl))))))); [discriminate | reflexivity].
Qed.

(** X28. [start] and [stop] of the session-based scheduler.  [start] throws
    and changes nothing while running, when the backend call throws, and
    when the body carries no session id; otherwise the scheduler is running
    on the session the backend named, with all counters at zero and the
    start time set, and one new status timer armed.  [stop] does nothing
    unless the scheduler is running on a session; then, whether the backend
    call returns or throws, the scheduler ends not running, without session
    and with its status timer cleared, keeping the final counters the
    backend sent if it sent any and its own otherwise; a second [stop]
    changes nothing. *)
Theorem session_start_stop b now cfg s :
  match start b now cfg s with
  | (Throw e, s') =>
      s' = s
      /\ (isRunning (stats s) = true \/ startVolumeBotSession b cfg = Throw e
          \/ exists data, startVolumeBotSession b cfg = Ok data
                          /\ truthy (default EmptyString (start_sessionId data)) = false)
  | (Ok _, s') =>
      isRunning (stats s) = false
      /\ (exists data, startVolumeBotSession b cfg = Ok data
                       /\ sessionId s' = start_sessionId data)
      /\ hasSession s' = true
      /\ config s' = Some cfg
      /\ stats s' = mkStats 0 0 0 0 now true
      /\ statusCheckInterval s' = Some (nextInterval s)
      /\ intervals s' = {[ nextInterval s ]} ∪ intervals s
      /\ toasts s' = toasts s ++ [ToastSuccess "Volume bot started successfully"]
  end
  /\ (isRunning (stats s) = false \/ hasSession s = false -> stop b s = s)
  /\ (isRunning (stats s) = true -> hasSession s = true ->
      isRunning (stats (stop b s)) = false
      /\ sessionId (stop b s) = None
      /\ Volume.truthyId (statusCheckInterval (stop b s)) = None
      /\ (forall id, Volume.truthyId (statusCheckInterval s) = Some id ->
            id ∉ intervals (stop b s))
      /\ intervals (stop b s) ⊆ intervals s
      /\ config (stop b s) = config s
      /\ stats (stop b s)
         = withRunning false
             (match stopVolumeBotSession b (default EmptyString (sessionId s)) with
              | Ok data => default (stats s) (stop_stats data)
              | Throw _ => stats s
              end)
      /\ toasts (stop b s)
         = toasts s
           ++ [match stopVolumeBotSession b (default EmptyString (sessionId s)) with
               | Ok _ => ToastSuccess "Volume bot stopped"
               | Throw _ => ToastError "Error stopping volume bot"
               end])
  /\ (forall b', stop b' (stop b s) = stop b s).
Proof.
  assert (Hstop : isRunning (stats s) = true -> hasSession s = true ->
      isRunning (stats (stop b s)) = false
      /\ sessionId (stop b s) = None
      /\ Volume.truthyId (statusCheckInterval (stop b s)) = None
      /\ (forall id, Volume.truthyId (statusCheckInterval s) = Some id ->
            id ∉ intervals (stop b s))
      /\ intervals (stop b s) ⊆ intervals s
      /\ config (stop b s) = config s
      /\ stats (stop b s)
         = withRunning false
             (match stopVolumeBotSession b (default EmptyString (sessionId s)) with
              | Ok data => default (stats s) (stop_stats data)
              | Throw _ => stats s
              end)
      /\ toasts (stop b s)
         = toasts s
           ++ [match stopVolumeBotSession b (default EmptyString (sessionId s)) with
               | Ok _ => ToastSuccess "Volume bot stopped"
               | Throw _ => ToastError "Error stopping volume bot"
               end]).
  { intros Hrun Hses. unfold stop, stopCall, stopSettled. rewrite Hrun, Hses. cbn [negb orb].
    destruct (stopVolumeBotSession b (default EmptyString (sessionId s))) as [data|e] eqn:Hcall.
    - assert (Hs : stop_success data = true).
      { apply checked_Ok in Hcall as (r & _ & _ & _ & Hs). exact Hs. }
      rewrite Hs.
      set (s1 := match stop_stats data with
                 | Some v => setStats (withRunning false v) s
                 | None => setStats (withRunning false (stats s)) s
                 end).
      assert (H1 : stats s1 = withRunning false (default (stats s) (stop_stats data))
                   /\ statusCheckInterval s1 = statusCheckInterval s
                   /\ intervals s1 = intervals s /\ config s1 = config s
                   /\ toasts s1 = toasts s)
        by (unfold s1; destruct (stop_stats data); now repeat split).
      destruct H1 as (Hst & Hi & Hint & Hc & Ht). clearbody s1.
      destruct (clearStatusChecking_fields s1) as (C1 & C2 & C3 & C4 & C5 & _ & _ & C8).
      cbn [setSessionId toast stats sessionId statusCheckInterval intervals config toasts].
      rewrite C4, C5, C8, Hst, Hc, Ht. rewrite Hi in C2. rewrite Hint in C3.
      now repeat split.
    - set (s1 := setSessionId None (setStats (withRunning false (stats s)) s)).
      destruct (clearStatusChecking_fields s1) as (C1 & C2 & C3 & C4 & C5 & C6 & _ & C8).
      cbn [toast stats sessionId statusCheckInterval intervals config toasts].
      rewrite C4, C5, C6, C8. now repeat split. }
  refine (conj _ (conj _ (conj Hstop _))).
  - unfold start, startCall, startSettled. destruct (isRunning (stats s)) eqn:Hrun; [auto|].
    destruct (startVolumeBotSession b cfg) as [data|e] eqn:Hcall; [|auto].
    assert (Hs : start_success data = true).
    { apply checked_Ok in Hcall as (r & _ & _ & _ & Hs). exact Hs. }
    rewrite Hs. cbn [negb orb].
    destruct (truthy (default EmptyString (start_sessionId data))) eqn:Hid; cbn [negb].
    + unfold startStatusChecking, hasSession. cbn. rewrite Hid. cbn.
      repeat split; eauto.
    + split; [reflexivity|]. right. right. eauto.
  - unfold stop, stopCall, stopSettled. intros [->| ->]; [reflexivity|]. now rewrite orb_true_r.
  - intros b'. destruct (isRunning (stats s)) eqn:Hrun.
    + destruct (hasSession s) eqn:Hses.
      * destruct (Hstop eq_refl eq_refl) as (Hr & _). unfold stop at 1, stopCall. now rewrite Hr.
      * unfold stop, stopCall, stopSettled. rewrite Hrun, Hses. cbn [negb orb]. now rewrite Hrun, Hses.
    + unfold stop, stopCall, stopSettled. rewrite Hrun. cbn [negb orb]. now rewrite Hrun.
Qed.

(** *** Wallet checks *)

Lemma validateWalletsLocally_acc c wallets : forall valid invalid,
  foldl (fun '(valid, invalid) wallet =>
           if funded c wallet then (valid ++ [wallet], invalid)
           else (valid, invalid ++ [wallet]))
        (valid, invalid) wallets
  = (valid ++ List.filter (funded c) wallets,
     invalid ++ List.filter (fun w => negb (funded c w)) wallets).
Proof.
  induction wallets as [|w rest IH]; intros valid invalid; simpl.
  - now rewrite !app_nil_r.
  - destruct (funded c w); simpl; rewrite IH, <- app_assoc; reflexivity.
Qed.

Lemma getWalletBalancesLocally_length c wallets : forall found,
  length (foldl (fun found wallet =>
           let label := (String.substring 0 8 wallet ++ "...")%string in
           match keypairOf c wallet with
           | Ok key =>
               match getBalance c key with
               | Ok balance =>
                   found ++ [mkBalance label (inject_Z balance / inject_Z 1000000000) key]
               | Throw _ => found ++ [mkBalance label 0 "Invalid"]
               end
           | Throw _ => found ++ [mkBalance label 0 "Invalid"]
           end)
        found wallets)
  = length found + length wallets.
Proof.
  induction wallets as [|w rest IH]; intros found; cbn [foldl length]; [lia|].
  rewrite IH. destruct (keypairOf c w) as [key|e]; [destruct (getBalance c key)|];
    rewrite length_app; simpl; lia.
Qed.

(** X29. Wallet checks of the session-based scheduler.  When the backend
    validated the wallets its two lists are returned as they are; in every
    other case the wallets are checked locally, and then every wallet is in
    exactly one list: [valid] holds, in order, the wallets whose key decodes
    and whose balance could be read and is positive, [invalid] all others.
    The balance lookup falls back in the same way and then answers one entry
    per wallet. *)
Theorem wallet_checks_fall_back b c wallets :
  let r := VolumeApi.validateVolumeBotWallets b wallets in
  (success r = true -> validateWallets b c wallets = (validWallets r, invalidWallets r))
  /\ (success r = false ->
      validateWallets b c wallets
      = (List.filter (funded c) wallets, List.filter (fun w => negb (funded c w)) wallets)
      /\ fst (validateWallets b c wallets) ++ snd (validateWallets b c wallets) ≡ₚ wallets
      /\ forall w, w ∈ fst (validateWallets b c wallets) ->
                   w ∉ snd (validateWallets b c wallets))
  /\ (let r' := VolumeApi.getVolumeBotWalletBalances b wallets in
      (balances_ok r' = true -> getWalletBalances b c wallets = balances r')
      /\ (balances_ok r' = false -> length (getWalletBalances b c wallets) = length wallets)).
Proof.
  cbn zeta. unfold validateWallets, getWalletBalances.
  refine (conj _ (conj _ (conj _ _))).
  - now intros ->.
  - intros ->. unfold validateWalletsLocally. rewrite validateWalletsLocally_acc.
    cbn [app fst snd]. refine (conj eq_refl (conj _ _)).
    + apply VolumeFacts.filter_partition.
    + intros w Hv Hi. apply list_elem_of_In, filter_In in Hv as [_ Hv].
      apply list_elem_of_In, filter_In in Hi as [_ Hi]. rewrite Hv in Hi. discriminate Hi.
  - now intros ->.
  - intros ->. unfold getWalletBalancesLocally.
    now rewrite getWalletBalancesLocally_length.
Qed.

(** *** The status timer *)

(** A backend whose status answers agree with themselves: a session
    reported as running comes with statistics that say so. *)
Definition consistent (b : Backend) : Prop :=
  forall sessionId data v,
    getVolumeBotSessionStatus b sessionId = Ok data ->
    status_stats data = Some v -> status_isRunning data = Some true ->
    isRunning v = true.

(** The backend answering in an action, if any, is consistent. *)
Definition answers (a : Action) : Prop :=
  match a with
  | ActSettle _ b _ => consistent b
  | _ => True
  end.

(** Running on a session with exactly its status timer armed, or at rest
    with no session and no timer. *)
Definition tidy (s : VolumeBot) : Prop :=
  0 < nextInterval s
  /\ if isRunning (stats s)
     then hasSession s = true
          /\ exists id, statusCheckInterval s = Some id /\ 0 < id < nextInterval s
                        /\ intervals s = {[ id ]}
     else sessionId s = None /\ statusCheckInterval s = None /\ intervals s = ∅.

Lemma tidy_initial : tidy initial.
Proof. split; [simpl; lia|]. simpl. auto. Qed.

Lemma tidy_startSettled settled now cfg s :
  tidy s -> isRunning (stats s) = false -> tidy (snd (startSettled settled now cfg s)).
Proof.
  intros Hs Hrun. pose proof Hs as [Hnext Htidy]. rewrite Hrun in Htidy.
  unfold startSettled. destruct settled as [data|e]; [|exact Hs].
  destruct (negb (start_success data)
            || negb (truthy (default EmptyString (start_sessionId data)))) eqn:Hbad;
    [exact Hs|].
  apply orb_false_iff in Hbad as [_ Hid]. apply negb_false_iff in Hid.
  destruct Htidy as (_ & Hi & Hint).
  unfold startStatusChecking, hasSession. cbn. rewrite Hid. cbn.
  unfold tidy, hasSession. cbn.
  split; [lia|]. split; [exact Hid|]. exists (nextInterval s).
  split; [reflexivity|]. split; [lia|]. rewrite Hint. apply (right_id_L ∅ (∪)).
Qed.

Lemma clearStatusChecking_held s id :
  statusCheckInterval s = Some id -> 0 < id -> intervals s = {[ id ]} ->
  statusCheckInterval (clearStatusChecking s) = None
  /\ intervals (clearStatusChecking s) = ∅
  /\ nextInterval (clearStatusChecking s) = nextInterval s
  /\ stats (clearStatusChecking s) = stats s
  /\ sessionId (clearStatusChecking s) = sessionId s.
Proof.
  intros H1 Hid H2. unfold clearStatusChecking. rewrite H1.
  destruct id as [|id']; [lia|]. cbn. rewrite H2.
  refine (conj eq_refl (conj _ (conj eq_refl (conj eq_refl eq_refl)))).
  apply difference_diag_L.
Qed.

Lemma tidy_stopSettled settled s :
  tidy s -> isRunning (stats s) = true -> tidy (stopSettled settled s).
Proof.
  intros [Hnext Htidy] Hrun. rewrite Hrun in Htidy.
  destruct Htidy as (Hses & id & Hi & Hid & Hint).
  unfold stopSettled. destruct settled as [data|e].
  - set (s1 := match (if stop_success data then stop_stats data else None) with
               | Some v => setStats (withRunning false v) s
               | None => setStats (withRunning false (stats s)) s
               end).
    assert (H1 : statusCheckInterval s1 = Some id /\ intervals s1 = {[ id ]}
                 /\ nextInterval s1 = nextInterval s /\ isRunning (stats s1) = false).
    { unfold s1. destruct (if stop_success data then stop_stats data else None);
        now repeat split. }
    destruct H1 as (H1 & H2 & H3 & H4). clearbody s1.
    destruct (clearStatusChecking_held s1 id H1 ltac:(lia) H2) as (C1 & C2 & C3 & C4 & _).
    unfold tidy. cbn [setSessionId toast stats sessionId statusCheckInterval intervals
      nextInterval]. rewrite C1, C2, C3, C4, H3, H4. auto.
  - set (s1 := setSessionId None (setStats (withRunning false (stats s)) s)).
    destruct (clearStatusChecking_held s1 id Hi ltac:(lia) Hint) as (C1 & C2 & C3 & C4 & C5).
    unfold tidy. cbn [toast stats sessionId statusCheckInterval intervals nextInterval].
    rewrite C1, C2, C3, C4, C5. cbn. auto.
Qed.

Lemma tidy_statusSettled b session s :
  consistent b -> tidy s -> isRunning (stats s) = true ->
  tidy (statusSettled (getVolumeBotSessionStatus b session) s).
Proof.
  intros Hcons Hs Hrun. pose proof Hs as [Hnext Htidy]. rewrite Hrun in Htidy.
  destruct Htidy as (Hses & id & Hi & Hid & Hint).
  unfold statusSettled.
  destruct (getVolumeBotSessionStatus b session) as [data|e] eqn:Hcall; [|exact Hs].
  destruct (if status_success data then status_stats data else None) as [v|] eqn:Hv;
    [|exact Hs].
  assert (Hst : status_stats data = Some v)
    by (destruct (status_success data); [exact Hv | discriminate Hv]).
  assert (Hover : tidy (clearStatusChecking
                          (setSessionId None (setStats (withRunning false v) s)))).
  { destruct (clearStatusChecking_held
                (setSessionId None (setStats (withRunning false v) s)) id Hi ltac:(lia) Hint)
      as (C1 & C2 & C3 & C4 & C5).
    unfold tidy. rewrite C1, C2, C3, C4, C5. cbn. auto. }
  destruct (status_isRunning data) as [[|]|] eqn:Hr; cbn [default negb];
    [|exact Hover|exact Hover].
  split; [exact Hnext|]. cbn. rewrite (Hcons _ _ _ Hcall Hst Hr). eauto.
Qed.

(** What holds all along a run in which nothing overlaps: the object is
    tidy, at most one method waits, and it waits in the state it checked. *)
Definition calm (r : Runtime) : Prop :=
  tidy (bot r)
  /\ match waiting r with
     | [] => True
     | [AwaitStart _] => isRunning (stats (bot r)) = false
     | [AwaitStop _] | [AwaitStatus _] => isRunning (stats (bot r)) = true
     | _ => False
     end.

Lemma calm_step a r r' :
  answers a -> calm r -> waitsItsTurn a r = true -> step a r = Some r' -> calm r'.
Proof.
  intros Hans [Htidy Hwait] Hturn Hstep.
  destruct r as [s ws]. cbn [bot waiting] in *.
  destruct ws as [|p ws].
  - (* nothing waits *)
    destruct a as [cfg| |id|k b now]; cbn in Hstep.
    + unfold startCall in Hstep. destruct (isRunning (stats s)) eqn:Hrun;
        injection Hstep as <-; split; cbn; auto.
    + unfold stopCall in Hstep.
      destruct (negb (isRunning (stats s)) || negb (hasSession s)) eqn:Hguard;
        injection Hstep as <-; split; cbn; auto.
      apply orb_false_iff in Hguard as [Hrun _]. now apply negb_false_iff in Hrun.
    + destruct (decide (id ∈ intervals s)) as [Hin|]; [|discriminate].
      destruct Htidy as [Hnext Hcase].
      destruct (isRunning (stats s)) eqn:Hrun.
      * destruct Hcase as (Hses & Hid). unfold statusCall in Hstep. rewrite Hses in Hstep.
        cbn in Hstep. injection Hstep as <-. split; cbn; [|exact Hrun].
        split; [exact Hnext|]. rewrite Hrun. split; [exact Hses|exact Hid].
      * destruct Hcase as (_ & _ & Hint). rewrite Hint in Hin.
        now apply elem_of_empty in Hin.
    + discriminate.
  - (* one method waits: it settles *)
    destruct a as [cfg| |id|k b now]; try discriminate Hturn.
    destruct ws as [|p' ws]; [|destruct p; contradiction].
    destruct k as [|k]; [|discriminate Hstep].
    cbn in Hstep. injection Hstep as <-. split; [|exact I]. cbn [bot].
    destruct p as [cfg|session|session]; cbn [settle].
    + now apply tidy_startSettled.
    + now apply tidy_stopSettled.
    + now apply tidy_statusSettled.
Qed.

Lemma calm_run actions : forall r r',
  Forall answers actions -> calm r -> unoverlapped actions r = true ->
  run actions r = Some r' -> calm r'.
Proof.
  induction actions as [|a rest IH]; intros r r' Hall Hcalm Hun; simpl.
  - now intros [= <-].
  - apply Forall_cons in Hall as [Ha Hall]. cbn [unoverlapped] in Hun.
    apply andb_true_iff in Hun as [Hturn Hun].
    destruct (step a r) as [r1|] eqn:Hstep; [|discriminate].
    apply (IH r1 r' Hall (calm_step a r r1 Ha Hcalm Hturn Hstep) Hun).
Qed.

Lemma consistent_backendSaying_true : consistent (Scenarios.backendSaying true).
Proof.
  intros sessionId data v H Hv Hr. vm_compute in H. injection H as <-.
  simpl in Hv. injection Hv as <-. reflexivity.
Qed.

(** X30. The status timer of the session-based scheduler, each method
    being cut at its [await].  In a run where nothing overlaps (while a
    request waits, the only thing that happens is that it settles) and
    against backends whose status answers agree with themselves, the
    scheduler always either runs on a session with exactly one timer armed,
    the one it holds, or is at rest with no session and no timer.  Both
    assumptions are needed.  When [stop()] is called while a status request
    waits and is answered first, the late status answer leaves the scheduler
    marked running with no session and no timer, and from then on neither
    [start] nor [stop] nor anything else changes it.  When [start] is called
    twice before the first request settles, two timers are armed and [stop]
    clears only the second.  And after a status answer that reports a
    running session with statistics marked not running, a further [start]
    arms a second timer, of which [stop] leaves the first armed. *)
Theorem status_timer_tidy_without_overlap :
  (forall actions r,
     Forall answers actions ->
     unoverlapped actions boot = true ->
     run actions boot = Some r ->
     tidy (bot r) /\ length (waiting r) <= 1)
  /\ (exists r,
        run Scenarios.stoppedDuringStatusCheck boot = Some r
        /\ Forall answers Scenarios.stoppedDuringStatusCheck
        /\ waiting r = []
        /\ isRunning (stats (bot r)) = true
        /\ sessionId (bot r) = None
        /\ statusCheckInterval (bot r) = None
        /\ elements (intervals (bot r)) = []
        /\ (forall cfg, step (ActStart cfg) r = Some r)
        /\ step ActStop r = Some r
        /\ (forall k b now, step (ActSettle k b now) r = None))
  /\ (exists r,
        run Scenarios.startedTwice boot = Some r
        /\ Forall answers Scenarios.startedTwice
        /\ waiting r = []
        /\ isRunning (stats (bot r)) = false
        /\ statusCheckInterval (bot r) = None
        /\ elements (intervals (bot r)) = [1]
        /\ step (ActTimer 1) r = Some r)
  /\ (exists r,
        run Scenarios.restartedAfterMixedStatus boot = Some r
        /\ unoverlapped Scenarios.restartedAfterMixedStatus boot = true
        /\ waiting r = []
        /\ isRunning (stats (bot r)) = false
        /\ statusCheckInterval (bot r) = None
        /\ elements (intervals (bot r)) = [1]
        /\ step (ActTimer 1) r = Some r).
Proof.
  refine (conj _ (conj _ (conj _ _))).
  - intros actions r Hall Hun Hrun.
    destruct (calm_run actions boot r Hall (conj tidy_initial I) Hun Hrun) as [Ht Hw].
    split; [exact Ht|].
    destruct (waiting r) as [|p [|p' ws]]; simpl; [lia | lia | destruct p; contradiction].
  - eexists. split; [vm_compute; reflexivity|].
    split.
    { repeat (constructor; [first [exact I | exact consistent_backendSaying_true]|]).
      constructor. }
    refine (conj eq_refl (conj eq_refl (conj eq_refl (conj eq_refl (conj _ (conj _
             (conj _ _))))))).
    + vm_compute. reflexivity.
    + intros cfg. reflexivity.
    + reflexivity.
    + intros k b now. cbn. now destruct k.
  - eexists. split; [vm_compute; reflexivity|].
    split.
    { repeat (constructor; [first [exact I | exact consistent_backendSaying_true]|]).
      constructor. }
    refine (conj eq_refl (conj eq_refl (conj eq_refl (conj _ _)))).
    + vm_compute. reflexivity.
    + vm_compute. reflexivity.
  - eexists. split; [vm_compute; reflexivity|].
    split; [vm_compute; reflexivity|].
    refine (conj eq_refl (conj eq_refl (conj eq_refl (conj _ _)))).
    + vm_compute. reflexivity.
    + vm_compute. reflexivity.
Qed.

Lemma status_timer_tidy_without_overlap_witness :
  exists r, run Scenarios.startedAndChecked boot = Some r /\ tidy (bot r).
Proof.
  eexists. split; [vm_compute; reflexivity|].
  refine (proj1 (proj1 status_timer_tidy_without_overlap Scenarios.startedAndChecked _ _ _ _)).
  - repeat (constructor; [first [exact I | exact consistent_backendSaying_true]|]).
    constructor.
  - vm_compute. reflexivity.
  - vm_compute. reflexivity.
Defined.

End SessionFacts.
